(** * HNSW index persistence layer (duckdb-vss, [src/hnsw/hnsw_index.cpp])

    A shallow embedding of the linked block codec ([LinkedBlock],
    [LinkedBlockReader], [LinkedBlockWriter]) and of the life cycle of
    [HNSWIndex] (construction, batch insert, delete, compaction, drop,
    checkpoint), with the properties the design document states about them,
    and of its scans, its metric queries and the options of its
    constructor, with further properties read off the code.

    Conventions.
    - [idx_t] is a 64-bit unsigned integer: a value of [N] below [2^64];
      additions and subtractions the source performs on it are written with
      their wrap-around ([idx_add], [idx_sub]).
    - The host's [FixedSizeAllocator] and the usearch engine are not part of
      the translated file; they appear as interfaces ([HostStorage],
      [GraphEngine]) whose laws are stated where they are assumed. *)

From Stdlib Require Import NArith ZArith Lia List Strings.Byte String.
From stdpp Require Import base option list functions gmap sets sorting.

Local Open Scope N_scope.

(** ** 64-bit unsigned arithmetic *)

Abbreviation idx_t := N (only parsing).

Definition IDX_MODULUS : N := 18446744073709551616.

Definition idx_add (a b : idx_t) : idx_t := (a + b) mod IDX_MODULUS.

(** [a - b] on operands below [2^64]. *)
Definition idx_sub (a b : idx_t) : idx_t := (a + IDX_MODULUS - b) mod IDX_MODULUS.

(** ** Raw memory helpers *)

(** [memcpy (dst + doff, src + soff, n)]: the destination after the copy.
    Its size does not change.  The translated file copies inside both
    arrays only; of a copy that would leave one of them, which C leaves
    undefined, the part inside both is made. *)
Definition memcpy (dst : list byte) (doff : idx_t) (src : list byte) (soff n : idx_t)
  : list byte :=
  let copied :=
    take (length dst - N.to_nat doff)
         (take (N.to_nat n) (drop (N.to_nat soff) src)) in
  take (N.to_nat doff) dst
  ++ copied
  ++ drop (N.to_nat doff + length copied) dst.

(** [memset (dst, c, n)]. *)
Definition memset (dst : list byte) (c : byte) (n : idx_t) : list byte :=
  replicate (N.to_nat n) c ++ drop (N.to_nat n) dst.

(** ** Linked blocks *)

(** Modelled from the spec: [IndexPointer], the host's block pointer, is one
    64-bit word ("root block pointer (0 = none)"); [Get ()] is the word
    itself and [Clear ()] sets it to zero. *)
Abbreviation IndexPointer := N (only parsing).

Definition IndexPointer_Clear : IndexPointer := 0.

(** [data] is [char data[BLOCK_DATA_SIZE]].  That every block holds exactly
    that many bytes is stated of a memory as [sized], below; the writer and
    the operations of the index keep it ([WriteData_loop_sized],
    [reachable_sized]), and what is said of the bytes a read copies is said
    of memories that are [sized]. *)
Record LinkedBlock := mkLinkedBlock {
  next_block : IndexPointer;
  data : list byte }.

Definition set_next_block (p : IndexPointer) (b : LinkedBlock) : LinkedBlock :=
  mkLinkedBlock p (data b).

Definition set_data (d : list byte) (b : LinkedBlock) : LinkedBlock :=
  mkLinkedBlock (next_block b) d.

(** ** The host's fixed-size allocator *)

(** Modelled from the spec: [FixedSizeAllocator] is the host's "facility
    allocating storage in uniform-size chunks with pointer-based addressing";
    its code is not part of the translated sources.  The model keeps what a
    pointer dereferences to ([arena], total: [Get] performs no validity
    check) and the set of segments handed out so far ([live]). *)
Record FixedSizeAllocator := mkAllocator {
  arena : IndexPointer -> LinkedBlock;
  live : gset IndexPointer }.

(** What the translated file only names of the host: the constants
    [Storage::BLOCK_SIZE], [sizeof (validity_t)] and [sizeof (IndexPointer)],
    which segment [New] hands out next, and what memory holds before it is
    written.  They are parameters of the development. *)
Class HostStorage := {
  Storage_BLOCK_SIZE : idx_t;
  sizeof_validity_t : idx_t;
  sizeof_IndexPointer : idx_t;
  next_segment : gset IndexPointer -> IndexPointer;
  raw_segment : IndexPointer -> LinkedBlock }.

Section Allocator.
Context `{HostStorage}.

(** [LinkedBlock::BLOCK_SIZE] and [LinkedBlock::BLOCK_DATA_SIZE]. *)
Definition BLOCK_SIZE : idx_t := idx_sub Storage_BLOCK_SIZE sizeof_validity_t.
Definition BLOCK_DATA_SIZE : idx_t := idx_sub BLOCK_SIZE sizeof_IndexPointer.

(** Modelled from the spec: a new allocator,
    [make_uniq<FixedSizeAllocator> (sizeof (LinkedBlock), block_manager)],
    has handed out nothing. *)
Definition FixedSizeAllocator_make : FixedSizeAllocator :=
  mkAllocator raw_segment ∅.

(** Modelled from the spec: [allocator.Get<LinkedBlock> (ptr, dirty)] is the
    block behind [ptr]; the pointer is not checked. *)
Definition Get (a : FixedSizeAllocator) (ptr : IndexPointer) : LinkedBlock :=
  arena a ptr.

(** Modelled from the spec: a store through the pointer that [Get]
    returned changes the block behind [ptr] and no other. *)
Definition update_block (a : FixedSizeAllocator) (ptr : IndexPointer)
    (f : LinkedBlock -> LinkedBlock) : FixedSizeAllocator :=
  mkAllocator (<[ptr := f (arena a ptr)]> (arena a)) (live a).

(** Modelled from the spec: [allocator.New ()] hands out a segment and
    records it as in use. *)
Definition New (a : FixedSizeAllocator) : IndexPointer * FixedSizeAllocator :=
  let p := next_segment (live a) in
  (p, mkAllocator (arena a) ({[p]} ∪ live a)).

(** Modelled from the spec: [allocator.Reset ()] releases every segment. *)
Definition FixedSizeAllocator_Reset (a : FixedSizeAllocator) : FixedSizeAllocator :=
  mkAllocator (arena a) ∅.
End Allocator.

(** The static assertion of [LinkedBlock], and the one property of [New]
    the codec relies on: the segment handed out is not one in use. *)
Class HostStorageOk `{HostStorage} : Prop := {
  static_assert_BLOCK_SIZE : sizeof_IndexPointer < BLOCK_SIZE;
  next_segment_fresh : forall X : gset IndexPointer, next_segment X ∉ X }.

(** ** LinkedBlockReader *)

Module LinkedBlockReader.
Record t := mk {
  root_pointer : IndexPointer;
  current_pointer : IndexPointer;
  position_in_block : idx_t }.

Definition make (root : IndexPointer) : t := mk root root 0.

Definition Reset (r : t) : t := mk (root_pointer r) (root_pointer r) 0.

Section Read.
Context `{HostStorage}.

(** The [while (bytes_read < length)] loop; [None] when [fuel] iterations
    did not finish it. *)
Fixpoint ReadData_loop (fuel : nat) (a : FixedSizeAllocator) (r : t)
    (buffer : list byte) (length bytes_read : idx_t)
  : option (idx_t * t * list byte) :=
  if bytes_read <? length then
    match fuel with
    | O => None
    | S fuel' =>
      let block := Get a (current_pointer r) in
      let block_data := data block in
      let data_to_read :=
        N.min (idx_sub length bytes_read)
              (idx_sub BLOCK_DATA_SIZE (position_in_block r)) in
      let buffer' :=
        memcpy buffer bytes_read block_data (position_in_block r) data_to_read in
      let bytes_read' := idx_add bytes_read data_to_read in
      let position' := idx_add (position_in_block r) data_to_read in
      if position' =? BLOCK_DATA_SIZE then
        ReadData_loop fuel' a (mk (root_pointer r) (next_block block) 0)
                      buffer' length bytes_read'
      else
        ReadData_loop fuel' a (mk (root_pointer r) (current_pointer r) position')
                      buffer' length bytes_read'
    end
  else Some (bytes_read, r, buffer).

(** Every iteration copies a byte, except the first one of a reader or
    writer that stands at the very end of its block. *)
Definition loop_fuel (length : idx_t) : nat := S (S (N.to_nat length)).

(** [ReadData (buffer, length)]: the count returned, the reader and the
    buffer afterwards. *)
Definition ReadData (a : FixedSizeAllocator) (r : t) (buffer : list byte)
    (length : idx_t) : option (idx_t * t * list byte) :=
  ReadData_loop (loop_fuel length) a r buffer length 0.
End Read.
End LinkedBlockReader.

(** ** LinkedBlockWriter *)

Module LinkedBlockWriter.
Record t := mk {
  root_pointer : IndexPointer;
  current_pointer : IndexPointer;
  position_in_block : idx_t }.

Definition make (root : IndexPointer) : t := mk root root 0.

Section Write.
Context `{HostStorage}.

(** [ClearCurrentBlock ()]: the forward pointer is cleared and the payload
    zeroed. *)
Definition ClearCurrentBlock (a : FixedSizeAllocator) (w : t) : FixedSizeAllocator :=
  let a1 := update_block a (current_pointer w) (set_next_block IndexPointer_Clear) in
  update_block a1 (current_pointer w)
    (fun block => set_data (memset (data block) x00 BLOCK_DATA_SIZE) block).

(** [Reset ()]: back to the root block, which is cleared. *)
Definition Reset (a : FixedSizeAllocator) (w : t) : FixedSizeAllocator * t :=
  let w' := mk (root_pointer w) (root_pointer w) 0 in
  (ClearCurrentBlock a w', w').

(** The [while (bytes_written < length)] loop. *)
Fixpoint WriteData_loop (fuel : nat) (a : FixedSizeAllocator) (w : t)
    (buffer : list byte) (length bytes_written : idx_t)
  : option (FixedSizeAllocator * t) :=
  if bytes_written <? length then
    match fuel with
    | O => None
    | S fuel' =>
      let block_ptr := current_pointer w in
      let data_to_write :=
        N.min (idx_sub length bytes_written)
              (idx_sub BLOCK_DATA_SIZE (position_in_block w)) in
      let a1 :=
        update_block a block_ptr (fun block =>
          set_data (memcpy (data block) (position_in_block w)
                           buffer bytes_written data_to_write) block) in
      let bytes_written' := idx_add bytes_written data_to_write in
      let position' := idx_add (position_in_block w) data_to_write in
      if position' =? BLOCK_DATA_SIZE then
        let '(p, a2) := New a1 in
        let a3 := update_block a2 block_ptr (set_next_block p) in
        let w' := mk (root_pointer w) (next_block (Get a3 block_ptr)) 0 in
        WriteData_loop fuel' (ClearCurrentBlock a3 w') w' buffer length bytes_written'
      else
        WriteData_loop fuel' a1 (mk (root_pointer w) (current_pointer w) position')
                       buffer length bytes_written'
    end
  else Some (a, w).

(** [WriteData (buffer, length)]: the allocator and the writer afterwards. *)
Definition WriteData (a : FixedSizeAllocator) (w : t) (buffer : list byte)
    (length : idx_t) : option (FixedSizeAllocator * t) :=
  WriteData_loop (LinkedBlockReader.loop_fuel length) a w buffer length 0.
End Write.
End LinkedBlockWriter.

(** ** The graph engine *)

(** [row_t]: the host's 64-bit signed row identifier. *)
Abbreviation row_t := Z (only parsing).

(** What a call on the engine reports: success, or an error with its
    [what()]. *)
Inductive result_t :=
| Success
| Failure (what : string).

(** Modelled from the spec: the dialogue of [load_from_stream (callback)].
    The engine asks the callback for [size] bytes and goes on with the
    callback's answer and the filled buffer, until it is done. *)
Inductive Loader (E : Type) :=
| LoadDone (e : E)
| LoadRead (size : idx_t) (k : bool -> list byte -> Loader E).
Arguments LoadDone {E} e.
Arguments LoadRead {E} size k.

(** The dialogue run on a byte string: each request is answered with the
    next [size] bytes. *)
Fixpoint feed {E : Type} (l : Loader E) (stream : list byte) : option (E * list byte) :=
  match l with
  | LoadDone e => Some (e, stream)
  | LoadRead size k =>
    if decide (N.to_nat size <= length stream)%nat
    then feed (k true (take (N.to_nat size) stream)) (drop (N.to_nat size) stream)
    else None
  end.

(** Modelled from the spec: the usearch engine ([index_dense_t]) is "an opaque
    capability providing insert, search, remove, reserve, compact,
    save_to_stream(callback), load_from_stream(callback), size, capacity";
    its code is not part of the translated sources.  [e_keys] is the
    collection of identifiers the engine holds, [e_save] the pieces
    [save_to_stream] hands to its callback, in order. *)
Class GraphEngine := {
  Engine : Type;
  scalar : Type;
  EngineConfig : Type;
  e_make : EngineConfig -> Engine;
  e_size : Engine -> idx_t;
  e_capacity : Engine -> idx_t;
  e_reserve : Engine -> idx_t -> Engine;
  e_add : Engine -> row_t -> list scalar -> idx_t -> result_t * Engine;
  e_remove : Engine -> row_t -> result_t * Engine;
  e_compact : Engine -> result_t * Engine;
  e_reset : Engine -> Engine;
  e_search : Engine -> list scalar -> idx_t -> list row_t;
  e_keys : Engine -> list row_t;
  e_save : Engine -> list (list byte);
  e_load : Engine -> Loader Engine;
  e_any_thread : idx_t }.

(** Modelled from the spec: what the design document says of the engine.
    [size] is the number of identifiers held; a successful insert adds the
    identifier, a failed one drops nothing; [reserve n] provides room for
    [n] and touches no element; [remove] deletes the identifier and is "a
    defensive no-op on missing id"; a new or reset engine is empty; a search
    "returns up to result_limit row identifiers" and, with a limit that
    covers the whole index, every identifier held; what an engine without
    elements saves is loaded as an engine without elements ("reloads to an
    empty state"). *)
Class GraphEngineLaws `{GraphEngine} : Prop := {
  e_size_keys : forall e, e_size e = N.of_nat (length (e_keys e));
  e_make_keys : forall c, e_keys (e_make c) = [];
  e_reset_keys : forall e, e_keys (e_reset e) = [];
  e_reserve_keys : forall e n, e_keys (e_reserve e n) = e_keys e;
  e_reserve_capacity : forall e n, n <= e_capacity (e_reserve e n);
  e_add_success : forall e k v t e',
    e_add e k v t = (Success, e') -> e_keys e' ≡ₚ k :: e_keys e;
  e_add_failure : forall e k v t w e',
    e_add e k v t = (Failure w, e') -> e_keys e ⊆+ e_keys e';
  e_add_capacity : forall e k v t, e_capacity e <= e_capacity (e_add e k v t).2;
  e_remove_keys : forall e k,
    e_keys (e_remove e k).2 = filter (fun k' => k' ≠ k) (e_keys e);
  e_remove_absent : forall e k, k ∉ e_keys e -> (e_remove e k).2 = e;
  e_search_limit : forall e q limit,
    N.of_nat (length (e_search e q limit)) <= limit;
  e_search_complete : forall e q limit k,
    e_size e <= limit -> k ∈ e_keys e -> k ∈ e_search e q limit;
  e_load_save_empty : forall c e,
    e_keys e = [] ->
    exists e' rest,
      feed (e_load (e_make c)) (concat (e_save e)) = Some (e', rest)
      /\ e_keys e' = [] }.

(** Modelled from the spec: [NextPowerOfTwo] (a host helper) is "the next
    power of two ≥ the new element count". *)
Definition NextPowerOfTwo (v : idx_t) : idx_t := 2 ^ N.log2_up v.

(** Modelled from the spec: [MinValue] (a host helper), the smaller of two
    counts. *)
Definition MinValue (a b : idx_t) : idx_t := N.min a b.

(** ** The storage descriptor *)

(** Modelled from the spec: the allocator's "block-usage metadata (which
    physical blocks belong to this stream)", with the block contents the
    host wrote to durable storage. *)
Record FixedSizeAllocatorInfo := mkAllocatorInfo {
  buffer_ids : list IndexPointer;
  persisted : IndexPointer -> LinkedBlock }.

(** Modelled from the spec: [allocator->GetInfo ()] lists the segments in
    use; [allocator->Init (info)] is the allocator as it was persisted. *)
Definition GetInfo (a : FixedSizeAllocator) : FixedSizeAllocatorInfo :=
  mkAllocatorInfo (elements (live a)) (arena a).

Definition Init (info : FixedSizeAllocatorInfo) : FixedSizeAllocator :=
  mkAllocator (persisted info) (list_to_set (buffer_ids info)).

(** Modelled from the spec: the storage descriptor [IndexStorageInfo], "root
    block pointer (0 = none)" and the allocator metadata; [buffers] holds
    what [InitSerializationToWAL] hands over in the buffer mode. *)
Record IndexStorageInfo := mkStorageInfo {
  root : idx_t;
  allocator_infos : list FixedSizeAllocatorInfo;
  buffers : list (list IndexPointer) }.

(** ** Exceptions, locks and the observation log *)

Inductive Exception :=
| NotImplementedException (msg : string)
| InternalException (msg : string).

Inductive IndexConstraintType := NONE | UNIQUE | PRIMARY | FOREIGN.

Inductive LockMode := SharedLock | ExclusiveLock.

(** What an operation does to [rwlock] and to the engine, in program order.
    The program never reads the log; it is kept so that the lock under which
    a call on the engine is made can be stated. *)
Inductive Event :=
| Acquire (m : LockMode)
| Release (m : LockMode)
| CallCapacity
| CallSize
| CallReserve (n : idx_t)
| CallAdd (key : row_t)
| CallRemove (key : row_t)
| CallCompact
| CallReset
| CallSearch (limit : idx_t)
| CallSave
| CallLoad.


(** The identifiers a log inserts, and those it removes. *)
Definition added_keys (log : list Event) : list row_t :=
  omap (fun ev => match ev with CallAdd k => Some k | _ => None end) log.

Definition removed_keys (log : list Event) : list row_t :=
  omap (fun ev => match ev with CallRemove k => Some k | _ => None end) log.

(** ** Streaming through the engine *)

(** Modelled from the spec: [save_to_stream (callback)] hands the engine's
    serialized state to the callback piece by piece and stops with an error
    when the callback answers [false].  The callback's state is threaded
    through; [None] is a callback that ran out of fuel. *)
Fixpoint save_to_stream {S : Type} (pieces : list (list byte))
    (callback : list byte -> idx_t -> S -> option (bool * S)) (s : S)
  : option (result_t * S) :=
  match pieces with
  | [] => Some (Success, s)
  | piece :: pieces' =>
    match callback piece (N.of_nat (length piece)) s with
    | None => None
    | Some (true, s') => save_to_stream pieces' callback s'
    | Some (false, s') => Some (Failure "failed to write to the stream", s')
    end
  end.

(** Modelled from the spec: [load_from_stream (callback)] runs the engine's
    dialogue against the callback; each request comes with a buffer of
    [size] bytes of the engine's own. *)
Fixpoint load_from_stream {E S : Type} (l : Loader E)
    (callback : list byte -> idx_t -> S -> option (bool * list byte * S)) (s : S)
  : option (E * S) :=
  match l with
  | LoadDone e => Some (e, s)
  | LoadRead size k =>
    match callback (replicate (N.to_nat size) x00) size s with
    | None => None
    | Some (ok, buffer, s') => load_from_stream (k ok buffer) callback s'
    end
  end.

(** ** Vectors of the host *)

(** What the translated file only names of the host's vectors:
    [STANDARD_VECTOR_SIZE], the number of rows a [Vector] has room for. *)
Class HostVector := {
  STANDARD_VECTOR_SIZE : idx_t }.

(** ** Metrics, scalar kinds and creation options *)

(** [unum::usearch::metric_kind_t]: the kinds the file names, in its code
    and in the list it leaves for later. *)
Module metric_kind_t.
Inductive t :=
| l2sq_k | cos_k | ip_k
| divergence_k | hamming_k | jaccard_k | haversine_k | pearson_k | sorensen_k
| tanimoto_k.
End metric_kind_t.

(** [unum::usearch::scalar_kind_t]: the kinds the file names. *)
Module scalar_kind_t.
Inductive t :=
| f32_k | f64_k | i8_k | i16_k | i32_k | i64_k | u8_k | u16_k | u32_k | u64_k.
End scalar_kind_t.

(** [LogicalTypeId]: the types the file names, and [OTHER] for every other
    type of the host.  The file keys its table by
    [static_cast<uint8_t> (id)], which is one-to-one on the enumeration, so
    the table below is keyed by the type itself. *)
Module LogicalTypeId.
Inductive t :=
| FLOAT | DOUBLE | TINYINT | SMALLINT | INTEGER | BIGINT
| UTINYINT | USMALLINT | UINTEGER | UBIGINT
| OTHER (id : N).
End LogicalTypeId.

#[global] Instance LogicalTypeId_eq_dec : EqDecision LogicalTypeId.t.
Proof. solve_decision. Defined.

(** [StringUtil::Lower] on the ASCII letters. *)
Definition tolower (c : Ascii.ascii) : Ascii.ascii :=
  let n := Ascii.N_of_ascii c in
  if (65 <=? n) && (n <=? 90) then Ascii.ascii_of_N (n + 32) else c.

Fixpoint StringUtil_Lower (s : string) : string :=
  match s with
  | EmptyString => EmptyString
  | String c s' => String (tolower c) (StringUtil_Lower s')
  end.

(** Modelled from the spec: [case_insensitive_map_t<V>], the host's map
    whose keys are compared without regard to case ("string-keyed,
    case-insensitive"): the entries, and [find] as the first entry whose key
    equals the one asked for once both are in lower case. *)
Fixpoint case_insensitive_find {V : Type} (m : list (string * V)) (key : string)
  : option V :=
  match m with
  | [] => None
  | (k, v) :: m' =>
    if String.eqb (StringUtil_Lower k) (StringUtil_Lower key) then Some v
    else case_insensitive_find m' key
  end.

(** [HNSWIndex::METRIC_KIND_MAP] *)
Definition METRIC_KIND_MAP : list (string * metric_kind_t.t) :=
  [("l2sq"%string, metric_kind_t.l2sq_k);
   ("cosine"%string, metric_kind_t.cos_k);
   ("ip"%string, metric_kind_t.ip_k)].

(** [HNSWIndex::SCALAR_KIND_MAP], and [find] on it. *)
Definition SCALAR_KIND_MAP : list (LogicalTypeId.t * scalar_kind_t.t) :=
  [(LogicalTypeId.FLOAT, scalar_kind_t.f32_k);
   (LogicalTypeId.DOUBLE, scalar_kind_t.f64_k);
   (LogicalTypeId.TINYINT, scalar_kind_t.i8_k);
   (LogicalTypeId.SMALLINT, scalar_kind_t.i16_k);
   (LogicalTypeId.INTEGER, scalar_kind_t.i32_k);
   (LogicalTypeId.BIGINT, scalar_kind_t.i64_k);
   (LogicalTypeId.UTINYINT, scalar_kind_t.u8_k);
   (LogicalTypeId.USMALLINT, scalar_kind_t.u16_k);
   (LogicalTypeId.UINTEGER, scalar_kind_t.u32_k);
   (LogicalTypeId.UBIGINT, scalar_kind_t.u64_k)].

Fixpoint unordered_map_find {K V : Type} `{EqDecision K} (m : list (K * V)) (key : K)
  : option V :=
  match m with
  | [] => None
  | (k, v) :: m' => if decide (k = key) then Some v else unordered_map_find m' key
  end.

(** What the translated file only names of the host's [Value]: the value
    of an option and its two conversions.  The conversions are taken to
    succeed; the file leaves the check of the options to the binder ("this
    parameter should be verified during binding"). *)
Class HostValue := {
  Value : Type;
  GetValue_string : Value -> string;
  GetValue_int32_t : Value -> Z }.

(** An [int32_t] stored into a [std::size_t]; the product of two
    [std::size_t]. *)
Definition size_t_of_int32_t (z : Z) : idx_t := Z.to_N (z mod Z.of_N IDX_MODULUS).

Definition idx_mul (a b : idx_t) : idx_t := (a * b) mod IDX_MODULUS.

(** [unum::usearch::metric_punned_t (dimensions, metric_kind, scalar_kind)] *)
Record metric_punned_t := mkMetric {
  dimensions : idx_t;
  metric_kind : metric_kind_t.t;
  scalar_kind : scalar_kind_t.t }.

(** [unum::usearch::index_dense_config_t]: the fields the constructor
    assigns, each a [std::size_t] but for the flag. *)
Record index_dense_config_t := mkConfig {
  connectivity : idx_t;
  connectivity_base : idx_t;
  expansion_add : idx_t;
  expansion_search : idx_t;
  enable_key_lookups : bool }.

Definition set_connectivity (n : idx_t) (c : index_dense_config_t) :=
  mkConfig n (connectivity_base c) (expansion_add c) (expansion_search c)
           (enable_key_lookups c).

Definition set_connectivity_base (n : idx_t) (c : index_dense_config_t) :=
  mkConfig (connectivity c) n (expansion_add c) (expansion_search c)
           (enable_key_lookups c).

Definition set_expansion_add (n : idx_t) (c : index_dense_config_t) :=
  mkConfig (connectivity c) (connectivity_base c) n (expansion_search c)
           (enable_key_lookups c).

Definition set_expansion_search (n : idx_t) (c : index_dense_config_t) :=
  mkConfig (connectivity c) (connectivity_base c) (expansion_add c) n
           (enable_key_lookups c).

Definition set_enable_key_lookups (b : bool) (c : index_dense_config_t) :=
  mkConfig (connectivity c) (connectivity_base c) (expansion_add c)
           (expansion_search c) b.

(** What the constructor and the metric queries use of the engine beyond
    [GraphEngine]: the configuration [index_dense_config_t config = {}]
    starts from, the configuration [index_dense_t::make (metric, config)]
    is made with, and [index.metric ().metric_kind ()]. *)
Class GraphEngineMetric `{GraphEngine} := {
  index_dense_config_default : index_dense_config_t;
  e_config : metric_punned_t -> index_dense_config_t -> EngineConfig;
  e_metric_kind : Engine -> metric_kind_t.t }.

(** ** HNSWIndex *)

Module HNSWIndex.
(** How a call ends: it returns, it throws, or (in this model only) a
    codec loop was cut off. *)
Inductive Outcome (A : Type) :=
| Normal (a : A)
| Raised (e : Exception)
| OutOfFuel.
Arguments Normal {A} a.
Arguments Raised {A} e.
Arguments OutOfFuel {A}.

Section Index.
Context `{HostStorage} `{GraphEngine}.

Record t := mk {
  index : Engine;
  index_size : idx_t;
  is_dirty : bool;
  root_block_ptr : IndexPointer;
  linked_block_allocator : FixedSizeAllocator;
  log : list Event }.

(** A member function: the object before, the outcome and the object
    after. *)
Definition M (A : Type) : Type := t -> Outcome A * t.

Definition ret {A} (a : A) : M A := fun s => (Normal a, s).

Definition bind {A B} (m : M A) (k : A -> M B) : M B :=
  fun s =>
    match m s with
    | (Normal a, s') => k a s'
    | (Raised e, s') => (Raised e, s')
    | (OutOfFuel, s') => (OutOfFuel, s')
    end.

Definition throw {A} (e : Exception) : M A := fun s => (Raised e, s).

Definition gets {A} (f : t -> A) : M A := fun s => (Normal (f s), s).

Definition modify (f : t -> t) : M unit := fun s => (Normal tt, f s).

Local Notation "'let*' x ':=' m 'in' k" := (bind m (fun x => k))
  (at level 10, x name, m at level 100, k at level 200, only parsing).

Definition record (ev : Event) : M unit :=
  modify (fun s => mk (index s) (index_size s) (is_dirty s) (root_block_ptr s)
                      (linked_block_allocator s) (log s ++ [ev])).

Definition set_index (e : Engine) : M unit :=
  modify (fun s => mk e (index_size s) (is_dirty s) (root_block_ptr s)
                      (linked_block_allocator s) (log s)).

Definition set_index_size (n : idx_t) : M unit :=
  modify (fun s => mk (index s) n (is_dirty s) (root_block_ptr s)
                      (linked_block_allocator s) (log s)).

Definition set_is_dirty (b : bool) : M unit :=
  modify (fun s => mk (index s) (index_size s) b (root_block_ptr s)
                      (linked_block_allocator s) (log s)).

Definition set_root_block_ptr (p : IndexPointer) : M unit :=
  modify (fun s => mk (index s) (index_size s) (is_dirty s) p
                      (linked_block_allocator s) (log s)).

Definition set_linked_block_allocator (a : FixedSizeAllocator) : M unit :=
  modify (fun s => mk (index s) (index_size s) (is_dirty s) (root_block_ptr s)
                      a (log s)).

(** [auto lock = rwlock.Get...Lock ()] and the scope the guard lives in:
    the lock is released when the scope is left, by a return or by an
    exception. *)
Definition locked {A} (m : LockMode) (body : M A) : M A :=
  fun s =>
    let '(r, s') := (let* _ := record (Acquire m) in body) s in
    let '(_, s'') := record (Release m) s' in
    (r, s'').

(** *** Calls on the engine *)

Definition index_capacity : M idx_t :=
  let* _ := record CallCapacity in gets (fun s => e_capacity (index s)).

Definition index_size_call : M idx_t :=
  let* _ := record CallSize in gets (fun s => e_size (index s)).

Definition index_reserve (n : idx_t) : M unit :=
  let* _ := record (CallReserve n) in
  let* e := gets index in set_index (e_reserve e n).

Definition index_add (key : row_t) (vector : list scalar) (thread : idx_t)
  : M result_t :=
  let* _ := record (CallAdd key) in
  let* e := gets index in
  let '(result, e') := e_add e key vector thread in
  let* _ := set_index e' in ret result.

Definition index_remove (key : row_t) : M result_t :=
  let* _ := record (CallRemove key) in
  let* e := gets index in
  let '(result, e') := e_remove e key in
  let* _ := set_index e' in ret result.

Definition index_compact : M result_t :=
  let* _ := record CallCompact in
  let* e := gets index in
  let '(result, e') := e_compact e in
  let* _ := set_index e' in ret result.

Definition index_reset : M unit :=
  let* _ := record CallReset in
  let* e := gets index in set_index (e_reset e).

Definition index_search (query : list scalar) (limit : idx_t) : M (list row_t) :=
  let* _ := record (CallSearch limit) in
  gets (fun s => e_search (index s) query limit).

(** [index_size.fetch_add (count)]: the value before the addition. *)
Definition index_size_fetch_add (count : idx_t) : M idx_t :=
  let* old := gets index_size in
  let* _ := set_index_size (idx_add old count) in ret old.

(** *** Construction *)

(** The callback given to [load_from_stream]:
    [size == reader.ReadData (data, size)]. *)
Definition load_callback (a : FixedSizeAllocator) (data : list byte)
    (size : idx_t) (reader : LinkedBlockReader.t)
  : option (bool * list byte * LinkedBlockReader.t) :=
  match LinkedBlockReader.ReadData a reader data size with
  | None => None
  | Some (n, reader', data') => Some (size =? n, data', reader')
  end.

(** The load branch: [index.load_from_stream (...)], whose result the
    constructor does not look at. *)
Definition index_load_from_stream (reader : LinkedBlockReader.t) : M unit :=
  let* _ := record CallLoad in
  let* e := gets index in
  let* a := gets linked_block_allocator in
  match load_from_stream (e_load e) (load_callback a) reader with
  | None => fun s => (OutOfFuel, s)
  | Some (e', _) => set_index e'
  end.

(** The object before the constructor body's locked part runs: the
    engine made from the options, [is_dirty] and [root_block_ptr] as the
    class declares them. *)
Definition fresh_object (cfg : EngineConfig) : t :=
  mk (e_make cfg) 0 false IndexPointer_Clear FixedSizeAllocator_make [].

(** The constructor.  [cfg] stands for the metric and configuration the
    constructor derives from the column type and the options; [info] is
    [None] when [info.IsValid ()] is false ("storage-descriptor-or-empty").
    The assertion on [info.allocator_infos.size ()] is taken as checked. *)
Definition make (index_constraint_type : IndexConstraintType)
    (cfg : EngineConfig) (info : option IndexStorageInfo)
    (estimated_cardinality : idx_t) : Outcome unit * t :=
  match index_constraint_type with
  | NONE =>
    locked ExclusiveLock
      (let* _ :=
         match info with
         | Some info =>
           let* _ := set_root_block_ptr (root info) in
           match allocator_infos info with
           | [allocator_info] =>
             let* _ := set_linked_block_allocator (Init allocator_info) in
             match buffer_ids allocator_info with
             | [] => ret tt
             | _ :: _ =>
               let* root_ptr := gets root_block_ptr in
               index_load_from_stream (LinkedBlockReader.make root_ptr)
             end
           | _ => throw (InternalException "Assertion triggered")
           end
         | None => index_reserve (MinValue 32 estimated_cardinality)
         end in
       let* size := index_size_call in set_index_size size)
      (fresh_object cfg)
  | _ =>
    (Raised (NotImplementedException
               "HNSW indexes do not support unique or primary key constraints"),
     fresh_object cfg)
  end.

(** *** Scans *)

Record HNSWIndexScanState := mkScanState {
  current_row : idx_t;
  total_rows : idx_t;
  row_ids : list row_t }.

(** [InitializeScan (query_vector, limit)]: the search runs under the shared
    lock and its result is copied into the scan state. *)
Definition InitializeScan (query_vector : list scalar) (limit : idx_t)
  : M HNSWIndexScanState :=
  locked SharedLock
    (let* search_result := index_search query_vector limit in
     ret (mkScanState 0 (N.of_nat (length search_result)) search_result)).

(** *** Drop *)

(** [CommitDrop (index_lock)] *)
Definition CommitDrop : M unit :=
  locked ExclusiveLock
    (let* _ := index_reset in
     let* _ := set_index_size 0 in
     let* a := gets linked_block_allocator in
     let* _ := set_linked_block_allocator (FixedSizeAllocator_Reset a) in
     set_root_block_ptr IndexPointer_Clear).

(** *** Batch insert *)

(** The [for] loop over the rows of the batch. *)
Fixpoint add_rows (rows : list (row_t * list scalar)) (thread_idx : idx_t) : M unit :=
  match rows with
  | [] => ret tt
  | (rowid, vector) :: rows' =>
    let* result := index_add rowid vector thread_idx in
    match result with
    | Failure what =>
      throw (InternalException ("Failed to add to the HNSW index: " ++ what))
    | Success => add_rows rows' thread_idx
    end
  end.

(** [Construct (input, row_ids, thread_idx)]; the batch is the list of
    its rows, each with its row identifier and its vector. *)
Definition Construct (input : list (row_t * list scalar)) (thread_idx : idx_t)
  : M unit :=
  let* _ := set_is_dirty true in
  let count := N.of_nat (length input) in
  let* needs_resize :=
    locked SharedLock
      (let* old := index_size_fetch_add count in
       let* capacity := index_capacity in
       ret (capacity <? idx_add old count)) in
  let* _ :=
    (if needs_resize : bool then
       locked ExclusiveLock
         (let* size := gets index_size in
          let* capacity := index_capacity in
          if capacity <? size then index_reserve (NextPowerOfTwo size) else ret tt)
     else ret tt) in
  locked SharedLock (add_rows input thread_idx).

(** *** Compaction *)

(** [Compact ()] *)
Definition Compact : M unit :=
  let* _ := set_is_dirty true in
  locked ExclusiveLock
    (let* result := index_compact in
     match result with
     | Failure what =>
       throw (InternalException ("Failed to compact the HNSW index: " ++ what))
     | Success => let* size := index_size_call in set_index_size size
     end).

(** *** Delete *)

(** The [for] loop of [Delete]: the result of [index.remove] is dropped. *)
Fixpoint remove_rows (row_id_data : list row_t) : M unit :=
  match row_id_data with
  | [] => ret tt
  | rowid :: rest => let* _ := index_remove rowid in remove_rows rest
  end.

(** [Delete (lock, input, rowid_vec)]; the chunk is the list of its row
    identifiers. *)
Definition Delete (row_id_data : list row_t) : M unit :=
  let* _ := set_is_dirty true in
  locked ExclusiveLock
    (let* _ := remove_rows row_id_data in
     let* size := index_size_call in set_index_size size).

(** [Insert] and [Append]: [Construct] on [index_dense_t::any_thread ()];
    the [ErrorData] returned is always the empty one. *)
Definition Insert (input : list (row_t * list scalar)) : M unit :=
  Construct input e_any_thread.

Definition Append (entries : list (row_t * list scalar)) : M unit :=
  Construct entries e_any_thread.

(** *** Checkpoint *)

(** The callback given to [save_to_stream]:
    [writer.WriteData (data, size); return true]. *)
Definition save_callback (data : list byte) (size : idx_t)
    (st : FixedSizeAllocator * LinkedBlockWriter.t)
  : option (bool * (FixedSizeAllocator * LinkedBlockWriter.t)) :=
  match LinkedBlockWriter.WriteData st.1 st.2 data size with
  | None => None
  | Some st' => Some (true, st')
  end.

(** [index.save_to_stream (...)], whose result [PersistToDisk] does not look
    at. *)
Definition index_save_to_stream (writer : LinkedBlockWriter.t) : M unit :=
  let* _ := record CallSave in
  let* e := gets index in
  let* a := gets linked_block_allocator in
  match save_to_stream (e_save e) save_callback (a, writer) with
  | None => fun s => (OutOfFuel, s)
  | Some (_, (a', _)) => set_linked_block_allocator a'
  end.

(** [PersistToDisk ()] *)
Definition PersistToDisk : M unit :=
  locked ExclusiveLock
    (let* dirty := gets is_dirty in
     if negb dirty then ret tt
     else
       let* root_ptr := gets root_block_ptr in
       let* _ :=
         (if root_ptr =? 0 then
            let* a := gets linked_block_allocator in
            let '(p, a') := New a in
            let* _ := set_linked_block_allocator a' in set_root_block_ptr p
          else ret tt) in
       let* root_ptr := gets root_block_ptr in
       let* a := gets linked_block_allocator in
       let '(a', writer) :=
         LinkedBlockWriter.Reset a (LinkedBlockWriter.make root_ptr) in
       let* _ := set_linked_block_allocator a' in
       let* _ := index_save_to_stream writer in
       set_is_dirty false).

(** [GetStorageInfo (get_buffers)]: the descriptor after a checkpoint.  What
    the two branches hand to the host's block manager and log is left out,
    but for the buffers of the second. *)
Definition GetStorageInfo (get_buffers : bool) : M IndexStorageInfo :=
  let* _ := PersistToDisk in
  let* root_ptr := gets root_block_ptr in
  let* a := gets linked_block_allocator in
  ret (mkStorageInfo root_ptr [GetInfo a]
         (if get_buffers then [elements (live a)] else [])).
End Index.

(** *** Scan *)

Section Scanning.
Context `{HostVector}.

(** The [while] loop of [Scan].  [result] is the data of the result vector,
    [count] the number of rows pushed so far.  [None] when an access falls
    outside its array, or when [fuel] iterations did not finish the loop. *)
Fixpoint Scan_loop (fuel : nat) (scan_state : HNSWIndexScanState)
    (result : list row_t) (count : idx_t)
  : option (idx_t * HNSWIndexScanState * list row_t) :=
  if (count <? STANDARD_VECTOR_SIZE)
     && (current_row scan_state <? total_rows scan_state) then
    match fuel with
    | O => None
    | S fuel' =>
      match row_ids scan_state !! N.to_nat (current_row scan_state) with
      | Some rowid =>
        if decide (N.to_nat count < length result)%nat then
          Scan_loop fuel'
            (mkScanState (idx_add (current_row scan_state) 1)
                         (total_rows scan_state) (row_ids scan_state))
            (<[N.to_nat count := rowid]> result)
            (idx_add count 1)
        else None
      | None => None
      end
    end
  else Some (count, scan_state, result).

(** [Scan (state, result)]: the count returned, the scan state and the
    data of the result vector afterwards.  Every iteration pushes a row, so
    the loop runs [STANDARD_VECTOR_SIZE] times at most. *)
Definition Scan (scan_state : HNSWIndexScanState) (result : list row_t)
  : option (idx_t * HNSWIndexScanState * list row_t) :=
  Scan_loop (N.to_nat STANDARD_VECTOR_SIZE) scan_state result 0.
End Scanning.

(** *** The metric and the configuration of a new index *)

Section Options.
Context `{HostStorage} `{GraphEngine} `{!GraphEngineMetric} `{HostValue}.

Local Notation "'let*' x ':=' m 'in' k" := (bind m (fun x => k))
  (at level 10, x name, m at level 100, k at level 200, only parsing).

(** The metric the constructor makes the engine with: [vector_size] and
    [vector_child_type] are the size and the child type of the indexed
    ARRAY column (the assertions that there is one column and that it is an
    ARRAY are taken as checked).  A child type outside [SCALAR_KIND_MAP]
    leaves [f32_k], a metric name outside [METRIC_KIND_MAP] leaves
    [l2sq_k]. *)
Definition constructor_metric (vector_size : idx_t)
    (vector_child_type : LogicalTypeId.t) (options : list (string * Value))
  : metric_punned_t :=
  let scalar_kind :=
    match unordered_map_find SCALAR_KIND_MAP vector_child_type with
    | Some scalar_kind_val => scalar_kind_val
    | None => scalar_kind_t.f32_k
    end in
  let metric_kind :=
    match case_insensitive_find options "metric" with
    | Some metric_kind_opt =>
      match case_insensitive_find METRIC_KIND_MAP (GetValue_string metric_kind_opt) with
      | Some metric_kind_val => metric_kind_val
      | None => metric_kind_t.l2sq_k
      end
    | None => metric_kind_t.l2sq_k
    end in
  mkMetric vector_size metric_kind scalar_kind.

(** The configuration the constructor makes the engine with. *)
Definition constructor_config (options : list (string * Value))
  : index_dense_config_t :=
  let config := index_dense_config_default in
  let config := set_enable_key_lookups false config in
  let config :=
    match case_insensitive_find options "ef_construction" with
    | Some ef_construction_opt =>
      set_expansion_add (size_t_of_int32_t (GetValue_int32_t ef_construction_opt)) config
    | None => config
    end in
  let config :=
    match case_insensitive_find options "ef_search" with
    | Some ef_search_opt =>
      set_expansion_search (size_t_of_int32_t (GetValue_int32_t ef_search_opt)) config
    | None => config
    end in
  let config :=
    match case_insensitive_find options "m" with
    | Some m_opt =>
      let config := set_connectivity (size_t_of_int32_t (GetValue_int32_t m_opt)) config in
      set_connectivity_base (idx_mul (connectivity config) 2) config
    | None => config
    end in
  match case_insensitive_find options "m0" with
  | Some m0_opt =>
    set_connectivity_base (size_t_of_int32_t (GetValue_int32_t m0_opt)) config
  | None => config
  end.

(** The constructor, from the column type and the options on. *)
Definition new_HNSWIndex (index_constraint_type : IndexConstraintType)
    (vector_size : idx_t) (vector_child_type : LogicalTypeId.t)
    (options : list (string * Value)) (info : option IndexStorageInfo)
    (estimated_cardinality : idx_t) : Outcome unit * t :=
  make index_constraint_type
    (e_config (constructor_metric vector_size vector_child_type options)
              (constructor_config options))
    info estimated_cardinality.

(** *** Metric queries *)

(** [GetMetric ()] *)
Definition GetMetric : M string :=
  let* kind := gets (fun s => e_metric_kind (index s)) in
  match kind with
  | metric_kind_t.l2sq_k => ret "l2sq"%string
  | metric_kind_t.cos_k => ret "cosine"%string
  | metric_kind_t.ip_k => ret "ip"%string
  | _ => throw (InternalException "Unknown metric kind")
  end.

(** [IsDistanceFunction (distance_function_name)] *)
Definition IsDistanceFunction (distance_function_name : string) : bool :=
  let accepted_functions :=
    ["array_distance"; "array_cosine_similarity"; "array_inner_product"]%string in
  existsb (String.eqb distance_function_name) accepted_functions.

(** [MatchesDistanceFunction (distance_function_name)] *)
Definition MatchesDistanceFunction (distance_function_name : string) : M bool :=
  let* kind := gets (fun s => e_metric_kind (index s)) in
  if String.eqb distance_function_name "array_distance"
     && match kind with metric_kind_t.l2sq_k => true | _ => false end
  then ret true
  else if String.eqb distance_function_name "array_cosine_similarity"
          && match kind with metric_kind_t.cos_k => true | _ => false end
  then ret true
  else if String.eqb distance_function_name "array_inner_product"
          && match kind with metric_kind_t.ip_k => true | _ => false end
  then ret true
  else ret false.
End Options.
End HNSWIndex.

(** ** Vocabulary of the properties *)

Section Chains.
Context `{HostStorage}.

(** The payload size as a length of lists. *)
Definition payload : nat := N.to_nat BLOCK_DATA_SIZE.

(** [chain m ps s cur pos]: in the memory [m] the blocks [ps], linked in this
    order, hold the stream [s]; each block but the last is full, and the
    last, [cur], holds [pos] bytes followed by zeros and points nowhere.
    ([junk] is what a segment may hold behind the payload.) *)
Inductive chain (m : IndexPointer -> LinkedBlock)
  : list IndexPointer -> list byte -> IndexPointer -> nat -> Prop :=
| chain_last p s junk :
    (length s < payload)%nat ->
    data (m p) = s ++ replicate (payload - length s) x00 ++ junk ->
    next_block (m p) = 0 ->
    chain m [p] s p (length s)
| chain_full p q ps d junk s cur pos :
    length d = payload ->
    data (m p) = d ++ junk ->
    next_block (m p) = q ->
    chain m (q :: ps) s cur pos ->
    chain m (p :: q :: ps) (d ++ s) cur pos.

(** [sees m p pos t]: a reader at offset [pos] of the block [p] has the
    bytes [t] in front of it. *)
Inductive sees (m : IndexPointer -> LinkedBlock)
  : IndexPointer -> nat -> list byte -> Prop :=
| sees_last p before t after :
    data (m p) = before ++ t ++ after ->
    (length before + length t < payload)%nat ->
    sees m p (length before) t
| sees_full p before d junk t :
    data (m p) = before ++ d ++ junk ->
    (length before + length d = payload)%nat ->
    (0 < length d)%nat ->
    sees m (next_block (m p)) 0 t ->
    sees m p (length before) (d ++ t).

(** The first [n] blocks of the chain that starts at [p]. *)
Fixpoint chain_pointers (m : IndexPointer -> LinkedBlock) (p : IndexPointer) (n : nat)
  : list IndexPointer :=
  match n with
  | O => []
  | S n' => p :: chain_pointers m (next_block (m p)) n'
  end.

(** A block as [ClearCurrentBlock] leaves it. *)
Definition cleared (b : LinkedBlock) : Prop :=
  next_block b = 0 /\ take payload (data b) = replicate payload x00.

(** The allocator after one iteration of the writer's loop put the bytes [c]
    at offset [pos] of the block [cur] ... *)
Definition stored (a : FixedSizeAllocator) (cur : IndexPointer) (pos : nat)
    (c : list byte) : FixedSizeAllocator :=
  update_block a cur (fun block =>
    set_data (take pos (data block) ++ c ++ drop (pos + length c) (data block)) block).

(** ... and after a new block was linked behind [cur] and cleared. *)
Definition extended (a : FixedSizeAllocator) (cur : IndexPointer) : FixedSizeAllocator :=
  let '(p, a2) := New a in
  let a3 := update_block a2 cur (set_next_block p) in
  LinkedBlockWriter.ClearCurrentBlock a3 (LinkedBlockWriter.mk 0 p 0).

(** Every block holds [BLOCK_DATA_SIZE] bytes of payload, as
    [char data[BLOCK_DATA_SIZE]] does. *)
Definition sized (m : IndexPointer -> LinkedBlock) : Prop :=
  forall p, length (data (m p)) = payload.

(** The [n] bytes in front of a reader at offset [pos] of the block [p],
    byte by byte: those of the block up to the end of its payload, then
    those of the block its forward pointer names, whatever the pointer
    is ... *)
Fixpoint ahead (m : IndexPointer -> LinkedBlock) (n : nat) (p : IndexPointer)
    (pos : nat) : list byte :=
  match n with
  | O => []
  | S n' =>
    default x00 (data (m p) !! pos)
    :: (if decide (S pos = payload)
        then ahead m n' (next_block (m p)) 0
        else ahead m n' p (S pos))
  end.

(** ... and the block and the offset behind them. *)
Fixpoint behind (m : IndexPointer -> LinkedBlock) (n : nat) (p : IndexPointer)
    (pos : nat) : IndexPointer * nat :=
  match n with
  | O => (p, pos)
  | S n' =>
    if decide (S pos = payload)
    then behind m n' (next_block (m p)) 0
    else behind m n' p (S pos)
  end.

(** The dialogue of [load_from_stream] served from the blocks: every
    request is answered in full, with the bytes in front of the place the
    request before it left off at. *)
Fixpoint served {E : Type} (m : IndexPointer -> LinkedBlock) (l : Loader E)
    (p : IndexPointer) (pos : nat) : E :=
  match l with
  | LoadDone e => e
  | LoadRead size k =>
    served m (k true (ahead m (N.to_nat size) p pos))
           (behind m (N.to_nat size) p pos).1 (behind m (N.to_nat size) p pos).2
  end.
End Chains.

Section EngineFolds.
Context `{GraphEngine}.

(** What the rows of a batch do to the engine, insert after insert, up to
    the first failure: the result of the last insert tried, the engine, and
    the rows that went in. *)
Fixpoint engine_add_rows (e : Engine) (rows : list (row_t * list scalar))
    (thread_idx : idx_t) : result_t * Engine * list (row_t * list scalar) :=
  match rows with
  | [] => (Success, e, [])
  | (rowid, vector) :: rows' =>
    match e_add e rowid vector thread_idx with
    | (Success, e') =>
      let '(result, e'', done) := engine_add_rows e' rows' thread_idx in
      (result, e'', (rowid, vector) :: done)
    | (Failure what, e') => (Failure what, e', [])
    end
  end.

(** The engine after the removal of each identifier in turn. *)
Fixpoint engine_remove_rows (e : Engine) (row_id_data : list row_t) : Engine :=
  match row_id_data with
  | [] => e
  | rowid :: rest => engine_remove_rows (e_remove e rowid).2 rest
  end.

(** The engine Construct inserts into: reserved to the next power of two
    when the count after the batch exceeds the capacity. *)
Definition engine_grown (e : Engine) (size : idx_t) : Engine :=
  if e_capacity e <? size then e_reserve e (NextPowerOfTwo size) else e.

(** The rows [Construct] tries to insert: all up to the first failure, and
    the failing one. *)
Fixpoint rows_tried (e : Engine) (rows : list (Z * list scalar)) (t : N)
  : list (Z * list scalar) :=
  match rows with
  | [] => []
  | (k, v) :: rows' =>
    (k, v) :: match e_add e k v t with
              | (Success, e') => rows_tried e' rows' t
              | (Failure _, _) => []
              end
  end.
End EngineFolds.

Section Checkpoints.
Context `{HostStorage} `{GraphEngine}.
Import HNSWIndex.

(** How the loops of [Construct] and [Compact] end on an answer of the
    engine. *)
Definition add_outcome (r : result_t) : Outcome unit :=
  match r with
  | Success => Normal tt
  | Failure what => Raised (InternalException ("Failed to add to the HNSW index: " ++ what))
  end.

Definition compact_outcome (r : result_t) : Outcome unit :=
  match r with
  | Success => Normal tt
  | Failure what =>
    Raised (InternalException ("Failed to compact the HNSW index: " ++ what))
  end.

(** The root block the checkpoint writes to, and the allocator it is taken
    from. *)
Definition persist_root (s : t) : N * FixedSizeAllocator :=
  if root_block_ptr s =? 0 then New (linked_block_allocator s)
  else (root_block_ptr s, linked_block_allocator s).

(** [counted s]: nothing in the history of [s] lets the cached element count
    differ from the engine's.  The constructor, [Delete], a [Compact] that
    returned and [CommitDrop] set the cache from the engine, whatever it was
    before; a batch insert that returned, a scan and a checkpoint keep what
    they find.  A [Construct] or a [Compact] that threw is no step. *)
Inductive counted : t -> Prop :=
| counted_make constraint cfg info estimated_cardinality s :
    make constraint cfg info estimated_cardinality = (Normal tt, s) ->
    counted s
| counted_Construct s input thread_idx s' :
    counted s ->
    e_size (index s) + N.of_nat (length input) < IDX_MODULUS ->
    Construct input thread_idx s = (Normal tt, s') ->
    counted s'
| counted_Delete s row_ids s' :
    Delete row_ids s = (Normal tt, s') -> counted s'
| counted_Compact s s' :
    Compact s = (Normal tt, s') -> counted s'
| counted_CommitDrop s s' :
    CommitDrop s = (Normal tt, s') -> counted s'
| counted_InitializeScan s query limit :
    counted s -> counted (InitializeScan query limit s).2
| counted_PersistToDisk s :
    counted s -> counted (PersistToDisk s).2
| counted_GetStorageInfo s get_buffers :
    counted s -> counted (GetStorageInfo get_buffers s).2.

(** The engine's serialized state has a 64-bit size. *)
Definition stream_bounded (s : t) : Prop :=
  N.of_nat (length (concat (e_save (index s)))) < IDX_MODULUS.

(** [reachable cfg s]: the states of an index of the configuration [cfg].
    The index is made new, or from the descriptor that [GetStorageInfo]
    gave of such an index; then it goes through the operations of the
    class, however they end. *)
Inductive reachable (cfg : EngineConfig) : t -> Prop :=
| reachable_new estimated_cardinality s :
    make NONE cfg None estimated_cardinality = (Normal tt, s) ->
    reachable cfg s
| reachable_reload s0 get_buffers info s1 estimated_cardinality s :
    reachable cfg s0 ->
    stream_bounded s0 ->
    GetStorageInfo get_buffers s0 = (Normal info, s1) ->
    make NONE cfg (Some info) estimated_cardinality = (Normal tt, s) ->
    reachable cfg s
| reachable_Construct s input thread_idx :
    reachable cfg s -> reachable cfg (Construct input thread_idx s).2
| reachable_Delete s row_ids :
    reachable cfg s -> reachable cfg (Delete row_ids s).2
| reachable_Compact s :
    reachable cfg s -> reachable cfg (Compact s).2
| reachable_CommitDrop s :
    reachable cfg s -> reachable cfg (CommitDrop s).2
| reachable_InitializeScan s query limit :
    reachable cfg s -> reachable cfg (InitializeScan query limit s).2
| reachable_PersistToDisk s :
    reachable cfg s -> stream_bounded s -> reachable cfg (PersistToDisk s).2
| reachable_GetStorageInfo s get_buffers :
    reachable cfg s -> stream_bounded s ->
    reachable cfg (GetStorageInfo get_buffers s).2.
End Checkpoints.

Section Scans.
Context `{HostVector}.
Import HNSWIndex.

(** [n] calls of [Scan] in a row on the same scan state and result vector:
    the rows each call reports (the first [count] rows of the vector after
    the call), the scan state and the vector at the end. *)
Fixpoint Scan_calls (n : nat) (scan_state : HNSWIndexScanState) (result : list row_t)
  : option (list (list row_t) * HNSWIndexScanState * list row_t) :=
  match n with
  | O => Some ([], scan_state, result)
  | S n' =>
    match Scan scan_state result with
    | None => None
    | Some (count, scan_state', result') =>
      match Scan_calls n' scan_state' result' with
      | None => None
      | Some (chunks, scan_state'', result'') =>
        Some (take (N.to_nat count) result' :: chunks, scan_state'', result'')
      end
    end
  end.
End Scans.

(** The calls that change the structure of the engine. *)
Definition restructures (ev : Event) : bool :=
  match ev with
  | CallReserve _ | CallRemove _ | CallCompact | CallReset | CallLoad => true
  | _ => false
  end.

(** A log keeps the lock discipline when no lock is taken while one is held,
    a lock is released in the mode it was taken in, every call on the engine
    is made under a lock, a call that changes the structure of the engine
    under the exclusive one, and no lock is held at the end. *)
Fixpoint lock_discipline (held : option LockMode) (log : list Event) : bool :=
  match log with
  | [] => match held with None => true | Some _ => false end
  | Acquire m :: log' =>
    match held with
    | None => lock_discipline (Some m) log'
    | Some _ => false
    end
  | Release m :: log' =>
    match held, m with
    | Some SharedLock, SharedLock | Some ExclusiveLock, ExclusiveLock =>
      lock_discipline None log'
    | _, _ => false
    end
  | ev :: log' =>
    match held with
    | None => false
    | Some SharedLock => negb (restructures ev) && lock_discipline held log'
    | Some ExclusiveLock => lock_discipline held log'
    end
  end.

Section Disciplines.
Context `{GraphEngine}.

(** A member function keeps the lock discipline when what it adds to the
    log does, from every state and however it ends. *)
Definition keeps_lock_discipline {A : Type} (op : HNSWIndex.M A) : Prop :=
  forall s, exists events,
    HNSWIndex.log (op s).2 = HNSWIndex.log s ++ events
    /\ lock_discipline None events = true.
End Disciplines.

(** A dialogue of [load_from_stream] whose requests are of 64-bit sizes. *)
Inductive loader_bounded {E : Type} : Loader E -> Prop :=
| loader_bounded_done e : loader_bounded (LoadDone e)
| loader_bounded_read size k :
    size < IDX_MODULUS ->
    (forall ok buffer, loader_bounded (k ok buffer)) ->
    loader_bounded (LoadRead size k).

(** ** Reference instances *)

(** A small host and a brute-force engine: instances of the two interfaces
    on which the development can be run. *)
Module Reference.
(** Blocks with a payload of four bytes; [New] hands out stdpp's fresh
    element of the live set. *)
Definition host : HostStorage :=
  {| Storage_BLOCK_SIZE := 20;
     sizeof_validity_t := 8;
     sizeof_IndexPointer := 8;
     next_segment := fresh;
     raw_segment := fun _ => mkLinkedBlock 0 [x00; x00; x00; x00] |}.

(** The engine keeps its rows in insertion order and searches them
    exhaustively, nearest first in squared Euclidean distance. *)
Record BruteForce := mkBruteForce {
  rows : list (Z * list Z);
  room : N }.

Definition l2sq (a b : list Z) : Z :=
  foldr Z.add 0%Z (zip_with (fun x y => (x - y) * (x - y))%Z a b).

Definition closer (q : list Z) (r1 r2 : Z * list Z) : Prop :=
  (l2sq q r1.2 <= l2sq q r2.2)%Z.

#[local] Instance closer_dec q r1 r2 : Decision (closer q r1 r2) :=
  decide (l2sq q r1.2 <= l2sq q r2.2)%Z.

Definition keys (e : BruteForce) : list Z := (rows e).*1.

Definition add (e : BruteForce) (key : Z) (vector : list Z) (thread : N)
  : result_t * BruteForce :=
  match vector with
  | [] => (Failure "invalid vector", e)
  | _ :: _ =>
    if N.of_nat (length (rows e)) <? room e
    then (Success, mkBruteForce (rows e ++ [(key, vector)]) (room e))
    else (Failure "capacity exceeded", e)
  end.

Definition remove (e : BruteForce) (key : Z) : result_t * BruteForce :=
  if bool_decide (key ∈ keys e)
  then (Success, mkBruteForce (filter (fun r => r.1 ≠ key) (rows e)) (room e))
  else (Failure "key not found", e).

Definition search (e : BruteForce) (query : list Z) (limit : N) : list Z :=
  (take (N.to_nat limit) (merge_sort (closer query) (rows e))).*1.

(** One byte per number. *)
Definition cell (z : Z) : byte := default x00 (Byte.of_N (Z.to_N (z mod 256))).
Definition uncell (b : byte) : Z := Z.of_N (Byte.to_N b).

Definition save (e : BruteForce) : list (list byte) :=
  [cell (Z.of_nat (length (rows e)))]
  :: map (fun r => cell r.1 :: cell (Z.of_nat (length r.2)) :: map cell r.2) (rows e).

Fixpoint load_rows (n : nat) (acc : BruteForce) : Loader BruteForce :=
  match n with
  | O => LoadDone acc
  | S n' =>
    LoadRead 2 (fun ok head =>
      match ok, head with
      | true, [k; l] =>
        LoadRead (Z.to_N (uncell l)) (fun ok' cells =>
          if ok' : bool
          then load_rows n' (mkBruteForce (rows acc ++ [(uncell k, map uncell cells)])
                                          (N.succ (room acc)))
          else LoadDone acc)
      | _, _ => LoadDone acc
      end)
  end.

Definition load (e : BruteForce) : Loader BruteForce :=
  LoadRead 1 (fun ok head =>
    match ok, head with
    | true, [n] => load_rows (Z.to_nat (uncell n)) (mkBruteForce [] 0)
    | _, _ => LoadDone e
    end).

Definition engine : GraphEngine :=
  {| Engine := BruteForce;
     scalar := Z;
     EngineConfig := unit;
     e_make := fun _ => mkBruteForce [] 0;
     e_size := fun e => N.of_nat (length (rows e));
     e_capacity := room;
     e_reserve := fun e n => mkBruteForce (rows e) n;
     e_add := add;
     e_remove := remove;
     e_compact := fun e => (Success, e);
     e_reset := fun _ => mkBruteForce [] 0;
     e_search := search;
     e_keys := keys;
     e_save := save;
     e_load := load;
     e_any_thread := 18446744073709551615 |}.

(** An allocator with one segment handed out, and streams to write. *)
Definition sample_allocator : FixedSizeAllocator :=
  (@New host (@FixedSizeAllocator_make host)).2.
Definition sample_root : N := (@New host (@FixedSizeAllocator_make host)).1.
Definition sample_stream : list byte := [x01; x02; x03; x04; x05; x06; x07; x08; x09].
Definition sample_pieces : list (list byte) := [[x01; x02; x03]; [x04; x05; x06; x07; x08]].

(** A new index on the reference instances, batches to insert, and the
    states they lead to. *)
Definition new_index (estimated_cardinality : N) :=
  (@HNSWIndex.make host engine NONE tt None estimated_cardinality).2.

Definition sample_batch : list (Z * list Z) :=
  [(7, [1; 2]); (8, [3; 4]); (9, [3; 1])]%Z.

(** The second row has no vector: the engine refuses it. *)
Definition broken_batch : list (Z * list Z) :=
  [(7, [1; 2]); (8, []); (9, [3; 1])]%Z.

Definition filled_index := (@HNSWIndex.Construct engine sample_batch 0 (new_index 0)).2.






(** Vectors of two rows; option values that carry both conversions; the
    brute-force engine as an engine of the squared Euclidean metric. *)
Definition vector : HostVector := {| STANDARD_VECTOR_SIZE := 2 |}.

Definition values : HostValue :=
  {| Value := string * Z;
     GetValue_string := fst;
     GetValue_int32_t := snd |}.

Definition engine_metric : @GraphEngineMetric engine :=
  @Build_GraphEngineMetric engine (mkConfig 16 32 128 64 true)
    (fun _ _ => tt) (fun _ => metric_kind_t.l2sq_k).

Definition sample_options : list (string * (string * Z)) :=
  [("Metric", ("COSINE", 0)); ("m", ("", 8)); ("M0", ("", 24));
   ("comment", ("none", 0))]%string%Z.

(** The scan of the filled index for all of its rows, and a result vector. *)
Definition sample_scan :=
  match @HNSWIndex.InitializeScan engine [0; 0]%Z 10 filled_index with
  | (HNSWIndex.Normal scan_state, _) => scan_state
  | _ => HNSWIndex.mkScanState 0 0 []
  end.

Definition sample_result : list Z := [0; 0]%Z.

(** The filled index after a checkpoint, and after one more insert. *)
Definition persisted_index :=
  (@HNSWIndex.PersistToDisk host engine filled_index).2.

Definition refilled_index :=
  (@HNSWIndex.Construct engine [(10, [5; 5])]%Z 0 persisted_index).2.

(** The same after a second checkpoint and a third insert: a dirty index
    whose root block is not the first block of the allocator. *)
Definition grown_index :=
  (@HNSWIndex.Construct engine [(11, [6; 6])]%Z 0
     (@HNSWIndex.PersistToDisk host engine refilled_index).2).2.

(** A descriptor whose root block was never written. *)
Definition blank_blocks : FixedSizeAllocatorInfo :=
  mkAllocatorInfo [7] (fun _ => mkLinkedBlock 0 [x00; x00; x00; x00]).

Definition blank_info : IndexStorageInfo := mkStorageInfo 7 [blank_blocks] [].

(** A descriptor that no checkpoint wrote: every block holds the same four
    bytes and points to the block 7, the root block to itself. *)
Definition looped_blocks : FixedSizeAllocatorInfo :=
  mkAllocatorInfo [7] (fun _ => mkLinkedBlock 7 [x01; x09; x02; x05]).

Definition looped_info : IndexStorageInfo := mkStorageInfo 7 [looped_blocks] [].

(** The sample allocator after a stream of eight bytes was written from the
    sample root. *)
Definition used_allocator : FixedSizeAllocator :=
  match
    @LinkedBlockWriter.WriteData host
      (@LinkedBlockWriter.Reset host sample_allocator
         (LinkedBlockWriter.make sample_root)).1
      (@LinkedBlockWriter.Reset host sample_allocator
         (LinkedBlockWriter.make sample_root)).2
      [xff; xfe; xfd; xfc; xfb; xfa; xf9; xf8] 8
  with
  | Some (a, _) => a
  | None => sample_allocator
  end.
End Reference.

(** * Properties *)

Ltac Zify.zify_post_hook ::= Z.to_euclidean_division_equations.

(** ** 64-bit arithmetic *)

Lemma idx_sub_spec (a b : N) :
  a < IDX_MODULUS -> b < IDX_MODULUS ->
  (b <= a /\ idx_sub a b = a - b) \/ (a < b /\ idx_sub a b = a + IDX_MODULUS - b).
Proof. unfold idx_sub, IDX_MODULUS. lia. Qed.

Lemma idx_sub_small (a b : N) : b <= a -> a < IDX_MODULUS -> idx_sub a b = a - b.
Proof. unfold idx_sub, IDX_MODULUS. lia. Qed.

Lemma idx_add_small (a b : N) : a + b < IDX_MODULUS -> idx_add a b = a + b.
Proof. unfold idx_add, IDX_MODULUS. lia. Qed.

Lemma idx_add_bound (a b : N) : idx_add a b < IDX_MODULUS.
Proof. unfold idx_add, IDX_MODULUS. lia. Qed.

Lemma idx_sub_bound (a b : N) : idx_sub a b < IDX_MODULUS.
Proof. unfold idx_sub, IDX_MODULUS. lia. Qed.

(** ** Copies *)

Lemma memcpy_length dst doff src soff n : length (memcpy dst doff src soff n) = length dst.
Proof.
  unfold memcpy. cbv zeta. rewrite !length_app, !length_take, !length_drop. lia.
Qed.

(** A copy inside both arrays. *)
Lemma memcpy_in_bounds dst doff src soff n :
  (N.to_nat doff + N.to_nat n <= length dst)%nat ->
  (N.to_nat soff + N.to_nat n <= length src)%nat ->
  memcpy dst doff src soff n =
  take (N.to_nat doff) dst
  ++ take (N.to_nat n) (drop (N.to_nat soff) src)
  ++ drop (N.to_nat doff + N.to_nat n) dst.
Proof.
  intros Hdst Hsrc. unfold memcpy. cbv zeta.
  rewrite (take_ge (take _ _)) by (rewrite length_take, length_drop; lia).
  rewrite length_take, length_drop. do 3 f_equal. lia.
Qed.

Section BlockSize.
Context `{HostStorage} {Hok : HostStorageOk}.

Lemma BLOCK_DATA_SIZE_pos : 0 < BLOCK_DATA_SIZE.
Proof.
    pose proof static_assert_BLOCK_SIZE as Ha.
    pose proof (idx_sub_bound Storage_BLOCK_SIZE sizeof_validity_t) as Hb.
    fold BLOCK_SIZE in Hb. unfold BLOCK_DATA_SIZE.
    rewrite idx_sub_small; lia.
Qed.

Lemma BLOCK_DATA_SIZE_bound : BLOCK_DATA_SIZE < IDX_MODULUS.
Proof. apply idx_sub_bound. Qed.
End BlockSize.

(** ** The reader *)

Section ReaderTheory.
Context `{HostStorage} {Hok : HostStorageOk}.
Import LinkedBlockReader.

Lemma ReadData_loop_unfold fuel a r buffer length bytes_read :
  bytes_read < length ->
  ReadData_loop (S fuel) a r buffer length bytes_read =
    let block := Get a (current_pointer r) in
    let data_to_read :=
      N.min (idx_sub length bytes_read)
            (idx_sub BLOCK_DATA_SIZE (position_in_block r)) in
    let buffer' :=
      memcpy buffer bytes_read (data block) (position_in_block r) data_to_read in
    let bytes_read' := idx_add bytes_read data_to_read in
    let position' := idx_add (position_in_block r) data_to_read in
    if position' =? BLOCK_DATA_SIZE then
      ReadData_loop fuel a (mk (root_pointer r) (next_block block) 0)
                    buffer' length bytes_read'
    else
      ReadData_loop fuel a (mk (root_pointer r) (current_pointer r) position')
                    buffer' length bytes_read'.
Proof. intros Hlt. simpl. apply N.ltb_lt in Hlt. rewrite Hlt. reflexivity. Qed.

Lemma ReadData_loop_done fuel a r buffer length bytes_read :
  length <= bytes_read ->
  ReadData_loop fuel a r buffer length bytes_read = Some (bytes_read, r, buffer).
Proof.
  intros Hle. apply N.ltb_ge in Hle. destruct fuel; simpl; rewrite Hle; reflexivity.
Qed.

Lemma ReadData_loop_count fuel : forall a r buffer length bytes_read,
  length < IDX_MODULUS -> bytes_read <= length ->
  position_in_block r < IDX_MODULUS ->
  (N.to_nat (length - bytes_read)
   + (if (position_in_block r =? BLOCK_DATA_SIZE)%N then 1 else 0) < fuel)%nat ->
  exists r' buffer',
    ReadData_loop fuel a r buffer length bytes_read = Some (length, r', buffer').
Proof.
  pose proof BLOCK_DATA_SIZE_pos as Hpos.
  pose proof BLOCK_DATA_SIZE_bound as Hbound.
  induction fuel as [|fuel IH]; intros a r buffer len br Hlen Hbr Hp Hfuel; [lia|].
  destruct (N.lt_ge_cases br len) as [Hlt|Hge].
  - rewrite ReadData_loop_unfold by done. cbv zeta.
    destruct (idx_sub_spec len br) as [[_ ->]|[? _]]; [lia..| |lia].
    set (n := N.min _ _).
    assert (Hn : n <= len - br) by (unfold n; lia).
    assert (Hn0 : position_in_block r <> BLOCK_DATA_SIZE -> 0 < n).
    { intros Hq. unfold n.
      destruct (idx_sub_spec BLOCK_DATA_SIZE (position_in_block r)) as [[? ->]|[? ->]];
        unfold IDX_MODULUS in *; lia. }
    assert (Hn1 : position_in_block r = BLOCK_DATA_SIZE ->
                  idx_add (position_in_block r) n = BLOCK_DATA_SIZE).
    { intros Hq. unfold n. rewrite Hq.
      rewrite (idx_sub_small BLOCK_DATA_SIZE BLOCK_DATA_SIZE) by lia.
      rewrite N.sub_diag, N.min_0_r. rewrite idx_add_small; lia. }
    rewrite (idx_add_small br n) by lia.
    pose proof (idx_add_bound (position_in_block r) n) as Hp'.
    revert Hfuel.
    destruct (N.eqb_spec (position_in_block r) BLOCK_DATA_SIZE) as [Hq|Hq]; intros Hfuel.
    + rewrite (Hn1 Hq), N.eqb_refl. apply IH; cbn [position_in_block]; try lia.
      destruct (N.eqb_spec 0 BLOCK_DATA_SIZE); lia.
    + specialize (Hn0 Hq).
      destruct (N.eqb_spec (idx_add (position_in_block r) n) BLOCK_DATA_SIZE) as [He|Hne].
      * apply IH; cbn [position_in_block]; try lia.
        destruct (N.eqb_spec 0 BLOCK_DATA_SIZE); lia.
      * apply IH; cbn [position_in_block]; try lia.
        destruct (N.eqb_spec (idx_add (position_in_block r) n) BLOCK_DATA_SIZE); lia.
  - rewrite ReadData_loop_done by done.
    assert (br = len) as -> by lia. eauto.
Qed.


(** One iteration from a position inside the block, in terms of lengths. *)
Lemma ReadData_loop_step fuel a root p (pos : nat) buffer len br :
  (pos < payload)%nat -> br < len -> len < IDX_MODULUS ->
  (pos + Nat.min (N.to_nat (len - br)) (payload - pos)
   <= length (data (arena a p)))%nat ->
  (N.to_nat len <= length buffer)%nat ->
  let k := Nat.min (N.to_nat (len - br)) (payload - pos) in
  ReadData_loop (S fuel) a (mk root p (N.of_nat pos)) buffer len br =
  ReadData_loop fuel a
    (if decide (pos + k = payload)%nat
     then mk root (next_block (arena a p)) 0
     else mk root p (N.of_nat (pos + k)))
    (take (N.to_nat br) buffer ++ take k (drop pos (data (arena a p)))
       ++ drop (N.to_nat br + k) buffer)
    len (br + N.of_nat k).
Proof.
  pose proof BLOCK_DATA_SIZE_bound as Hbound.
  intros Hpos Hbr Hlen Hsrc Hdst k. unfold payload in *.
  rewrite ReadData_loop_unfold by done. cbv zeta.
  cbn [position_in_block current_pointer root_pointer].
  rewrite (idx_sub_small len br) by lia.
  rewrite (idx_sub_small BLOCK_DATA_SIZE (N.of_nat pos)) by lia.
  assert (Hk : N.min (len - br) (BLOCK_DATA_SIZE - N.of_nat pos) = N.of_nat k)
    by (unfold k; lia).
  rewrite Hk.
  rewrite (idx_add_small br) by lia.
  rewrite (idx_add_small (N.of_nat pos)) by (unfold IDX_MODULUS in *; lia).
  unfold Get. rewrite memcpy_in_bounds by lia. rewrite !Nat2N.id.
  destruct (N.eqb_spec (N.of_nat pos + N.of_nat k) BLOCK_DATA_SIZE) as [He|Hne];
    destruct (decide (pos + k = N.to_nat BLOCK_DATA_SIZE)%nat) as [Hd|Hd]; try lia.
  - reflexivity.
  - replace (N.of_nat pos + N.of_nat k) with (N.of_nat (pos + k)) by lia. reflexivity.
Qed.

Lemma sees_last_at m p pos before t after :
  data (m p) = before ++ t ++ after -> pos = length before ->
  (pos + length t < payload)%nat -> sees m p pos t.
Proof. intros ? -> ?. by econstructor. Qed.

Lemma sees_full_at m p pos before d junk t :
  data (m p) = before ++ d ++ junk -> pos = length before ->
  (pos + length d = payload)%nat -> (0 < length d)%nat ->
  sees m (next_block (m p)) 0 t -> sees m p pos (d ++ t).
Proof. intros ? -> ? ? ?. by econstructor. Qed.

Lemma ReadData_loop_sees a p pos t :
  sees (arena a) p pos t ->
  forall (n fuel : nat) root buffer len br,
    (n <= length t)%nat -> len = br + N.of_nat n -> len < IDX_MODULUS ->
    (N.to_nat len <= length buffer)%nat -> (n < fuel)%nat ->
    exists p' pos',
      ReadData_loop fuel a (mk root p (N.of_nat pos)) buffer len br
      = Some (len, mk root p' (N.of_nat pos'),
              take (N.to_nat br) buffer ++ take n t ++ drop (N.to_nat br + n) buffer)
      /\ sees (arena a) p' pos' (drop n t).
Proof.
  induction 1 as [p before t after Hdata Hfit|p before d junk t Hdata Hfull Hd Hnext IH];
    intros n fuel root buffer len br Hn -> Hlen Hbuf Hfuel.
  - destruct n as [|n].
    { rewrite ReadData_loop_done by lia. exists p, (length before). split.
      - repeat f_equal; [lia|]. rewrite take_0, Nat.add_0_r. simpl.
        by rewrite take_drop.
      - rewrite drop_0. by econstructor. }
    destruct fuel as [|fuel]; [lia|].
    assert (Hsrc : (length before
                    + Nat.min (N.to_nat (br + N.of_nat (S n) - br))
                              (payload - length before)
                    <= length (data (arena a p)))%nat).
    { rewrite Hdata, !length_app. rewrite ?length_app in Hn. lia. }
    rewrite ReadData_loop_step by first [exact Hsrc | lia]. cbv zeta.
    replace (N.to_nat (br + N.of_nat (S n) - br)) with (S n) by lia.
    rewrite Nat.min_l by lia.
    destruct (decide _) as [|_]; [lia|].
    rewrite ReadData_loop_done by lia.
    exists p, (length before + S n)%nat. split.
    + rewrite Hdata, drop_app_length, take_app_le by lia. reflexivity.
    + apply (sees_last_at _ p _ (before ++ take (S n) t) (drop (S n) t) after).
      * by rewrite <- (assoc_L (++)), (assoc_L (++) (take _ _)), take_drop.
      * rewrite length_app, length_take. lia.
      * rewrite length_drop. lia.
  - destruct n as [|n].
    { rewrite ReadData_loop_done by lia. exists p, (length before). split.
      - repeat f_equal; [lia|]. rewrite take_0, Nat.add_0_r. simpl.
        by rewrite take_drop.
      - rewrite drop_0. by econstructor. }
    destruct fuel as [|fuel]; [lia|].
    assert (Hsrc : (length before
                    + Nat.min (N.to_nat (br + N.of_nat (S n) - br))
                              (payload - length before)
                    <= length (data (arena a p)))%nat).
    { rewrite Hdata, !length_app. rewrite ?length_app in Hn. lia. }
    rewrite ReadData_loop_step by first [exact Hsrc | lia]. cbv zeta.
    replace (N.to_nat (br + N.of_nat (S n) - br)) with (S n) by lia.
    rewrite Hdata, drop_app_length.
    destruct (decide (S n < length d)%nat) as [Hlt|Hge].
    + rewrite Nat.min_l by lia.
      destruct (decide _) as [|_]; [lia|].
      rewrite ReadData_loop_done by lia.
      exists p, (length before + S n)%nat. split.
      * rewrite (take_app_le d t), (take_app_le d junk) by lia. reflexivity.
      * rewrite drop_app_le by lia.
        apply (sees_full_at _ p _ (before ++ take (S n) d) (drop (S n) d) junk t); try done.
        -- by rewrite <- (assoc_L (++)), (assoc_L (++) (take _ _)), take_drop.
        -- rewrite length_app, length_take. lia.
        -- rewrite length_drop. lia.
        -- rewrite length_drop. lia.
    + rewrite Nat.min_r by lia.
      destruct (decide _) as [_|]; [|lia].
      replace (payload - length before)%nat with (length d) by lia.
      rewrite (take_app_length d junk).
      destruct (IH (S n - length d)%nat fuel root
                  (take (N.to_nat br) buffer ++ d ++ drop (N.to_nat br + length d) buffer)
                  (br + N.of_nat (S n)) (br + N.of_nat (length d)))
        as (p' & pos' & Hrun & Hsees); try (rewrite ?length_app in Hn; lia).
      { rewrite !length_app, length_take, length_drop. lia. }
      exists p', pos'. split.
      * change (N.of_nat 0) with 0 in Hrun. rewrite Hrun. do 2 f_equal.
        replace (N.to_nat (br + N.of_nat (length d))) with (N.to_nat br + length d)%nat by lia.
        rewrite (take_app_ge d t) by lia.
        rewrite (assoc_L (++) _ d), take_app_length'
          by (rewrite length_app, length_take; lia).
        rewrite <- !(assoc_L (++)). do 3 f_equal.
        rewrite (assoc_L (++) _ d), drop_app_ge
          by (rewrite length_app, length_take; lia).
        rewrite length_app, length_take, drop_drop. f_equal. lia.
      * by rewrite drop_app_ge by lia.
Qed.

End ReaderTheory.

(** ** The writer *)

Set Warnings "-clear-no-such-hyp".

Section WriterTheory.
Context `{HostStorage} {Hok : HostStorageOk}.
Import LinkedBlockWriter.

Lemma payload_pos : (0 < payload)%nat.
Proof. pose proof BLOCK_DATA_SIZE_pos. unfold payload. lia. Qed.

Lemma chain_last_at m p s junk cur pos :
  (length s < payload)%nat ->
  data (m p) = s ++ replicate (payload - length s) x00 ++ junk ->
  next_block (m p) = 0 -> cur = p -> pos = length s ->
  chain m [p] s cur pos.
Proof. intros ? ? ? -> ->. by econstructor. Qed.

Lemma chain_shape m ps s cur pos :
  chain m ps s cur pos ->
  last ps = Some cur /\ (pos < payload)%nat
  /\ length s = ((length ps - 1) * payload + pos)%nat
  /\ head ps <> None.
Proof.
  induction 1 as [p s junk Hs Hd Hn|p q ps d junk s cur pos Hd Hdata Hn Hc IH].
  - simpl. repeat split; try done; lia.
  - destruct IH as (Hl & Hp & Hlen & _). repeat split; try done.
    rewrite length_app, Hlen, Hd. simpl. lia.
Qed.

Lemma chain_cur_in m ps s cur pos : chain m ps s cur pos -> cur ∈ ps.
Proof.
  intros Hc. apply chain_shape in Hc as (Hl & _).
  apply last_Some in Hl as [l' ->]. set_solver.
Qed.

(** The last block of a chain holds a full payload. *)
Lemma chain_cur_sized m ps s cur pos :
  chain m ps s cur pos -> (payload <= length (data (m cur)))%nat.
Proof.
  induction 1 as [p s junk Hs Hd Hn|p q ps d junk s cur pos Hd Hdata Hn Hc IH]; [|done].
  rewrite Hd, !length_app, length_replicate. lia.
Qed.

Lemma chain_frame m m' ps s cur pos :
  chain m ps s cur pos -> (forall q, q ∈ ps -> m' q = m q) -> chain m' ps s cur pos.
Proof.
  induction 1 as [p s junk Hs Hd Hn|p q ps d junk s cur pos Hd Hdata Hn Hc IH]; intros Hm.
  - eapply chain_last_at; rewrite ?Hm by set_solver; eauto.
  - eapply chain_full; [done| | |].
    + rewrite Hm; [done|set_solver].
    + rewrite Hm; [done|set_solver].
    + apply IH. intros; apply Hm; set_solver.
Qed.

(** Bytes written behind the stream without filling the block. *)
Lemma chain_append_partial m m' ps s cur pos c :
  chain m ps s cur pos -> NoDup ps ->
  (forall q, q ∈ ps -> q <> cur -> m' q = m q) ->
  data (m' cur) = take pos (data (m cur)) ++ c ++ drop (pos + length c) (data (m cur)) ->
  next_block (m' cur) = next_block (m cur) ->
  (pos + length c < payload)%nat ->
  chain m' ps (s ++ c) cur (pos + length c).
Proof.
  induction 1 as [p s junk Hs Hd Hn|p q ps d junk s cur pos Hd Hdata Hn Hc IH];
    intros Hnd Hm Hdata' Hnext' Hfit.
  - eapply (chain_last_at _ _ _ junk); rewrite ?length_app; try done; [|congruence].
    rewrite Hdata', Hd.
    rewrite take_app_length, <- (assoc_L (++) s c). f_equal. f_equal.
    rewrite drop_app_ge by lia.
    rewrite drop_app_le by (rewrite length_replicate; lia).
    rewrite drop_replicate. f_equal. f_equal. lia.
  - pose proof (chain_cur_in _ _ _ _ _ Hc) as Hin.
    apply NoDup_cons in Hnd as [Hp Hnd].
    assert (p <> cur) by (intros ->; done).
    rewrite <- (assoc_L (++)).
    eapply chain_full; [done| | |].
    + rewrite Hm; [done|set_solver|done].
    + rewrite Hm; [done|set_solver|done].
    + apply IH; try done. intros; apply Hm; [set_solver|done].
Qed.

(** Bytes that fill the block, and the cleared block linked behind it. *)
Lemma chain_append_full m m' ps s cur pos c p :
  chain m ps s cur pos -> NoDup ps -> p ∉ ps ->
  (forall q, q ∈ ps -> q <> cur -> m' q = m q) ->
  data (m' cur) = take pos (data (m cur)) ++ c ++ drop (pos + length c) (data (m cur)) ->
  next_block (m' cur) = p ->
  cleared (m' p) ->
  (pos + length c = payload)%nat ->
  chain m' (ps ++ [p]) (s ++ c) p 0.
Proof.
  pose proof payload_pos as Hpay.
  induction 1 as [p0 s junk Hs Hd Hn|p0 q ps d junk s cur pos Hd Hdata Hn Hc IH];
    intros Hnd Hp Hm Hdata' Hnext' [Hcl1 Hcl2] Hfit.
  - simpl. rewrite <- (app_nil_r (s ++ c)).
    eapply (chain_full _ _ _ _ _ junk); try done.
    + rewrite length_app. lia.
    + rewrite Hdata', Hd. rewrite take_app_length, <- (assoc_L (++) s c). f_equal. f_equal.
      rewrite drop_app_ge by lia.
      rewrite drop_app_ge by (rewrite length_replicate; lia).
      rewrite length_replicate. replace (_ - _ - _)%nat with 0%nat by lia. done.
    + eapply (chain_last_at _ _ _ (drop payload (data (m' p)))); try done.
      simpl. rewrite Nat.sub_0_r, <- Hcl2. by rewrite take_drop.
  - pose proof (chain_cur_in _ _ _ _ _ Hc) as Hin.
    apply NoDup_cons in Hnd as [Hp0 Hnd].
    assert (p0 <> cur) by (intros ->; done).
    rewrite <- (assoc_L (++)). simpl.
    eapply chain_full; [done| | |].
    + rewrite Hm; [done|set_solver|done].
    + rewrite Hm; [done|set_solver|done].
    + apply IH; try done; [set_solver|]. intros; apply Hm; [set_solver|done].
Qed.

Lemma chain_sees m ps s cur pos :
  chain m ps s cur pos -> exists p, head ps = Some p /\ sees m p 0 s.
Proof.
  induction 1 as [p s junk Hs Hd Hn|p q ps d junk s cur pos Hd Hdata Hn Hc IH].
  - exists p. split; [done|].
    eapply (sees_last_at _ _ _ []); simpl; done.
  - destruct IH as (q' & Hq & Hsees). simpl in Hq. injection Hq as <-.
    exists p. split; [done|].
    eapply (sees_full_at _ _ _ [] d junk); simpl; try done; try lia.
    + pose proof payload_pos. lia.
    + by rewrite Hn.
Qed.


Lemma WriteData_loop_done fuel a w buffer length bytes_written :
  length <= bytes_written ->
  WriteData_loop fuel a w buffer length bytes_written = Some (a, w).
Proof.
  intros Hle. apply N.ltb_ge in Hle. destruct fuel; simpl; rewrite Hle; reflexivity.
Qed.

Lemma WriteData_loop_unfold fuel a w buffer length bytes_written :
  bytes_written < length ->
  WriteData_loop (S fuel) a w buffer length bytes_written =
    let block_ptr := current_pointer w in
    let data_to_write :=
      N.min (idx_sub length bytes_written)
            (idx_sub BLOCK_DATA_SIZE (position_in_block w)) in
    let a1 :=
      update_block a block_ptr (fun block =>
        set_data (memcpy (data block) (position_in_block w)
                         buffer bytes_written data_to_write) block) in
    let bytes_written' := idx_add bytes_written data_to_write in
    let position' := idx_add (position_in_block w) data_to_write in
    if position' =? BLOCK_DATA_SIZE then
      let '(p, a2) := New a1 in
      let a3 := update_block a2 block_ptr (set_next_block p) in
      let w' := mk (root_pointer w) (next_block (Get a3 block_ptr)) 0 in
      WriteData_loop fuel (ClearCurrentBlock a3 w') w' buffer length bytes_written'
    else
      WriteData_loop fuel a1 (mk (root_pointer w) (current_pointer w) position')
                     buffer length bytes_written'.
Proof. intros Hlt. simpl. apply N.ltb_lt in Hlt. rewrite Hlt. reflexivity. Qed.

Lemma ClearCurrentBlock_root a root root' cur pos pos' :
  ClearCurrentBlock a (mk root cur pos) = ClearCurrentBlock a (mk root' cur pos').
Proof. reflexivity. Qed.

(** One iteration from a position inside the block, in terms of lengths. *)
Lemma WriteData_loop_step fuel a root cur (pos : nat) buffer len bw :
  (pos < payload)%nat -> bw < len -> len <= N.of_nat (length buffer) ->
  len < IDX_MODULUS ->
  (payload <= length (data (arena a cur)))%nat ->
  let k := Nat.min (N.to_nat (len - bw)) (payload - pos) in
  let c := take k (drop (N.to_nat bw) buffer) in
  length c = k /\
  WriteData_loop (S fuel) a (mk root cur (N.of_nat pos)) buffer len bw =
  if decide (pos + k = payload)%nat
  then WriteData_loop fuel (extended (stored a cur pos c) cur)
         (mk root (next_segment (live a)) 0) buffer len (bw + N.of_nat k)
  else WriteData_loop fuel (stored a cur pos c)
         (mk root cur (N.of_nat (pos + k))) buffer len (bw + N.of_nat k).
Proof.
  pose proof BLOCK_DATA_SIZE_bound as Hbound.
  intros Hpos Hbw Hbuf Hlen Hdst k c. unfold payload in *.
  assert (Hc : length c = k).
  { unfold c. rewrite length_take, length_drop. lia. }
  split; [done|].
  rewrite WriteData_loop_unfold by done. cbv zeta.
  cbn [position_in_block current_pointer root_pointer].
  rewrite (idx_sub_small len bw) by lia.
  rewrite (idx_sub_small BLOCK_DATA_SIZE (N.of_nat pos)) by lia.
  assert (Hk : N.min (len - bw) (BLOCK_DATA_SIZE - N.of_nat pos) = N.of_nat k)
    by (unfold k; lia).
  rewrite Hk.
  rewrite (idx_add_small bw) by lia.
  rewrite (idx_add_small (N.of_nat pos)) by (unfold IDX_MODULUS in *; lia).
  assert (Hst : update_block a cur (fun block =>
            set_data (memcpy (data block) (N.of_nat pos) buffer bw (N.of_nat k)) block)
          = stored a cur pos c).
  { unfold stored, update_block. rewrite memcpy_in_bounds by lia.
    rewrite !Nat2N.id, Hc. reflexivity. }
  rewrite Hst.
  destruct (N.eqb_spec (N.of_nat pos + N.of_nat k) BLOCK_DATA_SIZE) as [He|Hne];
    destruct (decide (pos + k = N.to_nat BLOCK_DATA_SIZE)%nat) as [Hd|Hd]; try lia.
  - unfold extended, New, Get.
    replace (next_block (arena (update_block _ cur _) cur))
      with (next_segment (live (stored a cur pos c)))
      by (unfold update_block; cbn [arena]; by rewrite fn_lookup_insert).
    reflexivity.
  - replace (N.of_nat pos + N.of_nat k) with (N.of_nat (pos + k)) by lia. reflexivity.
Qed.

Lemma stored_arena a cur pos c q :
  arena (stored a cur pos c) q =
  if decide (q = cur)
  then set_data (take pos (data (arena a cur)) ++ c
                 ++ drop (pos + length c) (data (arena a cur))) (arena a cur)
  else arena a q.
Proof.
  unfold stored, update_block. cbn [arena].
  destruct (decide (q = cur)) as [->|Hne].
  - by rewrite fn_lookup_insert.
  - by rewrite fn_lookup_insert_ne.
Qed.

Lemma stored_live a cur pos c : live (stored a cur pos c) = live a.
Proof. reflexivity. Qed.

Lemma extended_live a cur : live (extended a cur) = {[next_segment (live a)]} ∪ live a.
Proof. reflexivity. Qed.

Lemma ClearCurrentBlock_arena a w q :
  arena (LinkedBlockWriter.ClearCurrentBlock a w) q =
  if decide (q = current_pointer w)
  then mkLinkedBlock 0 (replicate payload x00 ++ drop payload (data (arena a q)))
  else arena a q.
Proof.
  unfold ClearCurrentBlock, update_block, memset. cbn [arena].
  destruct (decide (q = current_pointer w)) as [->|Hne].
  - rewrite !fn_lookup_insert. reflexivity.
  - by rewrite !fn_lookup_insert_ne.
Qed.

Lemma ClearCurrentBlock_live a w : live (ClearCurrentBlock a w) = live a.
Proof. reflexivity. Qed.

Lemma ClearCurrentBlock_cleared a w :
  cleared (arena (ClearCurrentBlock a w) (current_pointer w)).
Proof.
  rewrite ClearCurrentBlock_arena. rewrite decide_True by done.
  split; [done|]. simpl. by rewrite take_app_length' by by rewrite length_replicate.
Qed.

Lemma extended_arena a cur q :
  let p := next_segment (live a) in
  arena (extended a cur) q =
  if decide (q = p)
  then mkLinkedBlock 0 (replicate payload x00
         ++ drop payload (data (if decide (p = cur) then set_next_block p (arena a cur)
                                else arena a p)))
  else if decide (q = cur) then set_next_block p (arena a cur)
  else arena a q.
Proof.
  intros p. unfold extended, New. fold p.
  rewrite ClearCurrentBlock_arena. cbn [current_pointer update_block arena].
  destruct (decide (q = p)) as [->|Hqp].
  - destruct (decide (p = cur)) as [->|Hpc].
    + by rewrite fn_lookup_insert.
    + by rewrite fn_lookup_insert_ne.
  - destruct (decide (q = cur)) as [->|Hqc].
    + by rewrite fn_lookup_insert.
    + by rewrite fn_lookup_insert_ne.
Qed.

(** The loop appends what is left of the buffer to the chain. *)
Lemma WriteData_loop_chain fuel : forall a root cur pos ps s buffer len bw,
  chain (arena a) ps s cur pos -> NoDup ps -> (forall q, q ∈ ps -> q ∈ live a) ->
  len = N.of_nat (length buffer) -> len < IDX_MODULUS -> bw <= len ->
  (N.to_nat (len - bw) < fuel)%nat ->
  exists a' cur' pos' new,
    WriteData_loop fuel a (mk root cur (N.of_nat pos)) buffer len bw
    = Some (a', mk root cur' (N.of_nat pos'))
    /\ chain (arena a') (ps ++ new) (s ++ drop (N.to_nat bw) buffer) cur' pos'
    /\ NoDup (ps ++ new)
    /\ live a' = list_to_set new ∪ live a
    /\ (forall q, q ∈ new -> q ∉ live a).
Proof.
  induction fuel as [|fuel IH];
    intros a root cur pos ps s buffer len bw Hchain Hnd Hlive Hlen Hidx Hbw Hfuel; [lia|].
  destruct (N.lt_ge_cases bw len) as [Hlt|Hge].
  - pose proof (chain_shape _ _ _ _ _ Hchain) as (_ & Hpos & _).
    destruct (WriteData_loop_step fuel a root cur pos buffer len bw) as [Hc ->];
      try lia; [by eapply chain_cur_sized|].
    set (k := Nat.min _ _) in *. set (c := take k _) in *.
    assert (Hrest : drop (N.to_nat bw) buffer = c ++ drop (N.to_nat (bw + N.of_nat k)) buffer).
    { unfold c. replace (N.to_nat (bw + N.of_nat k)) with (N.to_nat bw + k)%nat by lia.
      by rewrite <- drop_drop, take_drop. }
    assert (Hk : (0 < k)%nat) by (unfold k; lia).
    destruct (decide (pos + k = payload)%nat) as [Hfull|Hpart].
    + set (p := next_segment (live a)).
      assert (Hp : p ∉ ps).
      { intros Hin. apply Hlive in Hin. by apply next_segment_fresh in Hin. }
      pose proof (chain_cur_in _ _ _ _ _ Hchain) as Hcur.
      assert (Hpc : p <> cur) by (intros ->; done).
      destruct (IH (extended (stored a cur pos c) cur) root p 0%nat (ps ++ [p]) (s ++ c)
                  buffer len (bw + N.of_nat k)) as (a' & cur' & pos' & new & Hrun & Hch & Hnd' & Hlv & Hnew);
        try lia.
      * eapply (chain_append_full (arena a)); try done.
        -- intros q Hq Hqc. rewrite extended_arena. cbn zeta. rewrite stored_live. fold p.
           rewrite decide_False by (intros ->; done). rewrite decide_False by done.
           rewrite stored_arena. by rewrite decide_False.
        -- rewrite extended_arena. cbn zeta. rewrite stored_live. fold p.
           rewrite decide_False by done. rewrite decide_True by done.
           rewrite stored_arena, decide_True by done. simpl. by rewrite Hc.
        -- rewrite extended_arena. cbn zeta. rewrite stored_live. fold p.
           rewrite decide_False by done. rewrite decide_True by done. done.
        -- unfold extended, New. rewrite stored_live. fold p.
           apply (ClearCurrentBlock_cleared _ (mk 0 p 0)).
        -- lia.
      * apply NoDup_app. split; [done|]. split; [|apply NoDup_singleton].
        intros q Hq ->%list_elem_of_singleton. done.
      * intros q [Hq| ->%list_elem_of_singleton]%elem_of_app.
        -- rewrite extended_live, stored_live. set_solver.
        -- rewrite extended_live, stored_live. set_solver.
      * exists a', cur', pos', (p :: new). split; [exact Hrun|].
        rewrite <- (assoc_L (++)) in Hch, Hnd'. simpl in Hch, Hnd'.
        rewrite <- (assoc_L (++)) in Hch. rewrite <- Hrest in Hch.
        split; [done|]. split; [done|]. split.
        -- rewrite Hlv, extended_live, stored_live. fold p. set_solver.
        -- intros q [->|Hq]%elem_of_cons; [apply next_segment_fresh|].
           apply Hnew in Hq. rewrite extended_live, stored_live in Hq. set_solver.
    + destruct (IH (stored a cur pos c) root cur (pos + k)%nat ps (s ++ c)
                  buffer len (bw + N.of_nat k)) as (a' & cur' & pos' & new & Hrun & Hch & Hnd' & Hlv & Hnew);
        try lia; try done.
      * rewrite <- Hc. eapply (chain_append_partial (arena a)); try done.
        -- intros q Hq Hqc. rewrite stored_arena. by rewrite decide_False.
        -- rewrite stored_arena, decide_True by done. done.
        -- rewrite stored_arena, decide_True by done. done.
        -- lia.
      * exists a', cur', pos', new. split; [exact Hrun|].
        rewrite <- (assoc_L (++)), <- Hrest in Hch. done.
  - rewrite WriteData_loop_done by done.
    exists a, cur, pos, []. rewrite !app_nil_r, drop_ge, app_nil_r by lia.
    repeat split; try done; set_solver.
Qed.


Lemma Reset_chain a root :
  chain (arena (Reset a (make root)).1) [root] [] root 0.
Proof.
  pose proof payload_pos.
  unfold Reset, make. cbn [fst root_pointer].
  eapply (chain_last_at _ _ _ (drop payload (data (arena a root)))); try done.
  - rewrite ClearCurrentBlock_arena, decide_True by done. simpl. by rewrite Nat.sub_0_r.
  - by rewrite ClearCurrentBlock_arena, decide_True by done.
Qed.

Lemma WriteData_chain a root cur pos ps s buffer :
  chain (arena a) ps s cur pos -> NoDup ps -> (forall q, q ∈ ps -> q ∈ live a) ->
  N.of_nat (length buffer) < IDX_MODULUS ->
  exists a' cur' pos' new,
    WriteData a (mk root cur (N.of_nat pos)) buffer (N.of_nat (length buffer))
    = Some (a', mk root cur' (N.of_nat pos'))
    /\ chain (arena a') (ps ++ new) (s ++ buffer) cur' pos'
    /\ NoDup (ps ++ new)
    /\ live a' = list_to_set new ∪ live a
    /\ (forall q, q ∈ new -> q ∉ live a).
Proof.
  intros Hc Hnd Hlive Hlen.
  destruct (WriteData_loop_chain (LinkedBlockReader.loop_fuel (N.of_nat (length buffer)))
              a root cur pos ps s buffer (N.of_nat (length buffer)) 0)
    as (a' & cur' & pos' & new & Hrun & Hch & Hrest); try done; try lia.
  { unfold LinkedBlockReader.loop_fuel. lia. }
  exists a', cur', pos', new. split; [exact Hrun|]. by rewrite drop_0 in Hch.
Qed.

(** The pieces the engine hands to [save_callback] go to the chain one
    behind the other. *)
Lemma save_to_stream_chain pieces : forall a root cur pos ps s,
  chain (arena a) ps s cur pos -> NoDup ps -> (forall q, q ∈ ps -> q ∈ live a) ->
  (forall piece, piece ∈ pieces -> N.of_nat (length piece) < IDX_MODULUS) ->
  exists a' cur' pos' new,
    save_to_stream pieces HNSWIndex.save_callback (a, mk root cur (N.of_nat pos))
    = Some (Success, (a', mk root cur' (N.of_nat pos')))
    /\ chain (arena a') (ps ++ new) (s ++ concat pieces) cur' pos'
    /\ NoDup (ps ++ new)
    /\ live a' = list_to_set new ∪ live a
    /\ (forall q, q ∈ new -> q ∉ live a).
Proof.
  induction pieces as [|piece pieces IH]; intros a root cur pos ps s Hc Hnd Hlive Hlen.
  - exists a, cur, pos, []. simpl. rewrite !app_nil_r.
    repeat split; try done; set_solver.
  - destruct (WriteData_chain a root cur pos ps s piece)
      as (a1 & cur1 & pos1 & new1 & Hrun1 & Hc1 & Hnd1 & Hlv1 & Hnew1); try done.
    { apply Hlen. set_solver. }
    destruct (IH a1 root cur1 pos1 (ps ++ new1) (s ++ piece))
      as (a2 & cur2 & pos2 & new2 & Hrun2 & Hc2 & Hnd2 & Hlv2 & Hnew2); try done.
    { intros q [Hq|Hq]%elem_of_app; rewrite Hlv1; set_solver. }
    { intros; apply Hlen; set_solver. }
    exists a2, cur2, pos2, (new1 ++ new2).
    cbn [save_to_stream]. unfold HNSWIndex.save_callback at 1. cbn [fst snd].
    rewrite Hrun1. cbn [concat].
    rewrite !(assoc_L (++)). repeat split; try done.
    + rewrite Hlv2, Hlv1. set_solver.
    + intros q [Hq|Hq]%elem_of_app; [by apply Hnew1|].
      apply Hnew2 in Hq. rewrite Hlv1 in Hq. set_solver.
Qed.

Lemma chain_pointers_chain m ps s cur pos :
  chain m ps s cur pos ->
  forall p, head ps = Some p -> chain_pointers m p (length ps) = ps.
Proof.
  induction 1 as [p s junk Hs Hd Hn|p q ps d junk s cur pos Hd Hdata Hn Hc IH];
    intros p' [= <-]; simpl.
  - done.
  - f_equal. rewrite Hn. by apply IH.
Qed.

End WriterTheory.

(** ** Blocks of the right size *)

(** The writer leaves every block at its size. *)

Section SizedTheory.
Context `{HostStorage}.
Import LinkedBlockWriter.

Lemma update_block_sized a p f :
  sized (arena a) ->
  (forall b, length (data b) = payload -> length (data (f b)) = payload) ->
  sized (arena (update_block a p f)).
Proof.
  intros Ha Hf q. unfold update_block. cbn [arena].
  destruct (decide (q = p)) as [->|Hne].
  - rewrite fn_lookup_insert. by apply Hf.
  - by rewrite fn_lookup_insert_ne.
Qed.

Lemma ClearCurrentBlock_sized a w :
  sized (arena a) -> sized (arena (ClearCurrentBlock a w)).
Proof.
  intros Ha. unfold ClearCurrentBlock. apply update_block_sized.
  - by apply update_block_sized.
  - intros b Hb. cbn. unfold memset.
    rewrite length_app, length_replicate, length_drop, Hb. unfold payload. lia.
Qed.

Lemma WriteData_loop_sized fuel : forall a w buffer len bw a' w',
  sized (arena a) ->
  WriteData_loop fuel a w buffer len bw = Some (a', w') -> sized (arena a').
Proof.
  induction fuel as [|fuel IH]; intros a w buffer len bw a' w' Ha Hrun.
  - cbn in Hrun. destruct (bw <? len); [done|]. by injection Hrun as <- _.
  - destruct (N.lt_ge_cases bw len) as [Hlt|Hge].
    + rewrite WriteData_loop_unfold in Hrun by done. cbv zeta in Hrun.
      assert (Ha1 : sized (arena (update_block a (current_pointer w) (fun block =>
                 set_data (memcpy (data block) (position_in_block w) buffer bw
                   (N.min (idx_sub len bw)
                      (idx_sub BLOCK_DATA_SIZE (position_in_block w)))) block)))).
      { apply update_block_sized; [done|]. intros b Hb. cbn.
        by rewrite memcpy_length. }
      destruct (_ =? _).
      * unfold New in Hrun. eapply IH; [|exact Hrun].
        apply ClearCurrentBlock_sized. by apply update_block_sized.
      * by eapply IH.
    + rewrite WriteData_loop_done in Hrun by done. by injection Hrun as <- _.
Qed.

Lemma save_to_stream_sized pieces : forall st r st',
  sized (arena st.1) ->
  save_to_stream pieces HNSWIndex.save_callback st = Some (r, st') ->
  sized (arena st'.1).
Proof.
  induction pieces as [|piece pieces IH]; intros st r st' Hst Hrun.
  - cbn in Hrun. by injection Hrun as _ <-.
  - cbn [save_to_stream] in Hrun. unfold HNSWIndex.save_callback at 1 in Hrun.
    destruct (WriteData st.1 st.2 piece _) as [[a1 w1]|] eqn:Hw; [|done].
    eapply IH; [|exact Hrun]. cbn. by eapply WriteData_loop_sized.
Qed.
End SizedTheory.

(** ** What a reader has in front of it *)

Section AheadTheory.
Context `{HostStorage} {Hok : HostStorageOk}.
Import LinkedBlockReader.

Lemma ahead_length m n : forall p pos, length (ahead m n p pos) = n.
Proof.
  induction n as [|n IH]; intros p pos; [done|]. cbn [ahead length].
  destruct (decide _); by rewrite IH.
Qed.

(** The bytes in front of a reader, block by block. *)
Lemma ahead_block m (k : nat) : forall n p pos,
  sized m -> (pos < payload)%nat -> (k <= n)%nat -> (pos + k <= payload)%nat ->
  ahead m n p pos
  = take k (drop pos (data (m p)))
    ++ (if decide (pos + k = payload)%nat
        then ahead m (n - k) (next_block (m p)) 0
        else ahead m (n - k) p (pos + k))
  /\ behind m n p pos
     = (if decide (pos + k = payload)%nat
        then behind m (n - k) (next_block (m p)) 0
        else behind m (n - k) p (pos + k)).
Proof.
  induction k as [|k IH]; intros n p pos Hm Hpos Hk Hfit.
  - rewrite take_0, Nat.sub_0_r, Nat.add_0_r.
    destruct (decide _) as [|_]; [lia|]. done.
  - destruct n as [|n]; [lia|]. cbn [ahead behind].
    destruct (lookup_lt_is_Some_2 (data (m p)) pos) as [x Hx]; [rewrite Hm; lia|].
    rewrite Hx. cbn [default]. rewrite (drop_S _ _ _ Hx). cbn [take app].
    replace (S n - S k)%nat with (n - k)%nat by lia.
    destruct (decide (S pos = payload)) as [He|Hne].
    + assert (k = 0%nat) as -> by lia. rewrite take_0, Nat.sub_0_r.
      destruct (decide _) as [_|]; [|lia]. done.
    + destruct (IH n p (S pos)) as [-> ->]; try done; try lia.
      replace (S pos + k)%nat with (pos + S k)%nat by lia. done.
Qed.

Lemma ReadData_loop_ahead a (Ha : sized (arena a)) (n : nat) :
  forall (fuel : nat) root p pos buffer len br,
    (pos < payload)%nat -> len = br + N.of_nat n -> len < IDX_MODULUS ->
    (N.to_nat len <= length buffer)%nat -> (n < fuel)%nat ->
    ReadData_loop fuel a (mk root p (N.of_nat pos)) buffer len br
    = Some (len,
            mk root (behind (arena a) n p pos).1 (N.of_nat (behind (arena a) n p pos).2),
            take (N.to_nat br) buffer ++ ahead (arena a) n p pos
              ++ drop (N.to_nat br + n) buffer)
    /\ ((behind (arena a) n p pos).2 < payload)%nat.
Proof.
  induction n as [n IH] using lt_wf_ind.
  intros fuel root p pos buffer len br Hpos -> Hlen Hbuf Hfuel.
  destruct n as [|n].
  { rewrite ReadData_loop_done by lia. cbn [ahead behind fst snd app].
    rewrite Nat.add_0_r, take_drop. split; [|done]. repeat f_equal. lia. }
  destruct fuel as [|fuel]; [lia|].
  rewrite ReadData_loop_step; try done; try lia; [|rewrite Ha; lia].
  cbv zeta.
  replace (N.to_nat (br + N.of_nat (S n) - br)) with (S n) by lia.
  set (k := Nat.min (S n) (payload - pos)).
  destruct (ahead_block (arena a) k (S n) p pos) as [Hah Hbe];
    try done; try (unfold k; lia).
  rewrite Hah, Hbe.
  destruct (decide (pos + k = payload)%nat) as [He|Hne].
  - destruct (IH (S n - k)%nat ltac:(unfold k; lia) fuel root (next_block (arena a p)) 0%nat
                (take (N.to_nat br) buffer ++ take k (drop pos (data (arena a p)))
                   ++ drop (N.to_nat br + k) buffer)
                (br + N.of_nat (S n)) (br + N.of_nat k)) as [Hrun Hlt];
      try lia.
    all: try (pose proof payload_pos; unfold k; lia).
    { rewrite !length_app, !length_take, !length_drop. rewrite Ha. unfold k. lia. }
    split; [|done]. change (N.of_nat 0) with 0 in Hrun. rewrite Hrun. do 2 f_equal.
    assert (Hk : length (take k (drop pos (data (arena a p)))) = k).
    { rewrite length_take, length_drop, Ha. unfold k. lia. }
    replace (N.to_nat (br + N.of_nat k)) with (N.to_nat br + k)%nat by lia.
    rewrite (assoc_L (++) (take _ buffer)), take_app_length'
      by (rewrite length_app, length_take, Hk; lia).
    rewrite <- !(assoc_L (++)). do 3 f_equal.
    rewrite (assoc_L (++) (take _ buffer)), drop_app_ge
      by (rewrite length_app, length_take, Hk; lia).
    rewrite length_app, length_take, Hk, drop_drop. f_equal. unfold k. lia.
  - assert (Hk : k = S n) by (unfold k; lia).
    rewrite ReadData_loop_done by lia.
    rewrite Hk, Nat.sub_diag. cbn [ahead behind fst snd]. rewrite app_nil_r.
    split; [done|]. lia.
Qed.

(** The bytes a request is answered with, and the reader behind them. *)
Lemma ReadData_ahead a r buffer len :
  sized (arena a) -> position_in_block r < BLOCK_DATA_SIZE ->
  len < IDX_MODULUS -> (N.to_nat len <= length buffer)%nat ->
  let p := current_pointer r in
  let pos := N.to_nat (position_in_block r) in
  ReadData a r buffer len
  = Some (len,
          mk (root_pointer r) (behind (arena a) (N.to_nat len) p pos).1
             (N.of_nat (behind (arena a) (N.to_nat len) p pos).2),
          ahead (arena a) (N.to_nat len) p pos ++ drop (N.to_nat len) buffer)
  /\ N.of_nat (behind (arena a) (N.to_nat len) p pos).2 < BLOCK_DATA_SIZE.
Proof.
  intros Ha Hpos Hlen Hbuf p pos. destruct r as [root p0 pos0].
  cbn [current_pointer position_in_block root_pointer] in *. subst p pos.
  destruct (ReadData_loop_ahead a Ha (N.to_nat len) (loop_fuel len) root p0
              (N.to_nat pos0) buffer len 0) as [Hrun Hlt];
    try done; try (unfold payload, loop_fuel; lia).
  rewrite N2Nat.id in Hrun. unfold ReadData. rewrite Hrun.
  split; [done|]. unfold payload in Hlt. lia.
Qed.

Context `{GraphEngine}.

(** A bounded dialogue over blocks of the right size ends with the engine
    that the bytes in front of the reader make. *)
Lemma load_from_stream_served (l : Loader Engine) :
  loader_bounded l ->
  forall a root p pos,
    sized (arena a) -> (pos < payload)%nat ->
    exists reader',
      load_from_stream l (HNSWIndex.load_callback a) (mk root p (N.of_nat pos))
      = Some (served (arena a) l p pos, reader').
Proof.
  induction 1 as [e|size k Hsize Hk IH]; intros a root p pos Ha Hpos.
  - by eexists.
  - cbn [load_from_stream served]. unfold HNSWIndex.load_callback at 1.
    destruct (ReadData_ahead a (mk root p (N.of_nat pos))
                (replicate (N.to_nat size) x00) size) as [Hrun Hlt]; try done.
    { cbn. unfold payload in Hpos. lia. }
    { by rewrite length_replicate. }
    cbn [current_pointer position_in_block root_pointer] in Hrun, Hlt.
    rewrite Nat2N.id in Hrun, Hlt. rewrite Hrun, N.eqb_refl.
    rewrite drop_ge, app_nil_r by (rewrite length_replicate; lia).
    apply IH; [done|]. unfold payload. lia.
Qed.
End AheadTheory.

(** ** The codec: round trip, boundary blocks, full reads *)

Lemma Reference_host_ok : @HostStorageOk Reference.host.
Proof. split; [reflexivity|]. intros X. apply is_fresh. Qed.

Section CodecClaims.
Context `{HostStorage} {Hok : HostStorageOk}.

Lemma chain_cur_block m ps s cur pos :
  chain m ps s cur pos ->
  next_block (m cur) = 0
  /\ exists t, length t = pos
       /\ take payload (data (m cur)) = t ++ replicate (payload - pos) x00.
Proof.
  induction 1 as [p s junk Hs Hd Hn|p q ps d junk s cur pos Hd Hdata Hn Hc IH]; [|done].
  split; [done|]. exists s. split; [done|].
  rewrite Hd, (assoc_L (++)), take_app_length'; [done|].
  rewrite length_app, length_replicate. lia.
Qed.

(** C1. Block chain round trip: a stream written with the writer after a
    [Reset] is read back unchanged, byte for byte, by a reader that starts
    at the same root pointer, whatever the length of the stream. *)
Theorem block_chain_round_trip (a : FixedSizeAllocator) (root : N)
    (stream dst : list byte) :
  root ∈ live a ->
  N.of_nat (length stream) < IDX_MODULUS ->
  (length stream <= length dst)%nat ->
  exists a' w' r',
    LinkedBlockWriter.WriteData
      (LinkedBlockWriter.Reset a (LinkedBlockWriter.make root)).1
      (LinkedBlockWriter.Reset a (LinkedBlockWriter.make root)).2
      stream (N.of_nat (length stream)) = Some (a', w')
    /\ LinkedBlockReader.ReadData a' (LinkedBlockReader.make root) dst
         (N.of_nat (length stream))
       = Some (N.of_nat (length stream), r', stream ++ drop (length stream) dst).
Proof.
  intros Hroot Hlen Hdst.
  pose proof (Reset_chain a root) as Hc0.
  destruct (WriteData_chain _ root root 0 [root] [] stream Hc0)
    as (a' & cur' & pos' & new & Hrun & Hc & _); try done.
  { apply NoDup_singleton. }
  { intros q ->%list_elem_of_singleton. done. }
  destruct (chain_sees _ _ _ _ _ Hc) as (p & Hp & Hsees). injection Hp as <-.
  destruct (ReadData_loop_sees a' root 0 stream Hsees (length stream)
              (LinkedBlockReader.loop_fuel (N.of_nat (length stream))) root dst
              (N.of_nat (length stream)) 0)
    as (p' & pos'' & Hread & _); try done; try lia.
  { unfold LinkedBlockReader.loop_fuel. lia. }
  eexists a', _, _. split; [exact Hrun|].
  unfold LinkedBlockReader.ReadData, LinkedBlockReader.make.
  change 0 with (N.of_nat 0) at 1. rewrite Hread. simpl.
  by rewrite take_ge by lia.
Qed.

Lemma ReadData_loop_length fuel : forall a r buffer len br n r' buffer',
  LinkedBlockReader.ReadData_loop fuel a r buffer len br = Some (n, r', buffer') ->
  length buffer' = length buffer.
Proof.
  induction fuel as [|fuel IH]; intros a r buffer len br n r' buffer' Hrun.
  - cbn in Hrun. destruct (br <? len); [done|]. by injection Hrun as _ _ <-.
  - destruct (N.lt_ge_cases br len) as [Hlt|Hge].
    + rewrite ReadData_loop_unfold in Hrun by done. cbv zeta in Hrun.
      destruct (_ =? _); apply IH in Hrun; by rewrite Hrun, memcpy_length.
    + rewrite ReadData_loop_done in Hrun by done. by injection Hrun as _ _ <-.
Qed.

(** C10. [ReadData] never reads short: whatever the allocator holds and
    wherever the reader stands, it returns exactly the length it was asked
    for and leaves the buffer its size, so the callback given to
    [load_from_stream] always answers true.  What it copies to the front of
    the buffer are the bytes in front of the reader: those of its block up
    to the end of the payload, then those of the blocks the forward
    pointers name, which are followed unchecked; the reader is left behind
    the last byte copied. *)
Theorem ReadData_never_short (a : FixedSizeAllocator) (r : LinkedBlockReader.t)
    (buffer : list byte) (length : N) :
  length < IDX_MODULUS ->
  LinkedBlockReader.position_in_block r < IDX_MODULUS ->
  exists r' buffer',
    LinkedBlockReader.ReadData a r buffer length = Some (length, r', buffer')
    /\ HNSWIndex.load_callback a buffer length r = Some (true, buffer', r')
    /\ List.length buffer' = List.length buffer
    /\ (sized (arena a) ->
        LinkedBlockReader.position_in_block r < BLOCK_DATA_SIZE ->
        (N.to_nat length <= List.length buffer)%nat ->
        let p := LinkedBlockReader.current_pointer r in
        let pos := N.to_nat (LinkedBlockReader.position_in_block r) in
        buffer' = ahead (arena a) (N.to_nat length) p pos
                  ++ drop (N.to_nat length) buffer
        /\ r' = LinkedBlockReader.mk (LinkedBlockReader.root_pointer r)
                  (behind (arena a) (N.to_nat length) p pos).1
                  (N.of_nat (behind (arena a) (N.to_nat length) p pos).2)
        /\ LinkedBlockReader.position_in_block r' < BLOCK_DATA_SIZE).
Proof.
  intros Hlen Hpos.
  destruct (ReadData_loop_count (LinkedBlockReader.loop_fuel length) a r buffer length 0)
    as (r' & buffer' & Hrun); try done; try lia.
  { unfold LinkedBlockReader.loop_fuel.
    destruct (_ =? _); lia. }
  exists r', buffer'. unfold HNSWIndex.load_callback, LinkedBlockReader.ReadData.
  rewrite Hrun. split; [done|]. split; [by rewrite N.eqb_refl|].
  split; [by eapply ReadData_loop_length|].
  intros Ha Hin Hbuf.
  destruct (ReadData_ahead a r buffer length Ha Hin Hlen Hbuf) as [Hrun' Hlt].
  unfold LinkedBlockReader.ReadData in Hrun'. rewrite Hrun in Hrun'.
  injection Hrun' as -> ->. done.
Qed.

(** C9. A stream whose length is an exact multiple of the payload size
    ends in a block of its own: when the pieces written add up to [k]
    payloads, the chain has [k + 1] blocks, the [k] behind the root newly
    allocated, and the writer stands at offset 0 of the last one, which is
    linked, cleared and holds no byte of the stream. *)
Theorem exact_boundary_over_allocation (a : FixedSizeAllocator) (root : N)
    (pieces : list (list byte)) (k : nat) :
  root ∈ live a ->
  (forall piece, piece ∈ pieces -> N.of_nat (length piece) < IDX_MODULUS) ->
  length (concat pieces) = (k * payload)%nat ->
  exists a' w',
    save_to_stream pieces HNSWIndex.save_callback
      (LinkedBlockWriter.Reset a (LinkedBlockWriter.make root))
    = Some (Success, (a', w'))
    /\ LinkedBlockWriter.position_in_block w' = 0
    /\ let ps := chain_pointers (arena a') root (S k) in
       chain (arena a') ps (concat pieces) (LinkedBlockWriter.current_pointer w') 0
       /\ NoDup ps
       /\ last ps = Some (LinkedBlockWriter.current_pointer w')
       /\ cleared (arena a' (LinkedBlockWriter.current_pointer w'))
       /\ live a' = list_to_set ps ∪ live a
       /\ (forall q, q ∈ tail ps -> q ∉ live a).
Proof.
  intros Hroot Hlen Htotal.
  pose proof (Reset_chain a root) as Hc0.
  destruct (save_to_stream_chain pieces _ root root 0 [root] [] Hc0)
    as (a' & cur' & pos' & new & Hrun & Hc & Hnd & Hlv & Hnew); try done.
  { apply NoDup_singleton. }
  { intros q ->%list_elem_of_singleton. done. }
  simpl in Hc.
  pose proof (chain_shape _ _ _ _ _ Hc) as (Hlast & Hpos & Hshape & _).
  pose proof payload_pos as Hpay.
  rewrite Htotal in Hshape. simpl in Hshape. rewrite Nat.sub_0_r in Hshape.
  assert (Hk : length new = k).
  { destruct (Nat.lt_trichotomy (length new) k) as [Hlt|[Heq|Hgt]]; [|done|].
    - assert (S (length new) * payload <= k * payload)%nat
        by (apply Nat.mul_le_mono_r; lia). simpl in *. lia.
    - assert (S k * payload <= length new * payload)%nat
        by (apply Nat.mul_le_mono_r; lia). simpl in *. lia. }
  assert (pos' = 0%nat) as -> by (rewrite Hk in Hshape; lia).
  pose proof (chain_pointers_chain _ _ _ _ _ Hc root eq_refl) as Hps.
  simpl in Hps. rewrite Hk in Hps.
  exists a', (LinkedBlockWriter.mk root cur' 0). split; [exact Hrun|].
  split; [done|]. cbv zeta. cbn [LinkedBlockWriter.current_pointer].
  change (chain_pointers (arena a') root (S k)) with
    (root :: chain_pointers (arena a') (next_block (arena a' root)) k).
  rewrite Hps. repeat split; try done.
  - by apply (chain_cur_block _ _ _ _ _ Hc).
  - destruct (chain_cur_block _ _ _ _ _ Hc) as (_ & t & Ht & ->).
    destruct t; [|done]. by rewrite Nat.sub_0_r.
  - rewrite Hlv. simpl. set_solver.
Qed.

End CodecClaims.

Lemma block_chain_round_trip_witness :
  exists a' w' r',
    @LinkedBlockWriter.WriteData Reference.host
      (@LinkedBlockWriter.Reset Reference.host Reference.sample_allocator
         (LinkedBlockWriter.make Reference.sample_root)).1
      (@LinkedBlockWriter.Reset Reference.host Reference.sample_allocator
         (LinkedBlockWriter.make Reference.sample_root)).2
      Reference.sample_stream 9 = Some (a', w')
    /\ @LinkedBlockReader.ReadData Reference.host a'
         (LinkedBlockReader.make Reference.sample_root) (replicate 9 x00) 9
       = Some (9, r', Reference.sample_stream).
Proof.
  apply (@block_chain_round_trip Reference.host Reference_host_ok
           Reference.sample_allocator Reference.sample_root
           Reference.sample_stream (replicate 9 x00)).
  - unfold Reference.sample_allocator, Reference.sample_root, New. simpl. set_solver.
  - reflexivity.
  - simpl. lia.
Defined.

Lemma Reference_host_sized : @sized Reference.host (@raw_segment Reference.host).
Proof. intros p. reflexivity. Qed.

Lemma Reference_used_allocator_sized :
  @sized Reference.host (arena Reference.used_allocator).
Proof.
  unfold Reference.used_allocator.
  destruct (LinkedBlockWriter.WriteData _ _ _ _) as [[a w]|] eqn:Hw.
  - eapply (@WriteData_loop_sized Reference.host); [|exact Hw].
    apply (@ClearCurrentBlock_sized Reference.host). exact Reference_host_sized.
  - exact Reference_host_sized.
Qed.

Lemma ReadData_never_short_witness :
  exists r',
    @LinkedBlockReader.ReadData Reference.host Reference.used_allocator
      (LinkedBlockReader.make Reference.sample_root) (replicate 14 x01) 14
    = Some (14, r',
            [xff; xfe; xfd; xfc; xfb; xfa; xf9; xf8; x00; x00; x00; x00; xff; xfe])
    /\ @HNSWIndex.load_callback Reference.host Reference.used_allocator
         (replicate 14 x01) 14 (LinkedBlockReader.make Reference.sample_root)
       = Some (true,
               [xff; xfe; xfd; xfc; xfb; xfa; xf9; xf8; x00; x00; x00; x00; xff; xfe],
               r').
Proof.
  destruct (@ReadData_never_short Reference.host Reference_host_ok
              Reference.used_allocator (LinkedBlockReader.make Reference.sample_root)
              (replicate 14 x01) 14) as (r' & buffer' & Hread & Hcall & _ & Hcopy);
    [reflexivity..|].
  destruct (Hcopy Reference_used_allocator_sized) as (Hbuffer & _);
    [reflexivity|vm_compute; lia|].
  exists r'. rewrite Hread, Hcall, Hbuffer. split; vm_compute; reflexivity.
Defined.

Lemma exact_boundary_over_allocation_witness :
  exists a' w',
    save_to_stream Reference.sample_pieces (@HNSWIndex.save_callback Reference.host)
      (@LinkedBlockWriter.Reset Reference.host Reference.sample_allocator
         (LinkedBlockWriter.make Reference.sample_root))
    = Some (Success, (a', w'))
    /\ LinkedBlockWriter.position_in_block w' = 0
    /\ let ps := chain_pointers (arena a') Reference.sample_root 3 in
       @chain Reference.host (arena a') ps (concat Reference.sample_pieces)
         (LinkedBlockWriter.current_pointer w') 0
       /\ NoDup ps
       /\ last ps = Some (LinkedBlockWriter.current_pointer w')
       /\ @cleared Reference.host (arena a' (LinkedBlockWriter.current_pointer w'))
       /\ live a' = list_to_set ps ∪ live Reference.sample_allocator
       /\ (forall q, q ∈ tail ps -> q ∉ live Reference.sample_allocator).
Proof.
  apply (@exact_boundary_over_allocation Reference.host Reference_host_ok
           Reference.sample_allocator Reference.sample_root Reference.sample_pieces 2).
  - unfold Reference.sample_allocator, Reference.sample_root, New. simpl. set_solver.
  - intros piece Hin. unfold Reference.sample_pieces in Hin.
    apply elem_of_cons in Hin as [->|Hin]; [reflexivity|].
    apply list_elem_of_singleton in Hin as ->. reflexivity.
  - reflexivity.
Defined.

(** ** The operations of the index in closed form *)

Import HNSWIndex.

Section IndexTheory.
Context `{HostStorage} `{GraphEngine}.

Lemma add_rows_eq rows t : forall s,
  add_rows rows t s =
  (add_outcome (engine_add_rows (index s) rows t).1.1,
   mk (engine_add_rows (index s) rows t).1.2 (index_size s) (is_dirty s)
      (root_block_ptr s) (linked_block_allocator s)
      (log s ++ map (fun r => CallAdd r.1) (rows_tried (index s) rows t))).
Proof.
  induction rows as [|[k v] rows IH]; intros s.
  - simpl. unfold ret. rewrite app_nil_r. by destruct s.
  - cbn [add_rows engine_add_rows rows_tried].
    unfold bind at 1. unfold index_add, bind, record, modify, gets, set_index, ret.
    cbn. destruct (e_add (index s) k v t) as [[|what] e'] eqn:Hadd.
    + cbn. rewrite IH. cbn.
      destruct (engine_add_rows e' rows t) as [[r e''] done]. cbn.
      by rewrite <- (assoc_L (++)).
    + cbn. unfold throw. cbn. done.
Qed.

Lemma Construct_eq input t s :
  let count := N.of_nat (length input) in
  let size := idx_add (index_size s) count in
  let grow := e_capacity (index s) <? size in
  let e1 := engine_grown (index s) size in
  Construct input t s =
  (add_outcome (engine_add_rows e1 input t).1.1,
   mk (engine_add_rows e1 input t).1.2 size true
      (root_block_ptr s) (linked_block_allocator s)
      (log s ++ [Acquire SharedLock; CallCapacity; Release SharedLock]
         ++ (if grow
             then [Acquire ExclusiveLock; CallCapacity; CallReserve (NextPowerOfTwo size);
                   Release ExclusiveLock]
             else [])
         ++ [Acquire SharedLock]
         ++ map (fun r => CallAdd r.1) (rows_tried e1 input t)
         ++ [Release SharedLock])).
Proof.
  intros count size grow e1.
  unfold Construct. fold count.
  unfold bind at 1. unfold set_is_dirty at 1. unfold modify at 1.
  unfold bind at 1. unfold locked at 1.
  unfold index_size_fetch_add, index_capacity, bind, record, modify, gets, set_index_size, ret.
  cbn. fold size. fold grow.
  unfold engine_grown in e1. fold grow in e1.
  destruct grow eqn:Hgrow.
  - unfold locked, index_capacity, index_reserve, bind, record, modify, gets, set_index, ret.
    cbn. fold size. fold grow. rewrite Hgrow. cbn.
    rewrite add_rows_eq. cbn. fold e1.
    rewrite <- !(assoc_L (++)). reflexivity.
  - unfold locked, bind, record, modify, ret. cbn.
    rewrite add_rows_eq. cbn. fold e1.
    rewrite <- !(assoc_L (++)). reflexivity.
Qed.

Lemma remove_rows_eq ids : forall s,
  remove_rows ids s =
  (Normal tt,
   mk (engine_remove_rows (index s) ids) (index_size s) (is_dirty s)
      (root_block_ptr s) (linked_block_allocator s)
      (log s ++ map CallRemove ids)).
Proof.
  induction ids as [|k ids IH]; intros s.
  - simpl. unfold ret. rewrite app_nil_r. by destruct s.
  - cbn [remove_rows engine_remove_rows].
    unfold bind at 1. unfold index_remove, bind, record, modify, gets, set_index, ret.
    cbn. destruct (e_remove (index s) k) as [r e'] eqn:Hrm.
    cbn. rewrite IH. cbn. by rewrite <- (assoc_L (++)).
Qed.

Lemma Delete_eq ids s :
  Delete ids s =
  (Normal tt,
   mk (engine_remove_rows (index s) ids) (e_size (engine_remove_rows (index s) ids)) true
      (root_block_ptr s) (linked_block_allocator s)
      (log s ++ [Acquire ExclusiveLock] ++ map CallRemove ids
         ++ [CallSize; Release ExclusiveLock])).
Proof.
  unfold Delete, locked.
  unfold bind at 1. unfold set_is_dirty at 1. unfold modify at 1.
  unfold bind at 1. unfold record at 1. unfold modify at 1.
  unfold bind at 1. rewrite remove_rows_eq.
  unfold index_size_call, bind, record, modify, gets, set_index_size, ret.
  cbn. rewrite <- !(assoc_L (++)). reflexivity.
Qed.

Lemma Compact_eq s :
  Compact s =
  (compact_outcome (e_compact (index s)).1,
   mk (e_compact (index s)).2
      (match (e_compact (index s)).1 with
       | Success => e_size (e_compact (index s)).2
       | Failure _ => index_size s
       end) true
      (root_block_ptr s) (linked_block_allocator s)
      (log s ++ [Acquire ExclusiveLock; CallCompact]
         ++ (match (e_compact (index s)).1 with
             | Success => [CallSize]
             | Failure _ => []
             end)
         ++ [Release ExclusiveLock])).
Proof.
  unfold Compact, locked, index_compact, index_size_call,
    bind, record, modify, gets, set_index, set_index_size, set_is_dirty, ret.
  cbn. destruct (e_compact (index s)) as [[|what] e'] eqn:Hc; cbn;
    rewrite <- !(assoc_L (++)); reflexivity.
Qed.

Lemma CommitDrop_eq s :
  CommitDrop s =
  (Normal tt,
   mk (e_reset (index s)) 0 (is_dirty s) 0
      (FixedSizeAllocator_Reset (linked_block_allocator s))
      (log s ++ [Acquire ExclusiveLock; CallReset; Release ExclusiveLock])).
Proof.
  unfold CommitDrop, locked, index_reset,
    bind, record, modify, gets, set_index, set_index_size,
    set_linked_block_allocator, set_root_block_ptr, ret.
  cbn. rewrite <- !(assoc_L (++)). reflexivity.
Qed.

Lemma InitializeScan_eq query limit s :
  InitializeScan query limit s =
  (Normal (mkScanState 0 (N.of_nat (length (e_search (index s) query limit)))
             (e_search (index s) query limit)),
   mk (index s) (index_size s) (is_dirty s) (root_block_ptr s)
      (linked_block_allocator s)
      (log s ++ [Acquire SharedLock; CallSearch limit; Release SharedLock])).
Proof.
  unfold InitializeScan, locked, index_search, bind, record, modify, gets, ret.
  cbn. rewrite <- !(assoc_L (++)). reflexivity.
Qed.

Lemma PersistToDisk_clean s :
  is_dirty s = false ->
  PersistToDisk s =
  (Normal tt,
   mk (index s) (index_size s) false (root_block_ptr s) (linked_block_allocator s)
      (log s ++ [Acquire ExclusiveLock; Release ExclusiveLock])).
Proof.
  intros Hd. unfold PersistToDisk, locked, bind, record, modify, gets, ret.
  cbn. rewrite Hd. cbn. rewrite <- !(assoc_L (++)). reflexivity.
Qed.

Lemma PersistToDisk_dirty s :
  is_dirty s = true ->
  PersistToDisk s =
  match save_to_stream (e_save (index s)) save_callback
          (LinkedBlockWriter.Reset (persist_root s).2
             (LinkedBlockWriter.make (persist_root s).1)) with
  | Some (_, (a', _)) =>
    (Normal tt,
     mk (index s) (index_size s) false (persist_root s).1 a'
        (log s ++ [Acquire ExclusiveLock; CallSave; Release ExclusiveLock]))
  | None =>
    (OutOfFuel,
     mk (index s) (index_size s) true (persist_root s).1
        (LinkedBlockWriter.Reset (persist_root s).2
           (LinkedBlockWriter.make (persist_root s).1)).1
        (log s ++ [Acquire ExclusiveLock; CallSave; Release ExclusiveLock]))
  end.
Proof.
  intros Hd. unfold persist_root.
  unfold PersistToDisk, locked, index_save_to_stream,
    bind, record, modify, gets, set_linked_block_allocator, set_root_block_ptr,
    set_is_dirty, ret.
  cbn. rewrite Hd. cbn.
  destruct (root_block_ptr s =? 0) eqn:Hroot; cbn.
  - destruct (save_to_stream _ _ _) as [[r [a' w']]|]; cbn;
      rewrite <- !(assoc_L (++)); reflexivity.
  - destruct (save_to_stream _ _ _) as [[r [a' w']]|]; cbn;
      rewrite <- !(assoc_L (++)); reflexivity.
Qed.
Lemma PersistToDisk_index s :
  index (PersistToDisk s).2 = index s
  /\ index_size (PersistToDisk s).2 = index_size s.
Proof.
  destruct (is_dirty s) eqn:Hd.
  - rewrite PersistToDisk_dirty by done.
    by destruct (save_to_stream _ _ _) as [[r [a' w']]|].
  - by rewrite PersistToDisk_clean.
Qed.

Lemma GetStorageInfo_state get_buffers s :
  (GetStorageInfo get_buffers s).2 = (PersistToDisk s).2.
Proof.
  unfold GetStorageInfo, bind, gets, ret.
  by destruct (PersistToDisk s) as [[[]| |] s'].
Qed.
End IndexTheory.

(** ** The engine: the reference instance and consequences of the laws *)

Lemma filter_fst_ne (k : Z) (l : list (Z * list Z)) :
  (filter (fun r => r.1 ≠ k) l).*1 = filter (fun k' => k' ≠ k) l.*1.
Proof.
  induction l as [|[k' v] l IH]; [done|].
  rewrite fmap_cons, !filter_cons. cbn [fst].
  destruct (decide (k' ≠ k)); by rewrite ?fmap_cons, IH.
Qed.

Lemma filter_absent (k : Z) (l : list Z) : k ∉ l -> filter (fun k' => k' ≠ k) l = l.
Proof.
  induction l as [|k' l IH]; [done|]. intros [Hne Hl]%not_elem_of_cons.
  rewrite filter_cons. rewrite decide_True by done. by rewrite IH.
Qed.

Lemma Reference_engine_laws : @GraphEngineLaws Reference.engine.
Proof.
  split; cbn.
  - intros e. unfold Reference.keys. by rewrite length_fmap.
  - done.
  - done.
  - done.
  - intros e n. lia.
  - intros e k v t e'. unfold Reference.add.
    destruct v; [done|]. destruct (_ <? _); [|done].
    intros [= <-]. unfold Reference.keys. cbn.
    rewrite fmap_app. cbn. by rewrite <- Permutation_cons_append.
  - intros e k v t w e'. unfold Reference.add.
    destruct v; [by intros [= _ <-]|]. destruct (_ <? _); [done|].
    by intros [= _ <-].
  - intros e k v t. unfold Reference.add.
    destruct v; [done|]. destruct (_ <? _); cbn; lia.
  - intros e k. unfold Reference.remove.
    destruct (bool_decide_reflect (k ∈ Reference.keys e)) as [Hin|Hout]; cbn.
    + unfold Reference.keys. cbn. apply filter_fst_ne.
    + by rewrite filter_absent.
  - intros e k Hout. unfold Reference.remove.
    by rewrite bool_decide_eq_false_2.
  - intros e q limit. unfold Reference.search.
    rewrite length_fmap, length_take. lia.
  - intros e q limit k Hsize Hin. unfold Reference.search, Reference.keys in *.
    rewrite take_ge.
    + by rewrite merge_sort_Permutation.
    + rewrite merge_sort_Permutation. lia.
  - intros [] e Hkeys. unfold Reference.keys in Hkeys.
    apply fmap_nil_inv in Hkeys. unfold Reference.save. rewrite Hkeys.
    by eexists _, _.
Qed.

Section EngineLemmas.
Context `{GraphEngine} {Hlaws : GraphEngineLaws}.

Lemma engine_add_rows_success rows t : forall e,
  (engine_add_rows e rows t).1.1 = Success ->
  (engine_add_rows e rows t).2 = rows
  /\ rows_tried e rows t = rows
  /\ e_keys (engine_add_rows e rows t).1.2 ≡ₚ rows.*1 ++ e_keys e
  /\ e_capacity e <= e_capacity (engine_add_rows e rows t).1.2.
Proof.
  induction rows as [|[k v] rows IH]; intros e; cbn [engine_add_rows rows_tried].
  - intros _. cbn. repeat split; done.
  - pose proof (e_add_capacity e k v t) as Hcap.
    destruct (e_add e k v t) as [[|what] e'] eqn:Hadd; [|done].
    specialize (IH e'). destruct (engine_add_rows e' rows t) as [[r e''] done].
    cbn in *. intros Hr. destruct (IH Hr) as (-> & -> & Hkeys & Hcap').
    repeat split; try done; [|lia].
    rewrite Hkeys. rewrite (e_add_success _ _ _ _ _ Hadd).
    by rewrite Permutation_middle.
Qed.

Lemma engine_add_rows_failure rows t what : forall e,
  (engine_add_rows e rows t).1.1 = Failure what ->
  exists failed rest,
    rows = (engine_add_rows e rows t).2 ++ failed :: rest
    /\ rows_tried e rows t = (engine_add_rows e rows t).2 ++ [failed]
    /\ (engine_add_rows e rows t).2.*1 ++ e_keys e ⊆+ e_keys (engine_add_rows e rows t).1.2.
Proof.
  induction rows as [|[k v] rows IH]; intros e; cbn [engine_add_rows rows_tried]; [done|].
  destruct (e_add e k v t) as [[|what'] e'] eqn:Hadd.
  - specialize (IH e'). destruct (engine_add_rows e' rows t) as [[r e''] done].
    cbn in *. intros Hr. destruct (IH Hr) as (failed & rest & -> & -> & Hkeys).
    exists failed, rest. repeat split; try done.
    etrans; [|exact Hkeys]. rewrite (e_add_success _ _ _ _ _ Hadd).
    by rewrite Permutation_middle.
  - cbn. intros _. exists (k, v), rows. repeat split; try done.
    by apply (e_add_failure _ _ _ _ _ _ Hadd).
Qed.

Lemma engine_remove_rows_keys ids : forall e k,
  k ∈ e_keys (engine_remove_rows e ids) <-> k ∈ e_keys e /\ k ∉ ids.
Proof.
  induction ids as [|k' ids IH]; intros e k; cbn [engine_remove_rows].
  - split; [|by intros [? _]]. intros ?. split; [done|]. apply not_elem_of_nil.
  - rewrite IH, e_remove_keys, list_elem_of_filter, not_elem_of_cons. tauto.
Qed.

Lemma engine_remove_rows_absent ids : forall e,
  (forall k, k ∈ ids -> k ∉ e_keys e) -> engine_remove_rows e ids = e.
Proof.
  induction ids as [|k ids IH]; intros e Habs; cbn [engine_remove_rows]; [done|].
  rewrite e_remove_absent by (apply Habs; left).
  apply IH. intros k' Hk'. apply Habs. by right.
Qed.

Lemma engine_remove_rows_twice ids ids' e :
  ids' ⊆ ids ->
  engine_remove_rows (engine_remove_rows e ids) ids' = engine_remove_rows e ids.
Proof.
  intros Hsub. apply engine_remove_rows_absent. intros k Hk Hin.
  apply engine_remove_rows_keys in Hin as [_ Hout]. apply Hout, Hsub, Hk.
Qed.

Lemma engine_grown_keys e size : e_keys (engine_grown e size) = e_keys e.
Proof. unfold engine_grown. destruct (_ <? _); [apply e_reserve_keys|done]. Qed.

Lemma engine_grown_capacity e size : size <= e_capacity (engine_grown e size) \/ NextPowerOfTwo size < size.
Proof.
  unfold engine_grown. destruct (N.ltb_spec (e_capacity e) size); [|by left].
  pose proof (e_reserve_capacity e (NextPowerOfTwo size)).
  destruct (N.lt_ge_cases (NextPowerOfTwo size) size); [by right|left; lia].
Qed.

Lemma e_size_perm e e' : e_keys e ≡ₚ e_keys e' -> e_size e = e_size e'.
Proof. intros Hp. by rewrite !e_size_keys, Hp. Qed.

End EngineLemmas.



(** ** Mutations of the index *)

Lemma added_keys_app l1 l2 : added_keys (l1 ++ l2) = added_keys l1 ++ added_keys l2.
Proof. apply omap_app. Qed.

Lemma removed_keys_app l1 l2 :
  removed_keys (l1 ++ l2) = removed_keys l1 ++ removed_keys l2.
Proof. apply omap_app. Qed.

Lemma added_keys_adds {A} (l : list (Z * A)) :
  added_keys (map (fun r => CallAdd r.1) l) = l.*1.
Proof. induction l as [|r l IH]; [done|]. cbn. by rewrite <- IH. Qed.

Lemma removed_keys_adds {A} (l : list (Z * A)) :
  removed_keys (map (fun r => CallAdd r.1) l) = [].
Proof. induction l as [|r l IH]; [done|]. cbn. by rewrite <- IH. Qed.

Section Construction.
Context `{HostStorage} `{GraphEngine}.

Lemma make_new cfg estimated_cardinality :
  make NONE cfg None estimated_cardinality =
  (Normal tt,
   mk (e_reserve (e_make cfg) (MinValue 32 estimated_cardinality))
      (e_size (e_reserve (e_make cfg) (MinValue 32 estimated_cardinality)))
      false 0 FixedSizeAllocator_make
      [Acquire ExclusiveLock; CallReserve (MinValue 32 estimated_cardinality);
       CallSize; Release ExclusiveLock]).
Proof. reflexivity. Qed.

Lemma make_load cfg info allocator_info estimated_cardinality :
  allocator_infos info = [allocator_info] ->
  make NONE cfg (Some info) estimated_cardinality =
  match buffer_ids allocator_info with
  | [] =>
    (Normal tt,
     mk (e_make cfg) (e_size (e_make cfg)) false (root info) (Init allocator_info)
        [Acquire ExclusiveLock; CallSize; Release ExclusiveLock])
  | _ :: _ =>
    match load_from_stream (e_load (e_make cfg)) (load_callback (Init allocator_info))
            (LinkedBlockReader.make (root info)) with
    | Some (e', _) =>
      (Normal tt,
       mk e' (e_size e') false (root info) (Init allocator_info)
          [Acquire ExclusiveLock; CallLoad; CallSize; Release ExclusiveLock])
    | None =>
      (OutOfFuel,
       mk (e_make cfg) 0 false (root info) (Init allocator_info)
          [Acquire ExclusiveLock; CallLoad; Release ExclusiveLock])
    end
  end.
Proof.
  intros Hinfo. unfold make, locked, index_load_from_stream, index_size_call,
    bind, record, modify, gets, set_index, set_index_size, set_root_block_ptr,
    set_linked_block_allocator, ret, fresh_object.
  cbn. rewrite Hinfo. cbn.
  destruct (buffer_ids allocator_info) as [|b bs]; cbn; [done|].
  destruct (load_from_stream _ _ _) as [[e' r']|]; cbn; done.
Qed.

Lemma make_size constraint cfg info estimated_cardinality s :
  make constraint cfg info estimated_cardinality = (Normal tt, s) ->
  index_size s = e_size (index s).
Proof.
  destruct constraint; try done.
  destruct info as [info|].
  - destruct (allocator_infos info) as [|ai [|ai' ais]] eqn:Hinfo.
    + unfold make, locked, bind, record, modify, set_root_block_ptr, throw.
      cbn. rewrite Hinfo. cbn. done.
    + rewrite (make_load _ _ ai) by done.
      destruct (buffer_ids ai); [by intros [= <-]|].
      destruct (load_from_stream _ _ _) as [[e' r']|]; [by intros [= <-]|done].
    + unfold make, locked, bind, record, modify, set_root_block_ptr, throw.
      cbn. rewrite Hinfo. cbn. done.
  - rewrite make_new. by intros [= <-].
Qed.
End Construction.

Section Mutations.
Context `{GraphEngine}.

(** C6. Dirty transitions: whatever the state before and however the call
    ends, [Construct], [Delete] and [Compact] leave the index dirty; in
    particular every successful insert, delete or compaction does. *)
Theorem dirty_after_mutation (s : HNSWIndex.t) :
  (forall input thread_idx, is_dirty (Construct input thread_idx s).2 = true)
  /\ (forall row_ids, is_dirty (Delete row_ids s).2 = true)
  /\ is_dirty (Compact s).2 = true.
Proof.
  split; [|split].
  - intros input t. by rewrite Construct_eq.
  - intros ids. by rewrite Delete_eq.
  - by rewrite Compact_eq.
Qed.

Context {Hlaws : GraphEngineLaws}.

(** C8. Delete never fails and is idempotent: it returns normally for every
    list of identifiers, present or not; afterwards the engine holds exactly
    the identifiers it held that are not in the list; and deleting again
    what was deleted changes neither the engine nor the result of any
    later search. *)
Theorem Delete_idempotent (s : HNSWIndex.t) (row_ids : list Z) :
  (Delete row_ids s).1 = Normal tt
  /\ (forall k, k ∈ e_keys (index (Delete row_ids s).2)
                <-> k ∈ e_keys (index s) /\ k ∉ row_ids)
  /\ (forall again, again ⊆ row_ids ->
        (Delete again (Delete row_ids s).2).1 = Normal tt
        /\ index (Delete again (Delete row_ids s).2).2 = index (Delete row_ids s).2
        /\ forall query limit,
             (InitializeScan query limit (Delete again (Delete row_ids s).2).2).1
             = (InitializeScan query limit (Delete row_ids s).2).1)
  /\ (forall k, index (Delete [k; k] s).2 = index (Delete [k] s).2).
Proof.
  rewrite !Delete_eq. cbn [fst snd index]. split; [done|]. split.
  { intros k. apply engine_remove_rows_keys. }
  split.
  - intros again Hsub. rewrite !Delete_eq. cbn [fst snd index].
    rewrite engine_remove_rows_twice by done. split; [done|]. split; [done|].
    intros q limit. by rewrite !InitializeScan_eq.
  - intros k. rewrite !Delete_eq. cbn [snd index].
    change (engine_remove_rows (index s) [k; k])
      with (engine_remove_rows (engine_remove_rows (index s) [k]) [k]).
    by rewrite engine_remove_rows_twice.
Qed.

(** C7. A batch insert is not atomic: when the engine reports a failure for
    a row of the batch, [Construct] raises the internal error that carries
    the engine's message, the rows before the failing one stay in the
    engine, the rows behind it are not tried, and nothing is removed. *)
Theorem Construct_failure_keeps_rows (s : HNSWIndex.t) (input : list (Z * list scalar))
    (thread_idx : N) (what : string) :
  let e1 := engine_grown (index s)
              (idx_add (index_size s) (N.of_nat (length input))) in
  (engine_add_rows e1 input thread_idx).1.1 = Failure what ->
  exists s' done failed rest,
    Construct input thread_idx s
    = (Raised (InternalException ("Failed to add to the HNSW index: " ++ what)), s')
    /\ input = done ++ failed :: rest
    /\ done.*1 ++ e_keys (index s) ⊆+ e_keys (index s')
    /\ exists events,
         log s' = log s ++ events
         /\ added_keys events = (done ++ [failed]).*1
         /\ removed_keys events = [].
Proof.
  intros e1 Hfail. rewrite Construct_eq. cbv zeta. fold e1. rewrite Hfail.
  destruct (engine_add_rows_failure input thread_idx what e1 Hfail)
    as (failed & rest & Hin & Htried & Hkeys).
  eexists _, (engine_add_rows e1 input thread_idx).2, failed, rest.
  split; [reflexivity|]. split; [done|]. cbn [index log]. split.
  { etrans; [|exact Hkeys]. unfold e1. by rewrite engine_grown_keys. }
  eexists. split; [reflexivity|]. rewrite Htried.
  rewrite !added_keys_app, !removed_keys_app, added_keys_adds, removed_keys_adds.
  destruct (_ <? _); cbn; by rewrite ?app_nil_r.
Qed.

(** A batch insert that returns keeps the cached element count equal to
    the engine's. *)
Lemma Construct_size input t s s' :
  index_size s = e_size (index s) ->
  e_size (index s) + N.of_nat (length input) < IDX_MODULUS ->
  Construct input t s = (Normal tt, s') ->
  index_size s' = e_size (index s').
Proof.
  intros Hinv Hfit. rewrite Construct_eq. cbv zeta.
  destruct (engine_add_rows _ input t) as [[r e'] done] eqn:Hadd. cbn.
  destruct r; [|done]. intros [= <-]. cbn.
  pose proof (engine_add_rows_success input t
                (engine_grown (index s)
                   (idx_add (index_size s) (N.of_nat (length input))))) as Hs.
  rewrite Hadd in Hs. cbn in Hs. destruct (Hs eq_refl) as (_ & _ & Hkeys & _).
  rewrite idx_add_small by lia. rewrite Hinv.
  rewrite !e_size_keys, Hkeys, engine_grown_keys, length_app, length_fmap. lia.
Qed.

(** C5, as amended.  The element-count cache: the constructor, [Delete],
    a [Compact] that returns and [CommitDrop] set it to the engine's size,
    whatever it was; a batch insert that returns keeps it equal to the
    engine's size when it was equal before and the new count fits 64 bits.
    So the cache equals the engine's size after every operation that
    returns, as long as no [Construct] and no [Compact] has thrown since the
    cache was last set from the engine ([counted]). *)
Theorem element_count_cache `{HostStorage} :
  (forall constraint cfg info estimated_cardinality s,
     make constraint cfg info estimated_cardinality = (Normal tt, s) ->
     index_size s = e_size (index s))
  /\ (forall s input thread_idx s',
        index_size s = e_size (index s) ->
        e_size (index s) + N.of_nat (length input) < IDX_MODULUS ->
        Construct input thread_idx s = (Normal tt, s') ->
        index_size s' = e_size (index s'))
  /\ (forall s row_ids s',
        Delete row_ids s = (Normal tt, s') -> index_size s' = e_size (index s'))
  /\ (forall s s', Compact s = (Normal tt, s') -> index_size s' = e_size (index s'))
  /\ (forall s s', CommitDrop s = (Normal tt, s') -> index_size s' = e_size (index s'))
  /\ (forall s, counted s -> index_size s = e_size (index s)).
Proof.
  assert (Hdelete : forall s row_ids s',
            Delete row_ids s = (Normal tt, s') -> index_size s' = e_size (index s')).
  { intros s ids s'. rewrite Delete_eq. by intros [= <-]. }
  assert (Hcompact : forall s s',
            Compact s = (Normal tt, s') -> index_size s' = e_size (index s')).
  { intros s s'. rewrite Compact_eq.
    destruct (e_compact (index s)) as [[|what] e']; [|done]. by intros [= <-]. }
  assert (Hdrop : forall s s',
            CommitDrop s = (Normal tt, s') -> index_size s' = e_size (index s')).
  { intros s s'. rewrite CommitDrop_eq. intros [= <-]. cbn.
    by rewrite e_size_keys, e_reset_keys. }
  repeat split; try done.
  - intros constraint cfg info card s. apply make_size.
  - intros s input t s'. apply Construct_size.
  - induction 1 as [constraint cfg info card s Hmake
                   |s input t s' _ IH Hfit Hrun
                   |s ids s' Hrun|s s' Hrun|s s' Hrun
                   |s q limit _ IH|s _ IH|s gb _ IH].
    + by eapply make_size.
    + by eapply Construct_size.
    + by eapply Hdelete.
    + by eapply Hcompact.
    + by eapply Hdrop.
    + by rewrite InitializeScan_eq.
    + by destruct (PersistToDisk_index s) as [-> ->].
    + rewrite GetStorageInfo_state. by destruct (PersistToDisk_index s) as [-> ->].
Qed.
End Mutations.

(** ** Checkpoints *)

Section Checkpoint.
Context `{HostStorage} {Hok : HostStorageOk} `{GraphEngine}.

Lemma chain_read a ps s cur pos root dst :
  chain (arena a) ps s cur pos -> head ps = Some root ->
  N.of_nat (length s) < IDX_MODULUS -> (length s <= length dst)%nat ->
  exists r',
    LinkedBlockReader.ReadData a (LinkedBlockReader.make root) dst (N.of_nat (length s))
    = Some (N.of_nat (length s), r', s ++ drop (length s) dst).
Proof.
  intros Hc Hroot Hlen Hdst.
  destruct (chain_sees _ _ _ _ _ Hc) as (p & Hp & Hsees).
  rewrite Hroot in Hp. injection Hp as <-.
  destruct (ReadData_loop_sees a root 0 s Hsees (length s)
              (LinkedBlockReader.loop_fuel (N.of_nat (length s))) root dst
              (N.of_nat (length s)) 0)
    as (p' & pos' & Hread & _); try done; try lia.
  { unfold LinkedBlockReader.loop_fuel. lia. }
  eexists. unfold LinkedBlockReader.ReadData, LinkedBlockReader.make.
  change 0 with (N.of_nat 0) at 1. rewrite Hread. simpl.
  by rewrite take_ge by lia.
Qed.

Lemma concat_piece_length (pieces : list (list byte)) piece :
  piece ∈ pieces -> (length piece <= length (concat pieces))%nat.
Proof.
  induction pieces as [|p pieces IH]; [by intros ?%elem_of_nil|].
  intros [->|Hin]%elem_of_cons; cbn; rewrite length_app; [lia|].
  specialize (IH Hin). lia.
Qed.

(** In front of a reader at the root of a chain is the stream the chain
    holds. *)
Lemma chain_ahead a ps s cur pos root :
  sized (arena a) -> chain (arena a) ps s cur pos -> head ps = Some root ->
  N.of_nat (length s) < IDX_MODULUS ->
  ahead (arena a) (length s) root 0 = s.
Proof.
  intros Ha Hc Hroot Hlen.
  destruct (chain_read a ps s cur pos root (replicate (length s) x00) Hc Hroot Hlen)
    as (r' & Hread); [by rewrite length_replicate|].
  destruct (ReadData_ahead a (LinkedBlockReader.make root) (replicate (length s) x00)
              (N.of_nat (length s)) Ha) as [Hahead _]; try done.
  { apply BLOCK_DATA_SIZE_pos. }
  { rewrite length_replicate. lia. }
  rewrite Hread in Hahead. injection Hahead as _ Heq.
  cbn [LinkedBlockReader.make LinkedBlockReader.current_pointer
         LinkedBlockReader.position_in_block] in Heq.
  rewrite Nat2N.id in Heq. change (N.to_nat 0) with 0%nat in Heq.
  rewrite drop_ge, !app_nil_r in Heq by (rewrite length_replicate; lia).
  done.
Qed.

(** What a checkpoint of a dirty index leaves behind: the root block, and
    from it a chain that holds the engine's serialized state. *)
Lemma PersistToDisk_writes s :
  is_dirty s = true ->
  root_block_ptr s = 0 \/ root_block_ptr s ∈ live (linked_block_allocator s) ->
  N.of_nat (length (concat (e_save (index s)))) < IDX_MODULUS ->
  exists a' ps cur pos,
    PersistToDisk s =
    (Normal tt,
     mk (index s) (index_size s) false (persist_root s).1 a'
        (log s ++ [Acquire ExclusiveLock; CallSave; Release ExclusiveLock]))
    /\ chain (arena a') ps (concat (e_save (index s))) cur pos
    /\ head ps = Some (persist_root s).1
    /\ (persist_root s).1 ∈ live a'.
Proof.
  intros Hdirty Hroot Hlen.
  rewrite PersistToDisk_dirty by done.
  set (root' := (persist_root s).1). set (a0 := (persist_root s).2).
  assert (Hin : root' ∈ live a0).
  { unfold root', a0, persist_root.
    destruct (N.eqb_spec (root_block_ptr s) 0) as [Hz|Hnz]; cbn.
    - set_solver.
    - by destruct Hroot. }
  pose proof (Reset_chain a0 root') as Hc0.
  destruct (save_to_stream_chain (e_save (index s)) _ root' root' 0 [root'] [] Hc0)
    as (a' & cur' & pos' & new & Hrun & Hc & Hnd & Hlv & Hnew).
  { apply NoDup_singleton. }
  { intros q ->%list_elem_of_singleton. done. }
  { intros piece Hp. apply concat_piece_length in Hp. lia. }
  change (LinkedBlockWriter.Reset a0 (LinkedBlockWriter.make root'))
    with ((LinkedBlockWriter.Reset a0 (LinkedBlockWriter.make root')).1,
          LinkedBlockWriter.mk root' root' (N.of_nat 0)).
  rewrite Hrun. exists a', ([root'] ++ new), cur', pos'.
  split; [done|]. split; [done|]. split; [done|].
  rewrite Hlv. apply elem_of_union_r. done.
Qed.

(** C2. The checkpoint state machine.  On a clean index [PersistToDisk]
    returns without a call on the engine and leaves every field as it was;
    on a dirty index it takes a root block when the root pointer is null,
    writes the engine's serialized state to the chain that starts there (a
    reader at the root reads it back), and leaves the index clean; so a
    second call right after the first one serializes nothing. *)
Theorem PersistToDisk_state_machine (s : HNSWIndex.t) :
  (is_dirty s = false ->
     PersistToDisk s =
     (Normal tt,
      mk (index s) (index_size s) false (root_block_ptr s) (linked_block_allocator s)
         (log s ++ [Acquire ExclusiveLock; Release ExclusiveLock])))
  /\ (is_dirty s = true ->
      root_block_ptr s = 0 \/ root_block_ptr s ∈ live (linked_block_allocator s) ->
      N.of_nat (length (concat (e_save (index s)))) < IDX_MODULUS ->
      exists s',
        PersistToDisk s = (Normal tt, s')
        /\ is_dirty s' = false
        /\ index s' = index s /\ index_size s' = index_size s
        /\ root_block_ptr s' =
           (if root_block_ptr s =? 0
            then next_segment (live (linked_block_allocator s))
            else root_block_ptr s)
        /\ root_block_ptr s' ∈ live (linked_block_allocator s')
        /\ log s' = log s ++ [Acquire ExclusiveLock; CallSave; Release ExclusiveLock]
        /\ forall dst,
             (length (concat (e_save (index s))) <= length dst)%nat ->
             exists r',
               LinkedBlockReader.ReadData (linked_block_allocator s')
                 (LinkedBlockReader.make (root_block_ptr s')) dst
                 (N.of_nat (length (concat (e_save (index s)))))
               = Some (N.of_nat (length (concat (e_save (index s)))), r',
                       concat (e_save (index s))
                       ++ drop (length (concat (e_save (index s)))) dst))
  /\ (forall s',
        PersistToDisk s = (Normal tt, s') ->
        PersistToDisk s' =
        (Normal tt,
         mk (index s') (index_size s') false (root_block_ptr s')
            (linked_block_allocator s')
            (log s' ++ [Acquire ExclusiveLock; Release ExclusiveLock]))).
Proof.
  split; [apply PersistToDisk_clean|]. split.
  - intros Hdirty Hroot Hlen.
    destruct (PersistToDisk_writes s Hdirty Hroot Hlen)
      as (a' & ps & cur & pos & Hrun & Hc & Hhead & Hlive).
    eexists. split; [exact Hrun|]. cbn [is_dirty index index_size root_block_ptr
      linked_block_allocator log].
    repeat split; try done.
    + unfold persist_root. by destruct (_ =? _).
    + intros dst Hdst. by eapply chain_read.
  - intros s' Hrun. apply PersistToDisk_clean.
    destruct (is_dirty s) eqn:Hdirty.
    + rewrite PersistToDisk_dirty in Hrun by done.
      destruct (save_to_stream _ _ _) as [[r [a' w']]|]; [|done].
      by injection Hrun as <-.
    + rewrite PersistToDisk_clean in Hrun by done. by injection Hrun as <-.
Qed.
End Checkpoint.

(** ** Loading *)

Section Loading.
Context `{HostStorage} {Hok : HostStorageOk} `{GraphEngine}.

(** A load from a chain answers the engine's requests with the bytes of
    the chain. *)
Lemma load_from_stream_feed (l : Loader Engine) : forall a root p pos t e' rest,
  sees (arena a) p pos t -> N.of_nat (length t) < IDX_MODULUS ->
  feed l t = Some (e', rest) ->
  exists reader',
    load_from_stream l (load_callback a) (LinkedBlockReader.mk root p (N.of_nat pos))
    = Some (e', reader').
Proof.
  induction l as [e|size k IH]; intros a root p pos t e' rest Hsees Hlen Hfeed.
  - cbn in *. injection Hfeed as <- _. by eexists.
  - cbn [feed load_from_stream] in *.
    destruct (decide (N.to_nat size <= length t)%nat) as [Hsize|]; [|done].
    destruct (ReadData_loop_sees a p pos t Hsees (N.to_nat size)
                (LinkedBlockReader.loop_fuel size) root
                (replicate (N.to_nat size) x00) size 0)
      as (p' & pos' & Hread & Hsees'); try done; try lia.
    { rewrite length_replicate. lia. }
    { unfold LinkedBlockReader.loop_fuel. lia. }
    unfold load_callback at 1. unfold LinkedBlockReader.ReadData.
    rewrite Hread. rewrite N.eqb_refl.
    cbn [N.to_nat take app Nat.add].
    rewrite drop_ge, app_nil_r by (rewrite length_replicate; lia).
    eapply (IH true); [exact Hsees'| |exact Hfeed].
    rewrite length_drop. lia.
Qed.

Lemma GetStorageInfo_eq get_buffers s s' :
  PersistToDisk s = (Normal tt, s') ->
  GetStorageInfo get_buffers s =
  (Normal (mkStorageInfo (root_block_ptr s') [GetInfo (linked_block_allocator s')]
             (if get_buffers then [elements (live (linked_block_allocator s'))] else [])),
   s').
Proof.
  intros Hp. unfold GetStorageInfo, bind, gets, ret. rewrite Hp. reflexivity.
Qed.

Context {Hlaws : GraphEngineLaws}.




End Loading.

(** ** The size of the blocks of an index *)

Section SizedIndex.
Context `{HostStorage} `{GraphEngine}.

Lemma PersistToDisk_sized s :
  sized (arena (linked_block_allocator s)) ->
  sized (arena (linked_block_allocator (PersistToDisk s).2)).
Proof.
  intros Hs. destruct (is_dirty s) eqn:Hdirty.
  - rewrite PersistToDisk_dirty by done.
    assert (Hroot : sized (arena (persist_root s).2)).
    { unfold persist_root. by destruct (_ =? _). }
    pose proof (ClearCurrentBlock_sized (persist_root s).2
                  (LinkedBlockWriter.mk (persist_root s).1 (persist_root s).1 0) Hroot)
      as Hreset.
    destruct (save_to_stream _ _ _) as [[r [a' w']]|] eqn:Hsave; [|done].
    by apply (save_to_stream_sized _ (LinkedBlockWriter.Reset (persist_root s).2
                (LinkedBlockWriter.make (persist_root s).1)) r (a', w') Hreset Hsave).
  - by rewrite PersistToDisk_clean.
Qed.

(** The blocks of an index hold [BLOCK_DATA_SIZE] bytes each, on a host
    whose segments do. *)
Lemma reachable_sized cfg s :
  sized raw_segment -> reachable cfg s -> sized (arena (linked_block_allocator s)).
Proof.
  intros Hraw.
  induction 1 as [card s Hmake
                 |s0 gb info s1 card s _ IH Hlen Hinfo Hmake
                 |s input t _ IH|s ids _ IH|s _ IH|s _ IH|s q limit _ IH
                 |s _ IH Hlen|s gb _ IH Hlen].
  - rewrite make_new in Hmake. by injection Hmake as <-.
  - apply PersistToDisk_sized in IH.
    assert (Hs1 : info = mkStorageInfo (root_block_ptr (PersistToDisk s0).2)
                           [GetInfo (linked_block_allocator (PersistToDisk s0).2)]
                           (if gb
                            then [elements (live (linked_block_allocator
                                                    (PersistToDisk s0).2))]
                            else [])).
    { unfold GetStorageInfo, bind, gets, ret in Hinfo.
      destruct (PersistToDisk s0) as [[[]| |] s1']; [|done..].
      by injection Hinfo as <- _. }
    subst info.
    rewrite (make_load _ _ (GetInfo (linked_block_allocator (PersistToDisk s0).2)))
      in Hmake by done.
    destruct (buffer_ids _); [by injection Hmake as <-|].
    destruct (load_from_stream _ _ _) as [[e' reader']|]; [|done].
    by injection Hmake as <-.
  - by rewrite Construct_eq.
  - by rewrite Delete_eq.
  - by rewrite Compact_eq.
  - by rewrite CommitDrop_eq.
  - by rewrite InitializeScan_eq.
  - by apply PersistToDisk_sized.
  - rewrite GetStorageInfo_state. by apply PersistToDisk_sized.
Qed.
End SizedIndex.

(** ** Capacity growth *)



Section Growth.
Context `{GraphEngine} {Hlaws : GraphEngineLaws}.

End Growth.

(** ** The properties on the reference instances *)

Lemma PersistToDisk_state_machine_witness :
  exists s',
    @PersistToDisk Reference.host Reference.engine Reference.filled_index = (Normal tt, s')
    /\ is_dirty s' = false
    /\ index s' = index Reference.filled_index
    /\ index_size s' = index_size Reference.filled_index
    /\ root_block_ptr s' = fresh (∅ : gset N)
    /\ root_block_ptr s' ∈ live (linked_block_allocator s')
    /\ log s' = log Reference.filled_index
                ++ [Acquire ExclusiveLock; CallSave; Release ExclusiveLock]
    /\ forall dst,
         (13 <= length dst)%nat ->
         exists r',
           @LinkedBlockReader.ReadData Reference.host (linked_block_allocator s')
             (LinkedBlockReader.make (root_block_ptr s')) dst 13
           = Some (13, r', concat (Reference.save (index Reference.filled_index))
                           ++ drop 13 dst).
Proof.
  apply (proj1 (proj2 (@PersistToDisk_state_machine Reference.host Reference_host_ok
                         Reference.engine Reference.filled_index))).
  - reflexivity.
  - left. reflexivity.
  - reflexivity.
Defined.





Lemma element_count_cache_witness :
  index_size
    (@Construct Reference.engine [(10, [5; 5])]%Z 0
       (@PersistToDisk Reference.host Reference.engine
          (@Delete Reference.engine [8]%Z
             (@Construct Reference.engine Reference.broken_batch 0
                (Reference.new_index 0)).2).2).2).2
  = @e_size Reference.engine
      (index
         (@Construct Reference.engine [(10, [5; 5])]%Z 0
            (@PersistToDisk Reference.host Reference.engine
               (@Delete Reference.engine [8]%Z
                  (@Construct Reference.engine Reference.broken_batch 0
                     (Reference.new_index 0)).2).2).2).2).
Proof.
  apply (proj2 (proj2 (proj2 (proj2 (proj2
           (@element_count_cache Reference.engine Reference_engine_laws
              Reference.host)))))).
  apply (counted_Construct
           (@PersistToDisk Reference.host Reference.engine
              (@Delete Reference.engine [8]%Z
                 (@Construct Reference.engine Reference.broken_batch 0
                    (Reference.new_index 0)).2).2).2
           [(10, [5; 5])]%Z 0).
  - apply counted_PersistToDisk.
    apply (counted_Delete
             (@Construct Reference.engine Reference.broken_batch 0
                (Reference.new_index 0)).2 [8]%Z).
    rewrite Delete_eq. reflexivity.
  - vm_compute. reflexivity.
  - rewrite Construct_eq. vm_compute. reflexivity.
Defined.

Lemma element_count_cache_counterexample :
  exists what s1 s2,
    @Construct Reference.engine Reference.broken_batch 0 (Reference.new_index 0)
    = (Raised (InternalException what), s1)
    /\ @Construct Reference.engine [(10, [5; 5])]%Z 0 s1 = (Normal tt, s2)
    /\ index_size s2 = 4
    /\ @e_size Reference.engine (index s2) = 2.
Proof.
  eexists _, _, _. split; [vm_compute; reflexivity|].
  split; [vm_compute; reflexivity|]. split; vm_compute; reflexivity.
Qed.

Lemma Construct_failure_keeps_rows_witness :
  exists s' done failed rest,
    @Construct Reference.engine Reference.broken_batch 0 (Reference.new_index 0)
    = (Raised (InternalException "Failed to add to the HNSW index: invalid vector"), s')
    /\ Reference.broken_batch = done ++ failed :: rest
    /\ done.*1 ++ Reference.keys (index (Reference.new_index 0))
       ⊆+ Reference.keys (index s')
    /\ exists events,
         log s' = log (Reference.new_index 0) ++ events
         /\ added_keys events = (done ++ [failed]).*1
         /\ removed_keys events = [].
Proof.
  apply (@Construct_failure_keeps_rows Reference.engine Reference_engine_laws
           (Reference.new_index 0) Reference.broken_batch 0 "invalid vector").
  vm_compute. reflexivity.
Defined.

Lemma Delete_idempotent_witness :
  (@Delete Reference.engine [7; 7; 1]%Z Reference.filled_index).1 = Normal tt
  /\ index (@Delete Reference.engine [7; 7]%Z Reference.filled_index).2
     = index (@Delete Reference.engine [7]%Z Reference.filled_index).2.
Proof.
  split.
  - apply (@Delete_idempotent Reference.engine Reference_engine_laws
             Reference.filled_index [7; 7; 1]%Z).
  - apply (@Delete_idempotent Reference.engine Reference_engine_laws
             Reference.filled_index [7]%Z).
Defined.

(** * Further properties *)

(** ** Scans *)

Section ScanTheory.
Context `{HostVector}.

(** The loop of [Scan] in closed form: from [count] rows pushed, it pushes
    rows until the vector is full or the scan exhausted. *)
Lemma Scan_loop_spec fuel : forall st result count,
  STANDARD_VECTOR_SIZE < IDX_MODULUS ->
  total_rows st = N.of_nat (length (row_ids st)) ->
  current_row st <= total_rows st ->
  total_rows st < IDX_MODULUS ->
  count <= STANDARD_VECTOR_SIZE ->
  (N.to_nat STANDARD_VECTOR_SIZE <= length result)%nat ->
  (N.to_nat (STANDARD_VECTOR_SIZE - count) <= fuel)%nat ->
  let n := N.min (STANDARD_VECTOR_SIZE - count) (total_rows st - current_row st) in
  Scan_loop fuel st result count =
  Some (count + n,
        mkScanState (current_row st + n) (total_rows st) (row_ids st),
        take (N.to_nat count) result
        ++ take (N.to_nat n) (drop (N.to_nat (current_row st)) (row_ids st))
        ++ drop (N.to_nat (count + n)) result).
Proof.
  induction fuel as [|fuel IH];
    intros [cur total ids] result count Hsvs Htot Hcur Hlt Hcount Hres Hfuel n;
    cbn [current_row total_rows row_ids] in *.
  - assert (count = STANDARD_VECTOR_SIZE) as -> by lia.
    cbn [Scan_loop]. rewrite N.ltb_irrefl. cbn [andb].
    subst n. rewrite N.sub_diag, N.min_0_l, !N.add_0_r.
    change (N.to_nat 0) with 0%nat. by rewrite take_0, app_nil_l, take_drop.
  - cbn [Scan_loop current_row total_rows row_ids].
    destruct (N.ltb_spec count STANDARD_VECTOR_SIZE) as [Hc|Hc]; cbn [andb].
    2:{ subst n. replace (STANDARD_VECTOR_SIZE - count) with 0 by lia.
        rewrite N.min_0_l, !N.add_0_r.
        change (N.to_nat 0) with 0%nat. by rewrite take_0, app_nil_l, take_drop. }
    destruct (N.ltb_spec cur total) as [Hr|Hr].
    2:{ subst n. replace (total - cur) with 0 by lia.
        rewrite N.min_0_r, !N.add_0_r.
        change (N.to_nat 0) with 0%nat. by rewrite take_0, app_nil_l, take_drop. }
    destruct (lookup_lt_is_Some_2 ids (N.to_nat cur)) as [v Hv]; [lia|].
    rewrite Hv. rewrite decide_True by lia.
    rewrite !idx_add_small by lia.
    rewrite IH; cbn [current_row total_rows row_ids]; try lia.
    2:{ rewrite length_insert. lia. }
    f_equal. f_equal; [f_equal; [lia|f_equal; lia]|].
    set (n' := N.min (STANDARD_VECTOR_SIZE - (count + 1)) (total - (cur + 1))).
    assert (Hn : N.to_nat n = S (N.to_nat n')) by (subst n n'; lia).
    rewrite Hn.
    replace (N.to_nat (count + 1)) with (S (N.to_nat count)) by lia.
    replace (N.to_nat (count + 1 + n')) with (S (N.to_nat count) + N.to_nat n')%nat by lia.
    replace (N.to_nat (count + n)) with (S (N.to_nat count) + N.to_nat n')%nat by lia.
    replace (N.to_nat (cur + 1)) with (S (N.to_nat cur)) by lia.
    rewrite (drop_S ids v (N.to_nat cur)) by done. cbn [take].
    rewrite (insert_take_drop result (N.to_nat count) v) by lia.
    assert (Hl : N.to_nat count = length (take (N.to_nat count) result))
      by (rewrite length_take; lia).
    replace (S (N.to_nat count)) with (N.to_nat count + 1)%nat by lia.
    rewrite (take_app_add' _ _ _ 1 Hl).
    rewrite <- Nat.add_assoc, (drop_app_add' _ _ _ _ Hl).
    cbn [Nat.add take drop]. rewrite drop_drop.
    rewrite <- !app_assoc. cbn [app]. rewrite take_0. cbn [app]. do 4 f_equal. lia.
Qed.

Lemma Scan_spec st result :
  STANDARD_VECTOR_SIZE < IDX_MODULUS ->
  total_rows st = N.of_nat (length (row_ids st)) ->
  current_row st <= total_rows st ->
  total_rows st < IDX_MODULUS ->
  (N.to_nat STANDARD_VECTOR_SIZE <= length result)%nat ->
  let n := N.min STANDARD_VECTOR_SIZE (total_rows st - current_row st) in
  Scan st result =
  Some (n, mkScanState (current_row st + n) (total_rows st) (row_ids st),
        take (N.to_nat n) (drop (N.to_nat (current_row st)) (row_ids st))
        ++ drop (N.to_nat n) result).
Proof.
  intros Hsvs Htot Hcur Hlt Hres n. unfold Scan.
  rewrite Scan_loop_spec by (try done; lia).
  rewrite N.sub_0_r, N.add_0_l. fold n. change (N.to_nat 0) with 0%nat.
  by rewrite take_0, app_nil_l.
Qed.

(** Slices of [k] rows: behind a short slice every slice is empty, and
    [n] slices in a row are the first [n * k] rows. *)
Lemma chunks_shift (ids : list Z) (k c n1 total : nat) (i : nat) :
  total = length ids -> (c <= total)%nat -> n1 = Nat.min k (total - c) ->
  take k (drop (c + n1 + i * k) ids) = take k (drop (c + (S i) * k) ids).
Proof.
  intros -> Hc ->. destruct (decide (k <= length ids - c)%nat) as [Hk|Hk].
  - f_equal. f_equal. lia.
  - rewrite !drop_ge by lia. done.
Qed.

Lemma concat_chunks (ids : list Z) (k : nat) : forall n c,
  concat (map (fun i => take k (drop (c + i * k) ids)) (seq 0 n))
  = take (n * k) (drop c ids).
Proof.
  induction n as [|n IH]; intros c; [done|].
  cbn [seq map concat]. rewrite <- seq_shift, map_map.
  rewrite (map_ext _ (fun i => take k (drop ((c + k) + i * k) ids))).
  2:{ intros i. f_equal. f_equal. lia. }
  rewrite IH. rewrite Nat.add_0_r.
  rewrite <- drop_drop. cbn [Nat.mul]. apply take_take_drop.
Qed.

(** [n] calls of [Scan] in closed form. *)
Lemma Scan_calls_spec n : forall st result,
  STANDARD_VECTOR_SIZE < IDX_MODULUS ->
  total_rows st = N.of_nat (length (row_ids st)) ->
  current_row st <= total_rows st ->
  total_rows st < IDX_MODULUS ->
  (N.to_nat STANDARD_VECTOR_SIZE <= length result)%nat ->
  exists result',
    Scan_calls n st result =
    Some (map (fun i => take (N.to_nat STANDARD_VECTOR_SIZE)
                          (drop (N.to_nat (current_row st)
                                 + i * N.to_nat STANDARD_VECTOR_SIZE) (row_ids st)))
              (seq 0 n),
          mkScanState
            (N.min (current_row st + N.of_nat n * STANDARD_VECTOR_SIZE) (total_rows st))
            (total_rows st) (row_ids st),
          result')
    /\ length result' = length result.
Proof.
  induction n as [|n IH]; intros [cur total ids] result Hsvs Htot Hcur Hlt Hres;
    cbn [current_row total_rows row_ids] in *.
  - eexists. split; [|reflexivity]. cbn [Scan_calls seq map].
    change (N.of_nat 0) with 0. by rewrite N.mul_0_l, N.add_0_r, N.min_l by lia.
  - cbn [Scan_calls]. rewrite Scan_spec by done.
    cbn [current_row total_rows row_ids].
    set (n1 := N.min STANDARD_VECTOR_SIZE (total - cur)).
    set (result1 := take (N.to_nat n1) (drop (N.to_nat cur) ids)
                    ++ drop (N.to_nat n1) result).
    assert (Hres1 : (N.to_nat STANDARD_VECTOR_SIZE <= length result1)%nat).
    { unfold result1. rewrite length_app, length_take, !length_drop. lia. }
    destruct (IH (mkScanState (cur + n1) total ids) result1 Hsvs Htot
                ltac:(cbn; lia) Hlt Hres1) as (result' & Hrun & Hlen).
    cbn [current_row total_rows row_ids] in Hrun.
    rewrite Hrun. eexists. split.
    2:{ rewrite Hlen. unfold result1.
        rewrite length_app, length_take, !length_drop. lia. }
    f_equal. f_equal. f_equal.
    + cbn [seq map]. f_equal.
      * unfold result1.
        rewrite take_app_le by (rewrite length_take, length_drop; lia).
        rewrite take_take, Nat.min_id.
        replace (N.to_nat cur + 0 * N.to_nat STANDARD_VECTOR_SIZE)%nat
          with (N.to_nat cur) by lia.
        destruct (decide (STANDARD_VECTOR_SIZE <= total - cur)) as [Hk|Hk].
        -- f_equal. lia.
        -- rewrite !take_ge by (rewrite length_drop; lia). done.
      * rewrite <- seq_shift, map_map. apply map_ext. intros i.
        replace (N.to_nat (cur + n1)) with (N.to_nat cur + N.to_nat n1)%nat by lia.
        apply (chunks_shift _ _ _ _ (length ids)); lia.
    + f_equal. lia.
Qed.

(** X1.  One call of [Scan] on a scan state whose [total_rows] is the length
    of its row identifiers pushes the next [min (STANDARD_VECTOR_SIZE,
    total_rows - current_row)] of them to the front of the result vector, in
    order, advances [current_row] by as many and returns that count; no
    access leaves an array.  On an exhausted scan it returns zero and writes
    nothing. *)
Theorem Scan_pushes_next_rows (scan_state : HNSWIndexScanState) (result : list Z) :
  STANDARD_VECTOR_SIZE < IDX_MODULUS ->
  total_rows scan_state = N.of_nat (length (row_ids scan_state)) ->
  current_row scan_state <= total_rows scan_state ->
  total_rows scan_state < IDX_MODULUS ->
  (N.to_nat STANDARD_VECTOR_SIZE <= length result)%nat ->
  let n := N.min STANDARD_VECTOR_SIZE
                 (total_rows scan_state - current_row scan_state) in
  Scan scan_state result =
    Some (n,
          mkScanState (current_row scan_state + n) (total_rows scan_state)
                      (row_ids scan_state),
          take (N.to_nat n) (drop (N.to_nat (current_row scan_state))
                                  (row_ids scan_state))
          ++ drop (N.to_nat n) result)
  /\ (current_row scan_state = total_rows scan_state ->
      Scan scan_state result = Some (0, scan_state, result)).
Proof.
  intros Hsvs Htot Hcur Hlt Hres n.
  split; [exact (Scan_spec _ _ Hsvs Htot Hcur Hlt Hres)|].
  intros Heq. rewrite Scan_spec by done.
  destruct scan_state as [cur total ids]. cbn [current_row total_rows row_ids] in *.
  subst cur. rewrite N.sub_diag, N.min_0_r, N.add_0_r. change (N.to_nat 0) with 0%nat.
  by rewrite take_0, drop_0, app_nil_l.
Qed.
End ScanTheory.

Section ScanSearch.
Context `{HostVector} `{GraphEngine}.

(** X2.  The calls of [Scan] that follow [InitializeScan] hand out the
    result of the search in order, [STANDARD_VECTOR_SIZE] rows at a time:
    the rows call [i] reports are rows [i * STANDARD_VECTOR_SIZE] and on of
    the search result.  Once the calls cover its length the rows reported,
    laid end to end, are the search result, and every further call returns
    zero. *)
Theorem Scan_returns_search_result (s : HNSWIndex.t) (query_vector : list scalar)
    (limit : N) (result : list Z) (n : nat) :
  let ids := e_search (index s) query_vector limit in
  STANDARD_VECTOR_SIZE < IDX_MODULUS ->
  N.of_nat (length ids) < IDX_MODULUS ->
  (N.to_nat STANDARD_VECTOR_SIZE <= length result)%nat ->
  exists scan_state s' chunks scan_state' result',
    InitializeScan query_vector limit s = (Normal scan_state, s')
    /\ Scan_calls n scan_state result = Some (chunks, scan_state', result')
    /\ chunks = map (fun i => take (N.to_nat STANDARD_VECTOR_SIZE)
                                (drop (i * N.to_nat STANDARD_VECTOR_SIZE) ids))
                    (seq 0 n)
    /\ ((length ids <= n * N.to_nat STANDARD_VECTOR_SIZE)%nat ->
        concat chunks = ids
        /\ Scan scan_state' result' = Some (0, scan_state', result')).
Proof.
  intros ids Hsvs Hlen Hres. rewrite InitializeScan_eq. fold ids.
  destruct (Scan_calls_spec n (mkScanState 0 (N.of_nat (length ids)) ids) result)
    as (result' & Hrun & Hlen'); cbn [current_row total_rows row_ids]; try done; try lia.
  cbn [current_row total_rows row_ids] in Hrun.
  eexists _, _, _, _, _. split; [reflexivity|]. split; [exact Hrun|].
  split; [done|]. intros Hcover. split.
  - change (N.to_nat 0) with 0%nat.
    rewrite (concat_chunks ids (N.to_nat STANDARD_VECTOR_SIZE) n 0).
    rewrite drop_0. by apply take_ge.
  - rewrite Scan_spec; cbn [current_row total_rows row_ids]; try done; try lia.
    assert (Hend : N.min (0 + N.of_nat n * STANDARD_VECTOR_SIZE) (N.of_nat (length ids))
                   = N.of_nat (length ids)) by lia.
    rewrite Hend, N.sub_diag, N.min_0_r, N.add_0_r. change (N.to_nat 0) with 0%nat.
    by rewrite take_0, drop_0, app_nil_l.
Qed.
End ScanSearch.

(** ** The lock discipline *)

(** A log that keeps the discipline ends with no lock held; inserts are
    allowed under the shared lock, removals under the exclusive one. *)
Lemma lock_discipline_app a : forall held b,
  lock_discipline held a = true ->
  lock_discipline held (a ++ b) = lock_discipline None b.
Proof.
  induction a as [|ev a IH]; intros held b Ha.
  - by destruct held.
  - destruct ev as [m|m| | | | | | | | | | ], held as [[]|]; cbn in Ha |- *;
      try done; try (destruct m; try done); try (by apply IH).
Qed.

Lemma lock_discipline_adds {A} (l : list (Z * A)) rest :
  lock_discipline (Some SharedLock) (map (fun r => CallAdd r.1) l ++ rest)
  = lock_discipline (Some SharedLock) rest.
Proof. induction l as [|r l IH]; [done|]. cbn. exact IH. Qed.

Lemma lock_discipline_removes (ids : list Z) rest :
  lock_discipline (Some ExclusiveLock) (map CallRemove ids ++ rest)
  = lock_discipline (Some ExclusiveLock) rest.
Proof. induction ids as [|r l IH]; [done|]. cbn. exact IH. Qed.

Section Locks.
Context `{HostStorage} `{GraphEngine}.

Lemma Construct_keeps_lock_discipline input thread_idx :
  keeps_lock_discipline (Construct input thread_idx).
Proof.
  intros s. rewrite Construct_eq. cbv zeta. cbn [snd log].
  eexists. split; [reflexivity|].
  cbn [lock_discipline app restructures negb andb].
  destruct (_ <? _); cbn [lock_discipline app restructures negb andb];
    by rewrite lock_discipline_adds.
Qed.

Lemma PersistToDisk_keeps_lock_discipline : keeps_lock_discipline PersistToDisk.
Proof.
  intros s. destruct (is_dirty s) eqn:Hd.
  - rewrite PersistToDisk_dirty by done.
    destruct (save_to_stream _ _ _) as [[r [a' w']]|]; cbn [snd log];
      eexists; (split; [reflexivity|done]).
  - rewrite PersistToDisk_clean by done. cbn [snd log].
    eexists. split; [reflexivity|done].
Qed.

Lemma make_lock_discipline constraint cfg info estimated_cardinality :
  lock_discipline None (log (make constraint cfg info estimated_cardinality).2) = true.
Proof.
  destruct constraint; try done.
  destruct info as [info|]; [|by rewrite make_new].
  destruct (allocator_infos info) as [|ai [|ai' ais]] eqn:Hinfos.
  - unfold make. rewrite Hinfos. reflexivity.
  - rewrite (make_load _ _ ai) by done.
    destruct (buffer_ids ai); [done|].
    by destruct (load_from_stream _ _ _) as [[e' r']|].
  - unfold make. rewrite Hinfos. reflexivity.
Qed.

(** X3.  Every operation keeps the lock discipline, however it ends (it
    returns, it throws, or a codec loop is cut off): what the constructor,
    [InitializeScan], [CommitDrop], [Construct], [Insert], [Append],
    [Compact], [Delete], [PersistToDisk] and [GetStorageInfo] add to the log
    takes no lock while one is held, releases every lock it takes, makes
    every call on the engine under a lock, and makes the calls that change
    the structure of the engine (reserve, remove, compact, reset, load) under
    the exclusive lock.  Operations that keep the discipline keep it when
    one follows the other. *)
Theorem lock_discipline_kept :
  (forall constraint cfg info estimated_cardinality,
     lock_discipline None
       (log (make constraint cfg info estimated_cardinality).2) = true)
  /\ (forall query_vector limit,
        keeps_lock_discipline (InitializeScan query_vector limit))
  /\ keeps_lock_discipline CommitDrop
  /\ (forall input thread_idx, keeps_lock_discipline (Construct input thread_idx))
  /\ (forall input, keeps_lock_discipline (Insert input))
  /\ (forall entries, keeps_lock_discipline (Append entries))
  /\ keeps_lock_discipline Compact
  /\ (forall row_ids, keeps_lock_discipline (Delete row_ids))
  /\ keeps_lock_discipline PersistToDisk
  /\ (forall get_buffers, keeps_lock_discipline (GetStorageInfo get_buffers))
  /\ (forall (A B : Type) (op : M A) (next : A -> M B),
        keeps_lock_discipline op -> (forall a, keeps_lock_discipline (next a)) ->
        keeps_lock_discipline (bind op next)).
Proof.
  split; [apply make_lock_discipline|].
  split. { intros q limit s. rewrite InitializeScan_eq. eexists. split; [reflexivity|done]. }
  split. { intros s. rewrite CommitDrop_eq. eexists. split; [reflexivity|done]. }
  split; [apply Construct_keeps_lock_discipline|].
  split; [intros input; apply Construct_keeps_lock_discipline|].
  split; [intros input; apply Construct_keeps_lock_discipline|].
  split.
  { intros s. rewrite Compact_eq. cbn [snd log]. eexists. split; [reflexivity|].
    by destruct (e_compact (index s)).1. }
  split.
  { intros ids s. rewrite Delete_eq. cbn [snd log]. eexists. split; [reflexivity|].
    cbn [lock_discipline app]. by rewrite lock_discipline_removes. }
  split; [apply PersistToDisk_keeps_lock_discipline|].
  split.
  { intros gb s. destruct (PersistToDisk_keeps_lock_discipline s) as (ev & Hlog & Hev).
    exists ev. split; [|done]. rewrite <- Hlog. unfold GetStorageInfo, bind, gets, ret.
    by destruct (PersistToDisk s) as [[[]| |] s']. }
  intros A B op next Hop Hnext s. unfold bind.
  destruct (Hop s) as (ev & Hlog & Hev).
  destruct (op s) as [[a|e|] s'] eqn:Hrun; cbn [snd] in Hlog.
  - destruct (Hnext a s') as (ev' & Hlog' & Hev').
    exists (ev ++ ev'). rewrite Hlog', Hlog, app_assoc. split; [done|].
    by rewrite (lock_discipline_app _ _ _ Hev).
  - by exists ev.
  - by exists ev.
Qed.
End Locks.

(** The inserts of a batch are neither lock events nor reservations. *)
Lemma adds_no_lock_event {A} (l : list (Z * A)) ev :
  ev ∈ map (fun r => CallAdd r.1) l -> exists k, ev = CallAdd k.
Proof.
  intros Hin. apply list_elem_of_fmap in Hin as (r & -> & _). by eexists.
Qed.

Section FastPath.
Context `{GraphEngine}.

(** X4.  [Construct] takes the exclusive lock exactly when the cached
    element count after the batch exceeds the capacity of the engine, and
    it is then, and only then, that it reserves, for the next power of two
    of that count and nothing else.  When the batch fits, the rows are
    inserted into the engine as it was. *)
Theorem Construct_exclusive_lock_iff (s : HNSWIndex.t)
    (input : list (Z * list scalar)) (thread_idx : N) :
  let size := idx_add (index_size s) (N.of_nat (length input)) in
  exists events,
    log (Construct input thread_idx s).2 = log s ++ events
    /\ (Acquire ExclusiveLock ∈ events <-> e_capacity (index s) < size)
    /\ (CallReserve (NextPowerOfTwo size) ∈ events <-> e_capacity (index s) < size)
    /\ (forall n, CallReserve n ∈ events -> n = NextPowerOfTwo size)
    /\ (size <= e_capacity (index s) ->
        index (Construct input thread_idx s).2
        = (engine_add_rows (index s) input thread_idx).1.2).
Proof.
  intros size. rewrite Construct_eq. cbv zeta. fold size. cbn [snd log index].
  eexists. split; [reflexivity|].
  unfold engine_grown.
  destruct (N.ltb_spec (e_capacity (index s)) size) as [Hlt|Hge].
  - split; [split; [done|intros _; set_solver]|].
    split; [split; [done|intros _; set_solver]|].
    split; [|lia].
    intros n Hin.
    repeat (apply elem_of_app in Hin as [Hin|Hin]
            || apply elem_of_cons in Hin as [Hin|Hin]);
      try done; try (by apply elem_of_nil in Hin); try (by injection Hin).
    by apply adds_no_lock_event in Hin as [k Hk].
  - assert (Hno : forall ev,
              ev ∈ [Acquire SharedLock; CallCapacity; Release SharedLock] ++ [] ++
                   [Acquire SharedLock]
                   ++ map (fun r => CallAdd r.1) (rows_tried (index s) input thread_idx)
                   ++ [Release SharedLock] ->
              ev <> Acquire ExclusiveLock /\ forall n, ev <> CallReserve n).
    { intros ev Hin.
      repeat (apply elem_of_app in Hin as [Hin|Hin]
              || apply elem_of_cons in Hin as [Hin|Hin]);
        try (by apply elem_of_nil in Hin); try (by subst ev).
      apply adds_no_lock_event in Hin as [k ->]. done. }
    split; [split; [intros Hin; by destruct (Hno _ Hin)|lia]|].
    split.
    { split; [|lia]. intros Hin. destruct (Hno _ Hin) as [_ Hn].
      by destruct (Hn (NextPowerOfTwo size)). }
    split; [|done].
    intros n Hin. destruct (Hno _ Hin) as [_ Hn]. by destruct (Hn n).
Qed.
End FastPath.

(** ** Checkpoint, reload and drop *)

Section Reload.
Context `{HostStorage} {Hok : HostStorageOk} `{GraphEngine}.

(** X5.  Checkpoint and reload.  The descriptor [GetStorageInfo] returns
    for a dirty index, given to the constructor, makes it run the engine's
    loader on exactly the bytes the engine saved: when those bytes take the
    loader to an engine [e'], the constructor returns normally with [e'] as
    its engine, the element count of [e'] cached, the index clean, and the
    root pointer and blocks of the descriptor.  A second [GetStorageInfo]
    with no mutation in between returns the same descriptor. *)
Theorem checkpoint_reload (s : HNSWIndex.t) (get_buffers : bool)
    (cfg : EngineConfig) (estimated_cardinality : N) (e' : Engine) (rest : list byte) :
  is_dirty s = true ->
  root_block_ptr s = 0 \/ root_block_ptr s ∈ live (linked_block_allocator s) ->
  N.of_nat (length (concat (e_save (index s)))) < IDX_MODULUS ->
  feed (e_load (e_make cfg)) (concat (e_save (index s))) = Some (e', rest) ->
  exists info s' s'',
    GetStorageInfo get_buffers s = (Normal info, s')
    /\ (GetStorageInfo get_buffers s').1 = Normal info
    /\ make NONE cfg (Some info) estimated_cardinality = (Normal tt, s'')
    /\ index s'' = e'
    /\ index_size s'' = e_size e'
    /\ is_dirty s'' = false
    /\ root_block_ptr s'' = root_block_ptr s'
    /\ live (linked_block_allocator s'') = live (linked_block_allocator s').
Proof.
  intros Hdirty Hroot Hlen Hfeed.
  destruct (PersistToDisk_writes s Hdirty Hroot Hlen)
    as (a' & ps & cur & pos & Hrun & Hc & Hhead & Hlive).
  destruct (chain_sees _ _ _ _ _ Hc) as (p & Hp & Hsees).
  rewrite Hhead in Hp. injection Hp as <-.
  destruct (load_from_stream_feed (e_load (e_make cfg)) (Init (GetInfo a'))
              (persist_root s).1 (persist_root s).1 0 _ e' rest Hsees Hlen Hfeed)
    as (reader' & Hload).
  eexists _, _, _. split.
  { apply GetStorageInfo_eq. exact Hrun. }
  split.
  { match goal with
    | |- (GetStorageInfo _ ?x).1 = _ =>
      rewrite (GetStorageInfo_eq get_buffers x _ (PersistToDisk_clean x eq_refl))
    end. reflexivity. }
  rewrite (make_load _ _ (GetInfo a')) by done.
  destruct (buffer_ids (GetInfo a')) as [|b bs] eqn:Hel.
  { cbn in Hel. apply elements_empty_inv in Hel. apply leibniz_equiv in Hel.
    rewrite Hel in Hlive. by apply not_elem_of_empty in Hlive. }
  cbn [root root_block_ptr].
  change (LinkedBlockReader.make (persist_root s).1)
    with (LinkedBlockReader.mk (persist_root s).1 (persist_root s).1 (N.of_nat 0)).
  rewrite Hload. split; [reflexivity|].
  cbn [log index index_size is_dirty root_block_ptr linked_block_allocator].
  repeat split; try done.
  cbn [Init GetInfo live buffer_ids].
  apply leibniz_equiv. apply list_to_set_elements.
Qed.
End Reload.

Section Blocks.
Context `{HostStorage} {Hok : HostStorageOk} `{GraphEngine}.

(** The blocks a checkpoint of a dirty index takes. *)
Lemma PersistToDisk_blocks s :
  is_dirty s = true ->
  root_block_ptr s = 0 \/ root_block_ptr s ∈ live (linked_block_allocator s) ->
  N.of_nat (length (concat (e_save (index s)))) < IDX_MODULUS ->
  exists a' cur pos new,
    PersistToDisk s =
    (Normal tt,
     mk (index s) (index_size s) false (persist_root s).1 a'
        (log s ++ [Acquire ExclusiveLock; CallSave; Release ExclusiveLock]))
    /\ chain (arena a') ((persist_root s).1 :: new) (concat (e_save (index s))) cur pos
    /\ NoDup new
    /\ live a' = list_to_set new ∪ live (persist_root s).2
    /\ (forall q, q ∈ new -> q ∉ live (persist_root s).2).
Proof.
  intros Hdirty Hroot Hlen.
  rewrite PersistToDisk_dirty by done.
  set (root' := (persist_root s).1). set (a0 := (persist_root s).2).
  assert (Hin : root' ∈ live a0).
  { unfold root', a0, persist_root.
    destruct (N.eqb_spec (root_block_ptr s) 0) as [Hz|Hnz]; cbn.
    - set_solver.
    - by destruct Hroot. }
  pose proof (Reset_chain a0 root') as Hc0.
  destruct (save_to_stream_chain (e_save (index s)) _ root' root' 0 [root'] [] Hc0)
    as (a' & cur' & pos' & new & Hrun & Hc & Hnd & Hlv & Hnew).
  { apply NoDup_singleton. }
  { intros q ->%list_elem_of_singleton. done. }
  { intros piece Hp. apply concat_piece_length in Hp. lia. }
  change (LinkedBlockWriter.Reset a0 (LinkedBlockWriter.make root'))
    with ((LinkedBlockWriter.Reset a0 (LinkedBlockWriter.make root')).1,
          LinkedBlockWriter.mk root' root' (N.of_nat 0)).
  rewrite Hrun. exists a', cur', pos', new.
  split; [done|]. split; [done|].
  split. { by apply NoDup_cons in Hnd as [_ ?]. }
  split; done.
Qed.

(** X6.  A checkpoint never gives a block back.  [PersistToDisk] on a
    dirty index keeps every block in use, keeps the root block it has, and
    takes one new block for every full payload of the stream (and one for
    the root when there was none), also when an earlier checkpoint had
    taken blocks for a stream as long: the blocks of the earlier chain
    behind the root stay in use and are not written again. *)
Theorem PersistToDisk_never_frees (s : HNSWIndex.t) :
  is_dirty s = true ->
  root_block_ptr s = 0 \/ root_block_ptr s ∈ live (linked_block_allocator s) ->
  N.of_nat (length (concat (e_save (index s)))) < IDX_MODULUS ->
  exists s',
    PersistToDisk s = (Normal tt, s')
    /\ live (linked_block_allocator s) ⊆ live (linked_block_allocator s')
    /\ size (live (linked_block_allocator s'))
       = (size (live (linked_block_allocator s))
          + (if (root_block_ptr s =? 0)%N then 1 else 0)
          + length (concat (e_save (index s))) / payload)%nat
    /\ (root_block_ptr s <> 0 -> root_block_ptr s' = root_block_ptr s).
Proof.
  intros Hdirty Hroot Hlen.
  destruct (PersistToDisk_blocks s Hdirty Hroot Hlen)
    as (a' & cur & pos & new & Hrun & Hc & Hnd & Hlv & Hnew).
  eexists. split; [exact Hrun|]. cbn [linked_block_allocator root_block_ptr].
  assert (Hcount : length new = (length (concat (e_save (index s))) / payload)%nat).
  { destruct (chain_shape _ _ _ _ _ Hc) as (_ & Hpos & Hlen' & _).
    cbn [length] in Hlen'.
    apply (Nat.div_unique _ _ _ pos); [done|]. lia. }
  assert (Hsize : size (live a')
                  = (length new + size (live (persist_root s).2))%nat).
  { rewrite Hlv, size_union by set_solver. by rewrite size_list_to_set. }
  unfold persist_root in *.
  destruct (N.eqb_spec (root_block_ptr s) 0) as [Hz|Hnz];
    cbn [fst snd New live] in *.
  - split; [set_solver|]. split; [|done].
    rewrite Hsize, size_union, size_singleton by
      (pose proof (next_segment_fresh (live (linked_block_allocator s))); set_solver).
    lia.
  - split; [set_solver|]. split; [|done]. lia.
Qed.
End Blocks.

Section Drop.
Context `{HostStorage} {Hok : HostStorageOk} `{GraphEngine}.

(** X7.  Drop, then checkpoint.  [CommitDrop] resets the engine, the
    cached count, the allocator and the root pointer, and leaves [is_dirty]
    as it was.  So the checkpoint that follows the drop of a clean index
    writes nothing and describes an index without root and without blocks,
    while the one that follows the drop of a dirty index takes a root block
    from the emptied allocator and writes the reset engine to it. *)
Theorem CommitDrop_then_checkpoint (s : HNSWIndex.t) (get_buffers : bool) :
  let s1 := (CommitDrop s).2 in
  ((CommitDrop s).1 = Normal tt
   /\ index s1 = e_reset (index s) /\ index_size s1 = 0
   /\ root_block_ptr s1 = 0 /\ live (linked_block_allocator s1) = ∅
   /\ is_dirty s1 = is_dirty s)
  /\ (is_dirty s = false ->
      exists info s2 allocator_info,
        GetStorageInfo get_buffers s1 = (Normal info, s2)
        /\ root info = 0
        /\ allocator_infos info = [allocator_info]
        /\ buffer_ids allocator_info = []
        /\ log s2 = log s1 ++ [Acquire ExclusiveLock; Release ExclusiveLock])
  /\ (is_dirty s = true ->
      N.of_nat (length (concat (e_save (e_reset (index s))))) < IDX_MODULUS ->
      exists info s2 allocator_info,
        GetStorageInfo get_buffers s1 = (Normal info, s2)
        /\ root info = next_segment ∅
        /\ allocator_infos info = [allocator_info]
        /\ root info ∈ buffer_ids allocator_info
        /\ log s2 = log s1 ++ [Acquire ExclusiveLock; CallSave; Release ExclusiveLock]
        /\ is_dirty s2 = false).
Proof.
  intros s1. unfold s1. rewrite CommitDrop_eq. cbn [fst snd].
  split; [done|]. split.
  - intros Hclean. rewrite Hclean.
    eexists _, _, _. split.
    { apply GetStorageInfo_eq. by apply PersistToDisk_clean. }
    cbn [root allocator_infos root_block_ptr linked_block_allocator log].
    split; [done|]. split; [done|]. split; [|done].
    cbn. apply elements_empty.
  - intros Hdirty Hlen. rewrite Hdirty.
    set (s0 := mk (e_reset (index s)) 0 true 0
                  (FixedSizeAllocator_Reset (linked_block_allocator s))
                  (log s ++ [Acquire ExclusiveLock; CallReset; Release ExclusiveLock])).
    destruct (PersistToDisk_writes s0 eq_refl (or_introl eq_refl) Hlen)
      as (a' & ps & cur & pos & Hrun & Hc & Hhead & Hlive).
    eexists _, _, _. split.
    { apply GetStorageInfo_eq. exact Hrun. }
    cbn [root allocator_infos root_block_ptr linked_block_allocator log is_dirty].
    split; [done|]. split; [done|]. split; [|done].
    cbn. by apply elem_of_elements.
Qed.
End Drop.

Section LoadTotal.
Context `{HostStorage} {Hok : HostStorageOk}.

(** The reader's offset stays a 64-bit value. *)
Lemma ReadData_loop_position fuel : forall a r buffer len br n r' buffer',
  LinkedBlockReader.ReadData_loop fuel a r buffer len br = Some (n, r', buffer') ->
  LinkedBlockReader.position_in_block r < IDX_MODULUS ->
  LinkedBlockReader.position_in_block r' < IDX_MODULUS.
Proof.
  induction fuel as [|fuel IH]; intros a r buffer len br n r' buffer' Hrun Hpos.
  - cbn in Hrun. destruct (br <? len); [done|]. by injection Hrun as _ <- _.
  - destruct (N.lt_ge_cases br len) as [Hlt|Hge].
    + rewrite ReadData_loop_unfold in Hrun by done. cbv zeta in Hrun.
      destruct (_ =? _); apply IH in Hrun; try done;
        cbn [LinkedBlockReader.position_in_block];
        first [apply idx_add_bound | done].
    + rewrite ReadData_loop_done in Hrun by done. by injection Hrun as _ <- _.
Qed.

Context `{GraphEngine}.

(** A bounded dialogue always comes to its end: the callback answers every
    request. *)
Lemma load_from_stream_total (l : Loader Engine) :
  loader_bounded l ->
  forall a reader,
    LinkedBlockReader.position_in_block reader < IDX_MODULUS ->
    exists e' reader', load_from_stream l (load_callback a) reader = Some (e', reader').
Proof.
  induction 1 as [e|size k Hsize Hk IH]; intros a reader Hpos.
  - by eexists _, _.
  - cbn [load_from_stream]. unfold load_callback at 1, LinkedBlockReader.ReadData.
    destruct (ReadData_loop_count (LinkedBlockReader.loop_fuel size) a reader
                (replicate (N.to_nat size) x00) size 0)
      as (r' & buffer' & Hrun); try done; try lia.
    { unfold LinkedBlockReader.loop_fuel. destruct (_ =? _); lia. }
    rewrite Hrun. apply IH.
    by eapply ReadData_loop_position.
Qed.

(** X8.  The constructor takes every descriptor.  With one allocator
    entry in the descriptor the constructor returns normally whatever the
    root pointer and the blocks are; the result of [load_from_stream] is not
    looked at.  The index starts clean, with the root pointer and the
    allocator of the descriptor, and with the element count of the engine
    cached.  Without a written block the engine is the one the options
    make; with one, it is the engine the loader makes of the bytes in front
    of the root pointer, each of its requests answered in full and with
    true. *)
Theorem make_accepts_every_descriptor (cfg : EngineConfig) (info : IndexStorageInfo)
    (allocator_info : FixedSizeAllocatorInfo) (estimated_cardinality : N) :
  allocator_infos info = [allocator_info] ->
  loader_bounded (e_load (e_make cfg)) ->
  exists s,
    make NONE cfg (Some info) estimated_cardinality = (Normal tt, s)
    /\ root_block_ptr s = root info
    /\ linked_block_allocator s = Init allocator_info
    /\ is_dirty s = false
    /\ index_size s = e_size (index s)
    /\ (buffer_ids allocator_info = [] -> index s = e_make cfg)
    /\ (buffer_ids allocator_info <> [] ->
        sized (persisted allocator_info) ->
        index s = served (persisted allocator_info) (e_load (e_make cfg)) (root info) 0).
Proof.
  intros Hinfo Hbounded. rewrite (make_load _ _ allocator_info) by done.
  destruct (buffer_ids allocator_info) as [|b bs]; [by eexists|].
  destruct (load_from_stream_total _ Hbounded (Init allocator_info)
              (LinkedBlockReader.make (root info))) as (e' & reader' & Hload).
  { unfold IDX_MODULUS. cbn. lia. }
  rewrite Hload. eexists. split; [reflexivity|]. cbn [index].
  repeat split; try done.
  intros _ Hsized.
  destruct (load_from_stream_served _ Hbounded (Init allocator_info) (root info)
              (root info) 0%nat Hsized payload_pos) as (reader'' & Hserved).
  unfold LinkedBlockReader.make in Hload. change (N.of_nat 0) with 0 in Hserved.
  rewrite Hload in Hserved. by injection Hserved as -> _.
Qed.
End LoadTotal.

Section Drift.
Context `{GraphEngine} {Hlaws : GraphEngineLaws}.

(** The size of the engine after a batch: one element per row that went
    in. *)
Lemma engine_add_rows_size rows t : forall e,
  (forall e k v t w e', e_add e k v t = (Failure w, e') -> e_size e' = e_size e) ->
  e_size (engine_add_rows e rows t).1.2
  = e_size e + N.of_nat (length (engine_add_rows e rows t).2).
Proof.
  induction rows as [|[k v] rows IH]; intros e Hfail; cbn [engine_add_rows].
  - cbn. lia.
  - destruct (e_add e k v t) as [[|w] e1] eqn:Hadd.
    + specialize (IH e1 Hfail).
      destruct (engine_add_rows e1 rows t) as [[r e2] done]. cbn in *.
      rewrite IH. pose proof (e_add_success _ _ _ _ _ Hadd) as Hp.
      rewrite (e_size_keys e1), Hp, (e_size_keys e). cbn [length]. lia.
    + cbn. rewrite (Hfail _ _ _ _ _ _ Hadd). lia.
Qed.

(** X9.  A failed batch insert leaves the cached element count ahead.
    With an engine in which a failed insert adds no element: after a
    [Construct] that raises, the engine holds the rows that went in before
    the failing one, fewer than the batch, but [index_size] was advanced by
    the whole batch, so it exceeds the size of the engine.  The next
    [Delete], of whatever rows, sets it back to the size of the engine. *)
Theorem Construct_failure_cache_drift (s : HNSWIndex.t)
    (input : list (Z * list scalar)) (thread_idx : N) (what : string) :
  let e1 := engine_grown (index s)
              (idx_add (index_size s) (N.of_nat (length input))) in
  (forall e k v t w e', e_add e k v t = (Failure w, e') -> e_size e' = e_size e) ->
  index_size s = e_size (index s) ->
  e_size (index s) + N.of_nat (length input) < IDX_MODULUS ->
  (engine_add_rows e1 input thread_idx).1.1 = Failure what ->
  exists s' (added : list (Z * list scalar)),
    Construct input thread_idx s
    = (Raised (InternalException ("Failed to add to the HNSW index: " ++ what)), s')
    /\ added = (engine_add_rows e1 input thread_idx).2
    /\ (length added < length input)%nat
    /\ e_size (index s') = e_size (index s) + N.of_nat (length added)
    /\ index_size s' = e_size (index s) + N.of_nat (length input)
    /\ e_size (index s') < index_size s'
    /\ (forall row_ids,
          index_size (Delete row_ids s').2 = e_size (index (Delete row_ids s').2)).
Proof.
  intros e1 Hfail Hinv Hfit Hres. rewrite Construct_eq. cbv zeta.
  fold e1. rewrite Hres. cbn [add_outcome].
  destruct (engine_add_rows_failure input thread_idx what e1 Hres)
    as (failed & rest & Hsplit & _ & _).
  pose proof (engine_add_rows_size input thread_idx e1 Hfail) as Hsize.
  assert (Hkeep : e_size e1 = e_size (index s)).
  { apply e_size_perm. unfold e1. by rewrite engine_grown_keys. }
  assert (Hdone : (length (engine_add_rows e1 input thread_idx).2 < length input)%nat).
  { rewrite Hsplit at 2. rewrite length_app. cbn [length]. lia. }
  eexists _, (engine_add_rows e1 input thread_idx).2. split; [reflexivity|].
  cbn [index index_size].
  split; [done|]. split; [done|]. split; [by rewrite Hsize, Hkeep|].
  split; [by rewrite Hinv, idx_add_small by lia|].
  split.
  { rewrite Hsize, Hkeep, Hinv, idx_add_small by lia. lia. }
  intros ids. by rewrite Delete_eq.
Qed.
End Drift.

(** ** The codec behind and between streams *)

Section Tails.
Context `{HostStorage} {Hok : HostStorageOk}.

(** Behind the stream the last block of a chain holds zeros. *)
Lemma chain_sees_padded m ps s cur pos (j : nat) :
  chain m ps s cur pos -> (pos + j < payload)%nat ->
  exists p, head ps = Some p /\ sees m p 0 (s ++ replicate j x00).
Proof.
  induction 1 as [p s junk Hs Hd Hn|p q ps d junk s cur pos Hd Hdata Hn Hc IH];
    intros Hj.
  - exists p. split; [done|].
    eapply (sees_last_at _ _ _ [] _ (replicate (payload - length s - j) x00 ++ junk)).
    + rewrite Hd. cbn [app]. rewrite <- !app_assoc. f_equal.
      rewrite (app_assoc (replicate j x00)), <- replicate_add. do 2 f_equal. lia.
    + done.
    + rewrite length_app, length_replicate. simpl. lia.
  - destruct (IH Hj) as (q' & Hq & Hsees). simpl in Hq. injection Hq as <-.
    exists p. split; [done|]. rewrite <- app_assoc.
    pose proof payload_pos.
    eapply (sees_full_at _ _ _ [] d junk); simpl; try done; try lia.
    by rewrite Hn.
Qed.

(** What [Reset] and [WriteData] leave: a chain from the root that holds
    the stream. *)
Lemma written_sees a root stream :
  root ∈ live a -> N.of_nat (length stream) < IDX_MODULUS ->
  exists a' w' ps cur pos,
    LinkedBlockWriter.WriteData
      (LinkedBlockWriter.Reset a (LinkedBlockWriter.make root)).1
      (LinkedBlockWriter.Reset a (LinkedBlockWriter.make root)).2
      stream (N.of_nat (length stream)) = Some (a', w')
    /\ chain (arena a') (root :: ps) stream cur pos.
Proof.
  intros Hroot Hlen.
  pose proof (Reset_chain a root) as Hc0.
  destruct (WriteData_chain _ root root 0 [root] [] stream Hc0)
    as (a' & cur' & pos' & new & Hrun & Hc & _); try done.
  { apply NoDup_singleton. }
  { intros q ->%list_elem_of_singleton. done. }
  by eexists a', _, new, cur', pos'.
Qed.

(** X10.  Behind the stream the last block holds zeros.  After [Reset]
    and [WriteData] of a stream, on whatever the blocks held before, a read
    that goes on past the end of the stream, short of the end of the last
    block, returns the stream followed by zero bytes: nothing an earlier,
    longer stream left in the block is read. *)
Theorem ReadData_behind_stream_zeros (a : FixedSizeAllocator) (root : N)
    (stream dst : list byte) (j : nat) :
  root ∈ live a ->
  N.of_nat (length stream + j) < IDX_MODULUS ->
  (length stream mod payload + j < payload)%nat ->
  (length stream + j <= length dst)%nat ->
  exists a' w' r',
    LinkedBlockWriter.WriteData
      (LinkedBlockWriter.Reset a (LinkedBlockWriter.make root)).1
      (LinkedBlockWriter.Reset a (LinkedBlockWriter.make root)).2
      stream (N.of_nat (length stream)) = Some (a', w')
    /\ LinkedBlockReader.ReadData a' (LinkedBlockReader.make root) dst
         (N.of_nat (length stream + j))
       = Some (N.of_nat (length stream + j), r',
               stream ++ replicate j x00 ++ drop (length stream + j) dst).
Proof.
  intros Hroot Hlen Hj Hdst.
  destruct (written_sees a root stream Hroot) as (a' & w' & ps & cur & pos & Hrun & Hc);
    [lia|].
  assert (Hpos : pos = (length stream mod payload)%nat).
  { destruct (chain_shape _ _ _ _ _ Hc) as (_ & Hpos & Hlen' & _).
    apply (Nat.mod_unique _ _ (length (root :: ps) - 1)); [done|]. lia. }
  destruct (chain_sees_padded _ _ _ _ _ j Hc) as (p & Hp & Hsees); [lia|].
  injection Hp as <-.
  destruct (ReadData_loop_sees a' root 0 _ Hsees (length stream + j)
              (LinkedBlockReader.loop_fuel (N.of_nat (length stream + j))) root dst
              (N.of_nat (length stream + j)) 0)
    as (p' & pos'' & Hread & _); try done; try lia.
  { rewrite length_app, length_replicate. lia. }
  { unfold LinkedBlockReader.loop_fuel. lia. }
  eexists a', _, _. split; [exact Hrun|].
  unfold LinkedBlockReader.ReadData, LinkedBlockReader.make.
  change 0 with (N.of_nat 0) at 1. rewrite Hread. simpl.
  rewrite take_ge by (rewrite length_app, length_replicate; lia).
  by rewrite <- app_assoc.
Qed.

(** X11.  Reads that follow one another return consecutive parts of the
    stream: the reader keeps its place between two calls of [ReadData],
    also across a block boundary. *)
Theorem ReadData_consecutive (a : FixedSizeAllocator) (root : N)
    (part1 part2 dst1 dst2 : list byte) :
  root ∈ live a ->
  N.of_nat (length (part1 ++ part2)) < IDX_MODULUS ->
  (length part1 <= length dst1)%nat ->
  (length part2 <= length dst2)%nat ->
  exists a' w' r1 r2,
    LinkedBlockWriter.WriteData
      (LinkedBlockWriter.Reset a (LinkedBlockWriter.make root)).1
      (LinkedBlockWriter.Reset a (LinkedBlockWriter.make root)).2
      (part1 ++ part2) (N.of_nat (length (part1 ++ part2))) = Some (a', w')
    /\ LinkedBlockReader.ReadData a' (LinkedBlockReader.make root) dst1
         (N.of_nat (length part1))
       = Some (N.of_nat (length part1), r1, part1 ++ drop (length part1) dst1)
    /\ LinkedBlockReader.ReadData a' r1 dst2 (N.of_nat (length part2))
       = Some (N.of_nat (length part2), r2, part2 ++ drop (length part2) dst2).
Proof.
  intros Hroot Hlen Hdst1 Hdst2. rewrite length_app in Hlen.
  destruct (written_sees a root (part1 ++ part2) Hroot)
    as (a' & w' & ps & cur & pos & Hrun & Hc); [rewrite length_app; lia|].
  destruct (chain_sees _ _ _ _ _ Hc) as (p & Hp & Hsees). injection Hp as <-.
  destruct (ReadData_loop_sees a' root 0 _ Hsees (length part1)
              (LinkedBlockReader.loop_fuel (N.of_nat (length part1))) root dst1
              (N.of_nat (length part1)) 0)
    as (p1 & pos1 & Hread1 & Hsees1); try done; try lia.
  { rewrite length_app. lia. }
  { unfold LinkedBlockReader.loop_fuel. lia. }
  rewrite drop_app_length in Hsees1.
  destruct (ReadData_loop_sees a' p1 pos1 _ Hsees1 (length part2)
              (LinkedBlockReader.loop_fuel (N.of_nat (length part2))) root dst2
              (N.of_nat (length part2)) 0)
    as (p2 & pos2 & Hread2 & _); try done; try lia.
  { unfold LinkedBlockReader.loop_fuel. lia. }
  eexists a', _, _, _. split; [exact Hrun|].
  unfold LinkedBlockReader.ReadData, LinkedBlockReader.make.
  change 0 with (N.of_nat 0) at 1. rewrite Hread1. split.
  - simpl. rewrite take_app_length. done.
  - rewrite Hread2. simpl. by rewrite take_ge by lia.
Qed.
End Tails.

(** ** Metrics and creation options *)

(** Lower case, and lookups that do not see the case of a key. *)
Lemma tolower_idemp c : tolower (tolower c) = tolower c.
Proof. destruct c as [[] [] [] [] [] [] [] []]; reflexivity. Qed.

Lemma StringUtil_Lower_idemp s : StringUtil_Lower (StringUtil_Lower s) = StringUtil_Lower s.
Proof. induction s as [|c s IH]; [done|]. cbn. by rewrite tolower_idemp, IH. Qed.

Lemma case_insensitive_find_lower {V} (m : list (string * V)) key :
  case_insensitive_find (map (fun kv => (StringUtil_Lower kv.1, kv.2)) m) key
  = case_insensitive_find m key.
Proof.
  induction m as [|[k v] m IH]; [done|]. cbn.
  by rewrite StringUtil_Lower_idemp, IH.
Qed.

Lemma case_insensitive_find_key_lower {V} (m : list (string * V)) key :
  case_insensitive_find m (StringUtil_Lower key) = case_insensitive_find m key.
Proof.
  induction m as [|[k v] m IH]; [done|]. cbn.
  by rewrite StringUtil_Lower_idemp, IH.
Qed.

Lemma case_insensitive_find_other {V} (pre post : list (string * V)) k v key :
  StringUtil_Lower k <> StringUtil_Lower key ->
  case_insensitive_find (pre ++ (k, v) :: post) key
  = case_insensitive_find (pre ++ post) key.
Proof.
  intros Hne. induction pre as [|[k' v'] pre IH]; cbn.
  - by destruct (String.eqb_spec (StringUtil_Lower k) (StringUtil_Lower key)).
  - by rewrite IH.
Qed.

(** The three entries of [METRIC_KIND_MAP]. *)
Lemma METRIC_KIND_MAP_find name kind :
  case_insensitive_find METRIC_KIND_MAP name = Some kind ->
  (StringUtil_Lower name = "l2sq"%string /\ kind = metric_kind_t.l2sq_k)
  \/ (StringUtil_Lower name = "cosine"%string /\ kind = metric_kind_t.cos_k)
  \/ (StringUtil_Lower name = "ip"%string /\ kind = metric_kind_t.ip_k).
Proof.
  unfold METRIC_KIND_MAP. cbn [case_insensitive_find].
  change (StringUtil_Lower "l2sq") with "l2sq"%string.
  change (StringUtil_Lower "cosine") with "cosine"%string.
  change (StringUtil_Lower "ip") with "ip"%string.
  destruct (String.eqb_spec "l2sq" (StringUtil_Lower name)) as [<-|_];
    [intros [= <-]; by left|].
  destruct (String.eqb_spec "cosine" (StringUtil_Lower name)) as [<-|_];
    [intros [= <-]; right; by left|].
  destruct (String.eqb_spec "ip" (StringUtil_Lower name)) as [<-|_];
    [intros [= <-]; right; by right|done].
Qed.

Ltac distance_function_cases name :=
  destruct (String.eqb_spec name "array_distance");
  [subst name
  |destruct (String.eqb_spec name "array_cosine_similarity");
   [subst name
   |destruct (String.eqb_spec name "array_inner_product"); [subst name|]]].

Section Metrics.
Context `{HostStorage} `{GraphEngine} `{!GraphEngineMetric} `{HostValue}.

(** X12.  Distance functions and metrics.  [MatchesDistanceFunction]
    changes nothing and accepts only names [IsDistanceFunction] accepts; an
    index matches at most one name; it matches one exactly when
    [GetMetric] can name its metric; and every name [IsDistanceFunction]
    accepts is the one of some metric. *)
Theorem distance_function_of_metric (s : HNSWIndex.t) :
  (forall name, exists b,
     MatchesDistanceFunction name s = (Normal b, s)
     /\ (b = true -> IsDistanceFunction name = true))
  /\ (forall name name',
        (MatchesDistanceFunction name s).1 = Normal true ->
        (MatchesDistanceFunction name' s).1 = Normal true -> name = name')
  /\ ((exists name, (MatchesDistanceFunction name s).1 = Normal true)
      <-> (exists metric, GetMetric s = (Normal metric, s)))
  /\ (forall name,
        IsDistanceFunction name = true ->
        exists kind, forall s',
          e_metric_kind (index s') = kind ->
          (MatchesDistanceFunction name s').1 = Normal true).
Proof.
  unfold MatchesDistanceFunction, GetMetric, IsDistanceFunction, bind, gets, ret, throw.
  cbn [existsb orb].
  split; [|split; [|split]].
  - intros name. distance_function_cases name;
      destruct (e_metric_kind (index s)); cbn; eexists; (split; [reflexivity|]);
      done.
  - intros name name'.
    distance_function_cases name; distance_function_cases name';
      destruct (e_metric_kind (index s)); cbn; done.
  - split.
    + intros [name Hm]. revert Hm.
      destruct (e_metric_kind (index s)); cbn; try (intros _; by eexists);
        rewrite !andb_false_r; done.
    + intros [metric Hg]. revert Hg.
      destruct (e_metric_kind (index s)); try done; intros _.
      * by exists "array_distance"%string.
      * by exists "array_cosine_similarity"%string.
      * by exists "array_inner_product"%string.
  - intros name. distance_function_cases name; try done; intros _.
    + exists metric_kind_t.l2sq_k. by intros s' ->.
    + exists metric_kind_t.cos_k. by intros s' ->.
    + exists metric_kind_t.ip_k. by intros s' ->.
Qed.

Lemma GetMetric_find s name :
  (GetMetric s).1 = Normal name ->
  case_insensitive_find METRIC_KIND_MAP name = Some (e_metric_kind (index s)).
Proof.
  unfold GetMetric, bind, gets, ret, throw.
  destruct (e_metric_kind (index s)); cbn; try done; by intros [= <-].
Qed.

(** X13.  The name [GetMetric] returns is a key of [METRIC_KIND_MAP]
    that maps to the metric of the index; conversely a key that maps to the
    metric of the index is, in lower case, the name [GetMetric] returns;
    and [GetMetric] throws exactly for the metrics the map does not
    list. *)
Theorem metric_name_round_trip (s : HNSWIndex.t) :
  (forall name,
     (GetMetric s).1 = Normal name ->
     case_insensitive_find METRIC_KIND_MAP name = Some (e_metric_kind (index s)))
  /\ (forall name,
        case_insensitive_find METRIC_KIND_MAP name = Some (e_metric_kind (index s)) ->
        GetMetric s = (Normal (StringUtil_Lower name), s))
  /\ ((GetMetric s).1 = Raised (InternalException "Unknown metric kind") <->
      forall name,
        case_insensitive_find METRIC_KIND_MAP name <> Some (e_metric_kind (index s))).
Proof.
  split; [apply GetMetric_find|].
  unfold GetMetric, bind, gets, ret, throw. split.
  - intros name Hfind.
    destruct (METRIC_KIND_MAP_find _ _ Hfind) as [[-> ->]|[[-> ->]|[-> ->]]]; done.
  - split.
    + intros Hraise name Hfind.
      destruct (METRIC_KIND_MAP_find _ _ Hfind) as [[_ Hk]|[[_ Hk]|[_ Hk]]];
        rewrite Hk in Hraise; done.
    + intros Hnone. destruct (e_metric_kind (index s)); cbn; try done.
      * by destruct (Hnone "l2sq"%string).
      * by destruct (Hnone "cosine"%string).
      * by destruct (Hnone "ip"%string).
Qed.

(** X14.  The metric the constructor derives from the options.  Its
    dimension is the size of the column's array; its kind is always one
    [GetMetric] can name; when the [metric] option is, up to case, the name
    [GetMetric] returns for an index, it is the metric of that index;
    without the option, or with a value that is none of the three names,
    it is [l2sq_k] (no error is raised); and a child type outside
    [SCALAR_KIND_MAP] gives the scalar kind [f32_k]. *)
Theorem constructor_metric_of_options (vector_size : N)
    (vector_child_type : LogicalTypeId.t) (options : list (string * Value)) :
  let metric := constructor_metric vector_size vector_child_type options in
  dimensions metric = vector_size
  /\ (forall s, e_metric_kind (index s) = metric_kind metric ->
        exists name, GetMetric s = (Normal name, s))
  /\ (forall s name metric_kind_opt,
        GetMetric s = (Normal name, s) ->
        case_insensitive_find options "metric" = Some metric_kind_opt ->
        StringUtil_Lower (GetValue_string metric_kind_opt) = name ->
        metric_kind metric = e_metric_kind (index s))
  /\ (case_insensitive_find options "metric" = None ->
      metric_kind metric = metric_kind_t.l2sq_k)
  /\ (forall metric_kind_opt,
        case_insensitive_find options "metric" = Some metric_kind_opt ->
        StringUtil_Lower (GetValue_string metric_kind_opt)
          ∉ ["l2sq"; "cosine"; "ip"]%string ->
        metric_kind metric = metric_kind_t.l2sq_k)
  /\ (unordered_map_find SCALAR_KIND_MAP vector_child_type = None ->
      scalar_kind metric = scalar_kind_t.f32_k).
Proof.
  intros metric. unfold metric, constructor_metric. cbn [dimensions metric_kind scalar_kind].
  split; [done|]. split; [|split; [|split; [|split]]].
  - intros s Hkind. unfold GetMetric, bind, gets, ret, throw. rewrite Hkind.
    destruct (case_insensitive_find options "metric") as [v|]; [|by eexists].
    destruct (case_insensitive_find METRIC_KIND_MAP (GetValue_string v)) as [k|] eqn:Hk;
      [|by eexists].
    destruct (METRIC_KIND_MAP_find _ _ Hk) as [[_ ->]|[[_ ->]|[_ ->]]]; by eexists.
  - intros s name v Hget Hopt Hname. rewrite Hopt.
    pose proof (GetMetric_find s name) as Hfind.
    rewrite Hget in Hfind. specialize (Hfind eq_refl).
    rewrite <- Hname, case_insensitive_find_key_lower in Hfind. by rewrite Hfind.
  - by intros ->.
  - intros v -> Hnot.
    destruct (case_insensitive_find METRIC_KIND_MAP (GetValue_string v)) as [k|] eqn:Hk;
      [|done].
    exfalso. apply Hnot.
    destruct (METRIC_KIND_MAP_find _ _ Hk) as [[-> _]|[[-> _]|[-> _]]]; set_solver.
  - by intros ->.
Qed.

(** The constructor reads the options through five keys only. *)
Lemma constructor_options_ext vector_size vector_child_type
    (options options' : list (string * Value)) :
  (forall key, key ∈ ["metric"; "ef_construction"; "ef_search"; "m"; "m0"]%string ->
     case_insensitive_find options key = case_insensitive_find options' key) ->
  constructor_metric vector_size vector_child_type options
  = constructor_metric vector_size vector_child_type options'
  /\ constructor_config options = constructor_config options'.
Proof.
  intros Hsame. unfold constructor_metric, constructor_config.
  rewrite !(Hsame "metric"%string), !(Hsame "ef_construction"%string),
    !(Hsame "ef_search"%string), !(Hsame "m"%string), !(Hsame "m0"%string)
    by set_solver.
  done.
Qed.

(** X15.  The options of the constructor.  The keys are read without
    regard to case, and an option under any other key than [metric],
    [ef_construction], [ef_search], [m] and [m0] changes nothing in the
    index constructed.  Key lookups are always disabled.  [m0], when given,
    is the base connectivity whether or not [m] is given; [m] alone sets
    the connectivity and twice that as the base connectivity; without
    them the defaults of the engine stay. *)
Theorem constructor_options_lookup (index_constraint_type : IndexConstraintType)
    (vector_size : N) (vector_child_type : LogicalTypeId.t)
    (options : list (string * Value)) (info : option IndexStorageInfo)
    (estimated_cardinality : N) :
  let config := constructor_config options in
  new_HNSWIndex index_constraint_type vector_size vector_child_type
    (map (fun kv => (StringUtil_Lower kv.1, kv.2)) options) info estimated_cardinality
  = new_HNSWIndex index_constraint_type vector_size vector_child_type
      options info estimated_cardinality
  /\ (forall before behind key value,
        options = before ++ (key, value) :: behind ->
        StringUtil_Lower key
          ∉ ["metric"; "ef_construction"; "ef_search"; "m"; "m0"]%string ->
        new_HNSWIndex index_constraint_type vector_size vector_child_type
          options info estimated_cardinality
        = new_HNSWIndex index_constraint_type vector_size vector_child_type
            (before ++ behind) info estimated_cardinality)
  /\ enable_key_lookups config = false
  /\ (forall m0_opt,
        case_insensitive_find options "m0" = Some m0_opt ->
        connectivity_base config = size_t_of_int32_t (GetValue_int32_t m0_opt))
  /\ (forall m_opt,
        case_insensitive_find options "m" = Some m_opt ->
        connectivity config = size_t_of_int32_t (GetValue_int32_t m_opt)
        /\ (case_insensitive_find options "m0" = None ->
            connectivity_base config
            = idx_mul (size_t_of_int32_t (GetValue_int32_t m_opt)) 2))
  /\ (case_insensitive_find options "m" = None ->
      connectivity config = connectivity index_dense_config_default
      /\ (case_insensitive_find options "m0" = None ->
          connectivity_base config = connectivity_base index_dense_config_default)).
Proof.
  intros config. split; [|split; [|split; [|split; [|split]]]].
  - unfold new_HNSWIndex.
    destruct (constructor_options_ext vector_size vector_child_type
                (map (fun kv => (StringUtil_Lower kv.1, kv.2)) options) options)
      as [-> ->]; [|done].
    intros key _. apply case_insensitive_find_lower.
  - intros before behind key value -> Hkey. unfold new_HNSWIndex.
    destruct (constructor_options_ext vector_size vector_child_type
                (before ++ (key, value) :: behind) (before ++ behind))
      as [-> ->]; [|done].
    intros key' Hin. apply case_insensitive_find_other. intros Heq.
    apply Hkey. rewrite Heq.
    repeat (apply elem_of_cons in Hin as [->|Hin]; [set_solver|]).
    by apply elem_of_nil in Hin.
  - unfold config, constructor_config.
    by destruct (case_insensitive_find options "ef_construction"),
                (case_insensitive_find options "ef_search"),
                (case_insensitive_find options "m"),
                (case_insensitive_find options "m0").
  - intros m0_opt Hm0. unfold config, constructor_config. by rewrite Hm0.
  - intros m_opt Hm. unfold config, constructor_config. rewrite Hm.
    split; [by destruct (case_insensitive_find options "m0")|].
    by intros ->.
  - intros Hm. unfold config, constructor_config. rewrite Hm.
    split.
    + by destruct (case_insensitive_find options "ef_construction"),
                  (case_insensitive_find options "ef_search"),
                  (case_insensitive_find options "m0").
    + intros ->.
      by destruct (case_insensitive_find options "ef_construction"),
                  (case_insensitive_find options "ef_search").
Qed.
End Metrics.

(** ** From a descriptor and back *)

Section Redescribe.
Context `{HostStorage} {Hok : HostStorageOk} `{GraphEngine}.

(** X18.  Reload, then checkpoint.  An index made from a descriptor is
    clean, so the [GetStorageInfo] that follows writes nothing: it returns
    the root pointer of the descriptor and an allocator entry with the same
    blocks and the same contents, and leaves the engine as it was
    loaded. *)
Theorem reload_then_checkpoint (cfg : EngineConfig) (info : IndexStorageInfo)
    (allocator_info : FixedSizeAllocatorInfo) (estimated_cardinality : N)
    (get_buffers : bool) :
  allocator_infos info = [allocator_info] ->
  loader_bounded (e_load (e_make cfg)) ->
  exists s info' s' allocator_info',
    make NONE cfg (Some info) estimated_cardinality = (Normal tt, s)
    /\ GetStorageInfo get_buffers s = (Normal info', s')
    /\ root info' = root info
    /\ allocator_infos info' = [allocator_info']
    /\ (forall p, p ∈ buffer_ids allocator_info' <-> p ∈ buffer_ids allocator_info)
    /\ persisted allocator_info' = persisted allocator_info
    /\ index s' = index s
    /\ (CallSave ∉ log s').
Proof.
  intros Hinfo Hbounded.
  assert (Hmake : exists e' events,
            make NONE cfg (Some info) estimated_cardinality
            = (Normal tt, mk e' (e_size e') false (root info) (Init allocator_info) events)
            /\ (CallSave ∉ events)).
  { rewrite (make_load _ _ allocator_info) by done.
    destruct (buffer_ids allocator_info) as [|b bs].
    - eexists _, _. split; [reflexivity|]. set_solver.
    - destruct (load_from_stream_total _ Hbounded (Init allocator_info)
                  (LinkedBlockReader.make (root info))) as (e' & reader' & Hload).
      { unfold IDX_MODULUS. cbn. lia. }
      rewrite Hload. eexists _, _. split; [reflexivity|]. set_solver. }
  destruct Hmake as (e' & events & Hmake & Hsave).
  eexists _, _, _, _. split; [exact Hmake|]. split.
  { apply GetStorageInfo_eq. by apply PersistToDisk_clean. }
  cbn [root allocator_infos root_block_ptr linked_block_allocator index log].
  split; [done|]. split; [done|]. split.
  { intros p. cbn [GetInfo Init buffer_ids live].
    by rewrite elem_of_elements, elem_of_list_to_set. }
  split; [done|]. split; [done|].
  intros Hin. apply elem_of_app in Hin as [Hin|Hin]; [done|]. set_solver.
Qed.
End Redescribe.

(** ** Insert and delete *)

(** A filter that keeps every element, and one that keeps none. *)
Lemma filter_all {A} (P : A -> Prop) `{forall x, Decision (P x)} (l : list A) :
  (forall x, x ∈ l -> P x) -> filter P l = l.
Proof.
  induction l as [|x l IH]; intros Hall; [done|].
  rewrite filter_cons_True by (apply Hall; left).
  f_equal. apply IH. intros y Hy. apply Hall. by right.
Qed.

Lemma filter_none {A} (P : A -> Prop) `{forall x, Decision (P x)} (l : list A) :
  (forall x, x ∈ l -> ~ P x) -> filter P l = [].
Proof.
  induction l as [|x l IH]; intros Hnone; [done|].
  rewrite filter_cons_False by (apply Hnone; left).
  apply IH. intros y Hy. apply Hnone. by right.
Qed.

Section InsertDelete.
Context `{GraphEngine} {Hlaws : GraphEngineLaws}.

(** The identifiers left after the removals of [Delete]. *)
Lemma engine_remove_rows_filter ids : forall e,
  e_keys (engine_remove_rows e ids) = filter (fun k => k ∉ ids) (e_keys e).
Proof.
  induction ids as [|a ids IH]; intros e; cbn [engine_remove_rows].
  - symmetry. apply filter_all. intros k _. apply not_elem_of_nil.
  - rewrite IH, e_remove_keys, list_filter_filter.
    apply list_filter_iff. intros k. rewrite not_elem_of_cons. tauto.
Qed.

(** X16.  Insert, then delete.  With an engine in which an insert adds
    the identifier and a removal removes it: after a [Construct] that
    completed, [Delete] of the row identifiers of the batch returns normally
    and leaves in the engine the identifiers it held before the insert,
    but for those that are also in the batch; the cached count is the size
    of the engine and the index is dirty.  When no identifier of the batch
    was in the engine, the engine holds what it held before the insert and
    the cached count is the one from before. *)
Theorem Construct_then_Delete (s s' : HNSWIndex.t) (input : list (Z * list scalar))
    (thread_idx : N) :
  Construct input thread_idx s = (Normal tt, s') ->
  let s2 := (Delete input.*1 s').2 in
  (Delete input.*1 s').1 = Normal tt
  /\ e_keys (index s2) ≡ₚ filter (fun k => k ∉ input.*1) (e_keys (index s))
  /\ index_size s2 = e_size (index s2)
  /\ is_dirty s2 = true
  /\ ((forall k, k ∈ input.*1 -> k ∉ e_keys (index s)) ->
      e_keys (index s2) ≡ₚ e_keys (index s)
      /\ index_size s2 = e_size (index s)).
Proof.
  intros Hrun s2. unfold s2. clear s2. rewrite Delete_eq.
  cbn [fst snd index index_size is_dirty].
  rewrite Construct_eq in Hrun. cbv zeta in Hrun.
  set (e1 := engine_grown (index s) _) in Hrun.
  destruct (engine_add_rows e1 input thread_idx) as [[r e'] added] eqn:Hadd.
  cbn [fst snd add_outcome] in Hrun.
  destruct r; [|done]. injection Hrun as <-. cbn [index].
  pose proof (engine_add_rows_success input thread_idx e1) as Hs.
  rewrite Hadd in Hs. cbn in Hs. destruct (Hs eq_refl) as (_ & _ & Hkeys & _).
  unfold e1 in Hkeys. rewrite engine_grown_keys in Hkeys.
  assert (Hdel : e_keys (engine_remove_rows e' input.*1)
                 ≡ₚ filter (fun k => k ∉ input.*1) (e_keys (index s))).
  { rewrite engine_remove_rows_filter, Hkeys, filter_app.
    rewrite (filter_none _ input.*1); [done|]. intros k Hin Hnot. by destruct Hnot. }
  split; [done|]. split; [done|]. split; [done|]. split; [done|].
  intros Hfresh.
  assert (Hall : e_keys (engine_remove_rows e' input.*1) ≡ₚ e_keys (index s)).
  { rewrite Hdel. rewrite filter_all; [done|]. intros k Hk Hin. by apply (Hfresh k). }
  split; [done|]. by apply e_size_perm.
Qed.
End InsertDelete.

(** ** The null root pointer *)

Section NullRoot.
Context `{HostStorage} {Hok : HostStorageOk} `{GraphEngine}.

(** X17.  A root block whose pointer is zero is taken for no root.  When
    the allocator hands out the block with pointer zero as the root, the
    checkpoint writes the stream there (a reader at pointer zero reads it
    back) and leaves the root pointer null; the next checkpoint of the
    dirty index, with the root pointer and the allocator as the first left
    them, then takes another block as its root, and block zero stays in
    use. *)
Theorem PersistToDisk_null_root_block (s : HNSWIndex.t) :
  is_dirty s = true ->
  root_block_ptr s = 0 ->
  next_segment (live (linked_block_allocator s)) = 0 ->
  N.of_nat (length (concat (e_save (index s)))) < IDX_MODULUS ->
  exists s',
    PersistToDisk s = (Normal tt, s')
    /\ root_block_ptr s' = 0
    /\ 0 ∈ live (linked_block_allocator s')
    /\ (forall dst,
          (length (concat (e_save (index s))) <= length dst)%nat ->
          exists r',
            LinkedBlockReader.ReadData (linked_block_allocator s')
              (LinkedBlockReader.make 0) dst
              (N.of_nat (length (concat (e_save (index s)))))
            = Some (N.of_nat (length (concat (e_save (index s)))), r',
                    concat (e_save (index s))
                    ++ drop (length (concat (e_save (index s)))) dst))
    /\ (forall s1,
          is_dirty s1 = true ->
          root_block_ptr s1 = root_block_ptr s' ->
          linked_block_allocator s1 = linked_block_allocator s' ->
          N.of_nat (length (concat (e_save (index s1)))) < IDX_MODULUS ->
          exists s2,
            PersistToDisk s1 = (Normal tt, s2)
            /\ root_block_ptr s2 <> 0
            /\ (root_block_ptr s2 ∉ live (linked_block_allocator s'))
            /\ 0 ∈ live (linked_block_allocator s2)).
Proof.
  intros Hdirty Hroot Hnull Hlen.
  destruct (PersistToDisk_writes s Hdirty (or_introl Hroot) Hlen)
    as (a' & ps & cur & pos & Hrun & Hc & Hhead & Hlive).
  assert (Hr : (persist_root s).1 = 0).
  { unfold persist_root. rewrite Hroot. cbn. exact Hnull. }
  rewrite Hr in *.
  eexists. split; [exact Hrun|]. cbn [root_block_ptr linked_block_allocator].
  split; [done|]. split; [done|]. split.
  { intros dst Hdst. by eapply chain_read. }
  intros s1 Hdirty1 Hroot1 Halloc1 Hlen1.
  destruct (PersistToDisk_blocks s1 Hdirty1 (or_introl Hroot1) Hlen1)
    as (a2 & cur2 & pos2 & new & Hrun2 & _ & _ & Hlv & _).
  eexists. split; [exact Hrun2|]. cbn [root_block_ptr linked_block_allocator].
  unfold persist_root in *. rewrite Hroot1 in *. cbn [N.eqb fst snd New live] in *.
  rewrite Halloc1 in *.
  pose proof (next_segment_fresh (live a')) as Hfresh.
  split; [by intros Heq; rewrite Heq in Hfresh|].
  split; [done|]. rewrite Hlv. set_solver.
Qed.
End NullRoot.

(** ** The further properties on the reference instances *)

(** The loader of the brute-force engine asks for one byte, two bytes, or
    as many as a byte counts. *)
Lemma Reference_load_rows_bounded n : forall acc,
  loader_bounded (Reference.load_rows n acc).
Proof.
  induction n as [|n IH]; intros acc; cbn [Reference.load_rows]; [constructor|].
  constructor; [done|]. intros ok head.
  destruct ok; [|constructor].
  destruct head as [|k [|l [|? ?]]]; try constructor.
  - unfold Reference.uncell. pose proof (Byte.to_N_bounded l). unfold IDX_MODULUS. lia.
  - intros ok' cells. destruct ok'; [apply IH|constructor].
Qed.

Lemma Reference_load_bounded e : loader_bounded (Reference.load e).
Proof.
  constructor; [done|]. intros ok head.
  destruct ok; [|constructor].
  destruct head as [|n [|? ?]]; try constructor.
  apply Reference_load_rows_bounded.
Qed.

Lemma Scan_pushes_next_rows_witness :
  let n := N.min 2 (3 - 0) in
  @Scan Reference.vector Reference.sample_scan Reference.sample_result =
    Some (n,
          mkScanState (0 + n) 3 (row_ids Reference.sample_scan),
          take (N.to_nat n) (drop (N.to_nat 0) (row_ids Reference.sample_scan))
          ++ drop (N.to_nat n) Reference.sample_result)
  /\ (current_row Reference.sample_scan = total_rows Reference.sample_scan ->
      @Scan Reference.vector Reference.sample_scan Reference.sample_result
      = Some (0, Reference.sample_scan, Reference.sample_result)).
Proof.
  apply (@Scan_pushes_next_rows Reference.vector Reference.sample_scan
           Reference.sample_result); vm_compute; first [reflexivity | done | lia].
Defined.

Lemma Scan_returns_search_result_witness :
  exists scan_state s' chunks scan_state' result',
    @InitializeScan Reference.engine [0; 0]%Z 10 Reference.filled_index
    = (Normal scan_state, s')
    /\ @Scan_calls Reference.vector 2 scan_state Reference.sample_result
       = Some (chunks, scan_state', result')
    /\ chunks = [[7; 9]; [8]]%Z
    /\ concat chunks = [7; 9; 8]%Z
    /\ @Scan Reference.vector scan_state' result' = Some (0, scan_state', result').
Proof.
  destruct (@Scan_returns_search_result Reference.vector Reference.engine
              Reference.filled_index [0; 0]%Z 10 Reference.sample_result 2)
    as (st & s' & chunks & st' & result' & Hinit & Hrun & Hchunks & Hcover);
    [vm_compute; reflexivity | vm_compute; reflexivity | vm_compute; lia |].
  exists st, s', chunks, st', result'.
  split; [exact Hinit|]. split; [exact Hrun|].
  split; [rewrite Hchunks; vm_compute; reflexivity|].
  destruct Hcover as [Hcat Hzero]; [vm_compute; lia|].
  split; [rewrite Hcat; vm_compute; reflexivity | exact Hzero].
Defined.

Lemma checkpoint_reload_witness :
  exists info s' s'',
    @GetStorageInfo Reference.host Reference.engine false Reference.filled_index
    = (Normal info, s')
    /\ (@GetStorageInfo Reference.host Reference.engine false s').1 = Normal info
    /\ @make Reference.host Reference.engine NONE tt (Some info) 0 = (Normal tt, s'')
    /\ index s'' = Reference.mkBruteForce Reference.sample_batch 3
    /\ index_size s'' = 3
    /\ is_dirty s'' = false
    /\ root_block_ptr s'' = root_block_ptr s'
    /\ live (linked_block_allocator s'') = live (linked_block_allocator s').
Proof.
  apply (@checkpoint_reload Reference.host Reference_host_ok Reference.engine
           Reference.filled_index false tt 0
           (Reference.mkBruteForce Reference.sample_batch 3) []).
  - reflexivity.
  - left. reflexivity.
  - reflexivity.
  - vm_compute. reflexivity.
Defined.

Lemma PersistToDisk_never_frees_witness :
  exists s',
    @PersistToDisk Reference.host Reference.engine Reference.grown_index = (Normal tt, s')
    /\ live (linked_block_allocator Reference.grown_index)
       ⊆ live (linked_block_allocator s')
    /\ size (live (linked_block_allocator s'))
       = (size (live (linked_block_allocator Reference.grown_index))
          + (if (root_block_ptr Reference.grown_index =? 0)%N then 1 else 0)
          + length (concat (Reference.save (index Reference.grown_index)))
            / @payload Reference.host)%nat
    /\ (root_block_ptr Reference.grown_index <> 0 ->
        root_block_ptr s' = root_block_ptr Reference.grown_index).
Proof.
  apply (@PersistToDisk_never_frees Reference.host Reference_host_ok Reference.engine
           Reference.grown_index).
  - reflexivity.
  - right. match goal with |- ?P => apply (@bool_decide_unpack P _) end. vm_compute. reflexivity.
  - reflexivity.
Defined.

Lemma CommitDrop_then_checkpoint_witness :
  exists info s2 allocator_info,
    @GetStorageInfo Reference.host Reference.engine false
      (@CommitDrop Reference.engine Reference.filled_index).2 = (Normal info, s2)
    /\ root info = fresh (∅ : gset N)
    /\ allocator_infos info = [allocator_info]
    /\ root info ∈ buffer_ids allocator_info
    /\ log s2 = log (@CommitDrop Reference.engine Reference.filled_index).2
                ++ [Acquire ExclusiveLock; CallSave; Release ExclusiveLock]
    /\ is_dirty s2 = false.
Proof.
  apply (proj2 (proj2 (@CommitDrop_then_checkpoint Reference.host Reference_host_ok
                         Reference.engine Reference.filled_index false))).
  - reflexivity.
  - reflexivity.
Defined.

Lemma make_accepts_every_descriptor_witness :
  exists s,
    @make Reference.host Reference.engine NONE tt (Some Reference.looped_info) 0
    = (Normal tt, s)
    /\ root_block_ptr s = 7
    /\ is_dirty s = false
    /\ index_size s = 1
    /\ index s = Reference.mkBruteForce [(9, [5; 1])]%Z 1.
Proof.
  destruct (@make_accepts_every_descriptor Reference.host Reference_host_ok
              Reference.engine tt Reference.looped_info
              Reference.looped_blocks 0)
    as (s & Hmake & Hroot & _ & Hclean & Hsize & _ & Hindex);
    [reflexivity|apply Reference_load_bounded|].
  exists s. rewrite Hsize, Hindex; [|done|intros p; reflexivity].
  repeat split; try done.
Defined.

(** The brute-force engine refuses a row without taking it. *)
Lemma Reference_add_failure (e : Reference.BruteForce) k v t w e' :
  Reference.add e k v t = (Failure w, e') ->
  N.of_nat (length (Reference.rows e')) = N.of_nat (length (Reference.rows e)).
Proof.
  unfold Reference.add. destruct v; [by intros [= _ <-]|].
  destruct (_ <? _); [done|]. by intros [= _ <-].
Qed.

Lemma Construct_failure_cache_drift_witness :
  exists s' (added : list (Z * list Z)),
    @Construct Reference.engine Reference.broken_batch 0 (Reference.new_index 0)
    = (Raised (InternalException "Failed to add to the HNSW index: invalid vector"), s')
    /\ added = [(7, [1; 2])]%Z
    /\ (length added < length Reference.broken_batch)%nat
    /\ @e_size Reference.engine (index s') = 0 + N.of_nat (length added)
    /\ index_size s' = 0 + 3
    /\ @e_size Reference.engine (index s') < index_size s'
    /\ (forall row_ids,
          index_size (@Delete Reference.engine row_ids s').2
          = @e_size Reference.engine (index (@Delete Reference.engine row_ids s').2)).
Proof.
  apply (@Construct_failure_cache_drift Reference.engine Reference_engine_laws
           (Reference.new_index 0) Reference.broken_batch 0 "invalid vector").
  - exact Reference_add_failure.
  - reflexivity.
  - reflexivity.
  - vm_compute. reflexivity.
Defined.

Lemma ReadData_behind_stream_zeros_witness :
  exists a' w' r',
    @LinkedBlockWriter.WriteData Reference.host
      (@LinkedBlockWriter.Reset Reference.host Reference.used_allocator
         (LinkedBlockWriter.make Reference.sample_root)).1
      (@LinkedBlockWriter.Reset Reference.host Reference.used_allocator
         (LinkedBlockWriter.make Reference.sample_root)).2
      [x01; x02] 2 = Some (a', w')
    /\ @LinkedBlockReader.ReadData Reference.host a'
         (LinkedBlockReader.make Reference.sample_root) (replicate 3 xff) 3
       = Some (3, r', [x01; x02; x00]).
Proof.
  apply (@ReadData_behind_stream_zeros Reference.host Reference_host_ok
           Reference.used_allocator Reference.sample_root [x01; x02]
           (replicate 3 xff) 1).
  - match goal with |- ?P => apply (@bool_decide_unpack P _) end. vm_compute. reflexivity.
  - reflexivity.
  - vm_compute. lia.
  - simpl. lia.
Defined.

Lemma ReadData_consecutive_witness :
  exists a' w' r1 r2,
    @LinkedBlockWriter.WriteData Reference.host
      (@LinkedBlockWriter.Reset Reference.host Reference.sample_allocator
         (LinkedBlockWriter.make Reference.sample_root)).1
      (@LinkedBlockWriter.Reset Reference.host Reference.sample_allocator
         (LinkedBlockWriter.make Reference.sample_root)).2
      ([x01; x02; x03] ++ [x04; x05; x06; x07; x08]) 8 = Some (a', w')
    /\ @LinkedBlockReader.ReadData Reference.host a'
         (LinkedBlockReader.make Reference.sample_root) (replicate 3 x00) 3
       = Some (3, r1, [x01; x02; x03])
    /\ @LinkedBlockReader.ReadData Reference.host a' r1 (replicate 5 x00) 5
       = Some (5, r2, [x04; x05; x06; x07; x08]).
Proof.
  apply (@ReadData_consecutive Reference.host Reference_host_ok
           Reference.sample_allocator Reference.sample_root
           [x01; x02; x03] [x04; x05; x06; x07; x08] (replicate 3 x00) (replicate 5 x00)).
  - unfold Reference.sample_allocator, Reference.sample_root, New. simpl. set_solver.
  - reflexivity.
  - simpl. lia.
  - simpl. lia.
Defined.

Lemma Construct_then_Delete_witness :
  let s2 := (@Delete Reference.engine Reference.sample_batch.*1 Reference.filled_index).2 in
  (@Delete Reference.engine Reference.sample_batch.*1 Reference.filled_index).1 = Normal tt
  /\ @e_keys Reference.engine (index s2)
     ≡ₚ filter (fun k => k ∉ Reference.sample_batch.*1)
          (@e_keys Reference.engine (index (Reference.new_index 0)))
  /\ index_size s2 = @e_size Reference.engine (index s2)
  /\ is_dirty s2 = true
  /\ ((forall k, k ∈ Reference.sample_batch.*1 ->
         k ∉ @e_keys Reference.engine (index (Reference.new_index 0))) ->
      @e_keys Reference.engine (index s2)
      ≡ₚ @e_keys Reference.engine (index (Reference.new_index 0))
      /\ index_size s2 = @e_size Reference.engine (index (Reference.new_index 0))).
Proof.
  refine (@Construct_then_Delete Reference.engine Reference_engine_laws
            (Reference.new_index 0) Reference.filled_index Reference.sample_batch 0 _).
  vm_compute. reflexivity.
Defined.

Lemma PersistToDisk_null_root_block_witness :
  exists s',
    @PersistToDisk Reference.host Reference.engine Reference.filled_index = (Normal tt, s')
    /\ root_block_ptr s' = 0
    /\ 0 ∈ live (linked_block_allocator s')
    /\ (forall dst,
          (length (concat (@e_save Reference.engine (index Reference.filled_index)))
           <= length dst)%nat ->
          exists r',
            @LinkedBlockReader.ReadData Reference.host (linked_block_allocator s')
              (LinkedBlockReader.make 0) dst
              (N.of_nat (length (concat (@e_save Reference.engine
                                           (index Reference.filled_index)))))
            = Some (N.of_nat (length (concat (@e_save Reference.engine
                                                (index Reference.filled_index)))), r',
                    concat (@e_save Reference.engine (index Reference.filled_index))
                    ++ drop (length (concat (@e_save Reference.engine
                                               (index Reference.filled_index)))) dst))
    /\ (forall s1,
          is_dirty s1 = true ->
          root_block_ptr s1 = root_block_ptr s' ->
          linked_block_allocator s1 = linked_block_allocator s' ->
          N.of_nat (length (concat (@e_save Reference.engine (index s1)))) < IDX_MODULUS ->
          exists s2,
            @PersistToDisk Reference.host Reference.engine s1 = (Normal tt, s2)
            /\ root_block_ptr s2 <> 0
            /\ (root_block_ptr s2 ∉ live (linked_block_allocator s'))
            /\ 0 ∈ live (linked_block_allocator s2)).
Proof.
  refine (@PersistToDisk_null_root_block Reference.host Reference_host_ok
            Reference.engine Reference.filled_index _ _ _ _).
  - reflexivity.
  - reflexivity.
  - vm_compute. reflexivity.
  - reflexivity.
Defined.

Lemma reload_then_checkpoint_witness :
  exists s info' s' allocator_info',
    @make Reference.host Reference.engine NONE tt (Some Reference.blank_info) 0
    = (Normal tt, s)
    /\ @GetStorageInfo Reference.host Reference.engine true s = (Normal info', s')
    /\ root info' = root Reference.blank_info
    /\ allocator_infos info' = [allocator_info']
    /\ (forall p, p ∈ buffer_ids allocator_info'
                  <-> p ∈ buffer_ids Reference.blank_blocks)
    /\ persisted allocator_info'
       = persisted Reference.blank_blocks
    /\ index s' = index s
    /\ (CallSave ∉ log s').
Proof.
  refine (@reload_then_checkpoint Reference.host Reference_host_ok Reference.engine tt
            Reference.blank_info Reference.blank_blocks
            0 true _ _).
  - reflexivity.
  - apply Reference_load_bounded.
Defined.
